(** * A* search over an abstract problem, and its example problems

    A shallow embedding of the notebook [lab2-151932-Kordas.ipynb]: the class
    [Problem], the function [astar], the problems [VacuumProblem] and
    [PuzzleProblem] with its two variants, and the theorems that relate the
    code to its specification.

    Conventions.
    - Python numbers are exact rationals ([Q]); the only non-integers of the
      notebook are halves, on which true division is exact.
    - A call that raises is [Raise e]; a loop that is still running when its
      iteration budget is spent is [OutOfFuel].  The budget is the only
      addition to the code: Python's [while] has none.
    - The dictionary [revealed] is a [gmap]; the [queue.PriorityQueue] is a
      priority queue of [(cost, state)] tuples compared as Python compares
      tuples. *)

From Stdlib Require Import QArith Qround Qabs Lqa.
From stdpp Require Import gmap strings list.

Local Open Scope Z_scope.

(** ** Outcomes of Python code *)

Inductive exn :=
| Exception (msg : string)
| IndexError
| KeyError
| TypeError
| NameError.

Inductive res (A : Type) :=
| Ok (a : A)
| Raise (e : exn)
| OutOfFuel.
Arguments Ok {A} a.
Arguments Raise {A} e.
Arguments OutOfFuel {A}.

Definition res_bind {A B : Type} (k : A → res B) (m : res A) : res B :=
  match m with
  | Ok a => k a
  | Raise e => Raise e
  | OutOfFuel => OutOfFuel
  end.

#[global] Instance res_mbind : MBind res := @res_bind.
#[global] Instance res_mret : MRet res := @Ok.

(** [for x in l: acc = f(acc, x)], where the body may raise. *)
Fixpoint for_each {A B : Type} (f : B → A → res B) (l : list A) (acc : B) : res B :=
  match l with
  | [] => Ok acc
  | x :: rest => acc' ← f acc x; for_each f rest acc'
  end.

(** ** While loops

    The body of a loop answers [Continue] with the variables for the next
    test of the condition, or [Break] with the variables the code after the
    loop sees.  [while body fuel s] runs at most [fuel] iterations. *)

Inductive control (S R : Type) :=
| Continue (s : S)
| Break (r : R).
Arguments Continue {S R} s.
Arguments Break {S R} r.

Definition while_step {S R : Type} (body : S → res (control S R))
    (o : res (control S R)) : res (control S R) :=
  match o with
  | Ok (Continue s) => body s
  | _ => o
  end.

Definition while {S R : Type} (body : S → res (control S R)) (fuel : N) (s : S) : res R :=
  match N.iter fuel (while_step body) (Ok (Continue s)) with
  | Ok (Break r) => Ok r
  | Ok (Continue _) => OutOfFuel
  | Raise e => Raise e
  | OutOfFuel => OutOfFuel
  end.

(** The states a loop started in [s0] can be in when its condition is tested. *)
Inductive loop_reach {S R : Type} (body : S → res (control S R)) (s0 : S) : S → Prop :=
| reach_start : loop_reach body s0 s0
| reach_next s s' : loop_reach body s0 s → body s = Ok (Continue s') → loop_reach body s0 s'.

(** ** The priority queue

    [queue.PriorityQueue] keeps its entries in a binary heap and [get]
    removes a least entry for Python's [<].  Entries are [(cost, state)]
    tuples; when [<] orders the states, two entries neither of which is below
    the other carry the same state, and which of them [get] returns cannot be
    observed.  The queue is a leftist heap over the same comparison. *)

Module PriorityQueue.
Section Heap.
Context {E : Type} (ltb : E → E → bool).

Inductive heap :=
| Leaf
| Node (rk : nat) (x : E) (l r : heap).

Definition rank (h : heap) : nat :=
  match h with Leaf => O | Node k _ _ _ => k end.

Definition make (x : E) (a b : heap) : heap :=
  if (rank a <? rank b)%nat then Node (S (rank a)) x b a else Node (S (rank b)) x a b.

Fixpoint merge (a : heap) : heap → heap :=
  match a with
  | Leaf => λ b, b
  | Node _ x l r =>
      fix merge_into (b : heap) : heap :=
        match b with
        | Leaf => a
        | Node _ y l' r' =>
            if ltb y x then make y l' (merge_into r') else make x l (merge r b)
        end
  end.

Definition empty : heap := Leaf.

Definition put (x : E) (h : heap) : heap := merge (Node 1 x Leaf Leaf) h.

Definition get (h : heap) : option (E * heap) :=
  match h with
  | Leaf => None
  | Node _ x l r => Some (x, merge l r)
  end.

Fixpoint elements (h : heap) : list E :=
  match h with
  | Leaf => []
  | Node _ x l r => x :: elements l ++ elements r
  end.

(** Heap order for a relation [R] on entries. *)
Fixpoint ordered (R : E → E → Prop) (h : heap) : Prop :=
  match h with
  | Leaf => True
  | Node _ x l r =>
      Forall (R x) (elements l) ∧ Forall (R x) (elements r) ∧ ordered R l ∧ ordered R r
  end.
End Heap.
Arguments heap E : clear implicits.
Arguments Leaf {E}.
Arguments empty {E}.
End PriorityQueue.

(** ** The problem interface and the search *)

(** The class [Problem].  Every method may raise.  [state_ltb] is Python's
    [<] on states, which the queue uses when two costs are equal; it returns
    a boolean, so that a problem whose states Python cannot compare, where the
    queue raises [TypeError] at such a tie, is not among the problems
    described here. *)
Record Problem (State : Type) := {
  state_ltb : State → State → bool;
  initial_state : State;
  available_actions : State → res (list string);
  do_action : State → string → res State;
  is_goal : State → res bool;
  action_cost : State → string → res Q;
  heuristic : State → res Q;
}.
Arguments state_ltb {State} _ _ _.
Arguments initial_state {State} _.
Arguments available_actions {State} _ _.
Arguments do_action {State} _ _ _.
Arguments is_goal {State} _ _.
Arguments action_cost {State} _ _ _.
Arguments heuristic {State} _ _.

(** A value of [revealed]: the tuple [(predecessor, action, f, g)]. *)
Record record (State : Type) := Rec {
  rec_pred : option State;
  rec_action : string;
  rec_f : Q;
  rec_g : Q;
}.
Arguments Rec {State} _ _ _ _.
Arguments rec_pred {State} _.
Arguments rec_action {State} _.
Arguments rec_f {State} _.
Arguments rec_g {State} _.

(** What a call of [astar] produces: the returned list and the two counters
    it prints, [x] and [len(revealed)]. *)
Record report := Report {
  solution : list string;
  visited_states : N;
  checked_states : N;
}.

Section Search.
Context {State : Type} `{Countable State}.

(** The numbers that [action_cost] and [heuristic] return are held by their
    values, and comparing them is exact, as in Python.  Adding them is not:
    [add] is Python's [+] on the numbers of the problem at hand, the exact sum
    [Qplus] for ints and fractions, [float_add] below for floats, where a sum
    is rounded. *)
Variable add : Q → Q → Q.
Variable P : Problem State.

Definition entry : Type := Q * State.

(** [a < b] on tuples [(cost, state)]: the costs decide, and the states
    when the costs are equal. *)
Definition entry_ltb (a b : entry) : bool :=
  match Qcompare (fst a) (fst b) with
  | Lt => true
  | Eq => state_ltb P (snd a) (snd b)
  | Gt => false
  end.

Definition queue : Type := PriorityQueue.heap entry.

Definition q_put (e : entry) (q : queue) : queue := PriorityQueue.put entry_ltb e q.
Definition q_get (q : queue) : option (entry * queue) := PriorityQueue.get entry_ltb q.

(** [revealed[s]] *)
Definition subscript (revealed : gmap State (record State)) (s : State) : res (record State) :=
  match revealed !! s with
  | Some r => Ok r
  | None => Raise KeyError
  end.

(** The variables of the first loop. *)
Record vars := Vars {
  v_q : queue;
  v_revealed : gmap State (record State);
  v_x : N;
  v_curr_state : option State;
}.

(** The body of [for p in possible]. *)
Definition relax_with (curr_state : State) (curr_cost : Q) (st : queue * gmap State (record State)) (p : string)
    : res (queue * gmap State (record State)) :=
  let '(q, revealed) := st in
  new_state ← do_action P curr_state p;
  c ← action_cost P curr_state p;
  let real_cost := add c curr_cost in
  h ← heuristic P new_state;
  let new_cost := add real_cost h in
  let skip :=
    match revealed !! new_state with
    | Some r => Qle_bool (rec_f r) new_cost
    | None => false
    end in
  if skip then Ok (q, revealed)
  else Ok (q_put (new_cost, new_state) q,
           <[new_state := Rec (Some curr_state) p new_cost real_cost]> revealed).

Definition for_actions_with (curr_state : State) (curr_cost : Q) (possible : list string)
    (st : queue * gmap State (record State)) : res (queue * gmap State (record State)) :=
  for_each (relax_with curr_state curr_cost) possible st.

(** The body of [while not q.empty()]. *)
Definition iteration_with (v : vars) : res (control vars vars) :=
  match q_get (v_q v) with
  | None => Ok (Break v)
  | Some (current, q) =>
      let x := N.succ (v_x v) in
      let curr_state := snd current in
      r ← subscript (v_revealed v) curr_state;
      let curr_cost := rec_g r in
      goal ← is_goal P curr_state;
      if (goal : bool) then Ok (Break (Vars q (v_revealed v) x (Some curr_state)))
      else
        possible ← available_actions P curr_state;
        '(q', revealed') ← for_actions_with curr_state curr_cost possible (q, v_revealed v);
        Ok (Continue (Vars q' revealed' x (Some curr_state)))
  end.

(** The variables when the first loop is entered. *)
Definition start (h0 h0' : Q) : vars :=
  let initial := initial_state P in
  Vars (q_put (h0', initial) PriorityQueue.empty)
       {[ initial := Rec None "" h0 0%Q ]}
       0%N None.

(** [astar] up to the end of the first loop. *)
Definition search_with (fuel : N) : res vars :=
  let initial := initial_state P in
  h0 ← heuristic P initial;
  h0' ← heuristic P initial;
  while iteration_with fuel (start h0 h0').

(** The body of [while revealed[curr_state][0] != None]. *)
Definition backtrack (revealed : gmap State (record State)) (st : State * list string)
    : res (control (State * list string) (list string)) :=
  let '(curr_state, solution) := st in
  r ← subscript revealed curr_state;
  match rec_pred r with
  | None => Ok (Break solution)
  | Some pred => Ok (Continue (pred, solution ++ [rec_action r]))
  end.

Definition reconstruct (fuel : N) (revealed : gmap State (record State)) (curr_state : State) : res (list string) :=
  while (backtrack revealed) fuel (curr_state, []).

Definition astar_with (fuel : N) : res report :=
  v ← search_with fuel;
  curr_state ← from_option Ok (Raise NameError) (v_curr_state v);
  solution ← reconstruct fuel (v_revealed v) curr_state;
  Ok (Report (rev solution) (v_x v) (N.of_nat (size (v_revealed v)))).

(** Carrying out a list of actions from a state: each action must be among
    the available ones; the result is the state reached and the sum of the
    action costs. *)
Fixpoint run_plan (s : State) (plan : list string) : res (State * Q) :=
  match plan with
  | [] => Ok (s, 0%Q)
  | a :: rest =>
      possible ← available_actions P s;
      if bool_decide (a ∈ possible) then
        s' ← do_action P s a;
        c ← action_cost P s a;
        '(t, total) ← run_plan s' rest;
        Ok (t, (c + total)%Q)
      else Raise (Exception "Invalid action")
  end.
End Search.

(** The search on numbers whose sums are exact: ints, as the costs and the
    heuristics of the vacuum world are, fractions, and floats as long as no
    sum needs rounding, as the halves of the 8-puzzle. *)
Abbreviation relax := (relax_with Qplus).
Abbreviation for_actions := (for_actions_with Qplus).
Abbreviation iteration := (iteration_with Qplus).
Abbreviation search := (search_with Qplus).
Abbreviation astar := (astar_with Qplus).

Arguments entry State : clear implicits.
Arguments q_put {State} P e q : simpl never.
Arguments q_get {State} P q : simpl never.
Arguments queue State : clear implicits.
Arguments vars State {_ _}.
Arguments Vars {State _ _} _ _ _ _.
Arguments v_q {State _ _} _.
Arguments v_revealed {State _ _} _.
Arguments v_x {State _ _} _.
Arguments v_curr_state {State _ _} _.

(** ** Python floats

    A float is a binary64 number, held here by its value.  [+] on floats
    returns the float nearest to the exact sum, the one with the even
    significand when two floats are equally near.  A sum of absolute value
    2^1024 or more, which Python renders as [inf], is outside this model. *)

(** The integer nearest to [q], the even one at a tie. *)
Definition round_half_even (q : Q) : Z :=
  let f := Qfloor q in
  match Qcompare (q - inject_Z f) (1 # 2) with
  | Lt => f
  | Gt => f + 1
  | Eq => if Z.even f then f else f + 1
  end.

(** The [k] with [2^k <= |q| < 2^(k+1)], for [q] other than zero. *)
Definition binary_exponent (q : Q) : Z :=
  let k := Z.log2 (Z.abs (Qnum q)) - Z.log2 (Z.pos (Qden q)) in
  if Qle_bool (Qpower 2 k) (Qabs q) then k else k - 1.

(** The distance between the floats around [q]: they have 53 significant
    bits, and are the multiples of 2^-1074 near zero. *)
Definition ulp (q : Q) : Q := Qpower 2 (Z.max (binary_exponent q - 52) (-1074)).

(** [float(q)] *)
Definition to_float (q : Q) : Q :=
  if Qeq_bool q 0 then 0%Q
  else Qred (inject_Z (round_half_even (q / ulp q)) * ulp q).

(** [a + b] on floats *)
Definition float_add (a b : Q) : Q := to_float (a + b).

(** An addition that does not round. *)
Definition exact_arithmetic (add : Q → Q → Q) : Prop := ∀ a b, add a b = (a + b)%Q.

(** ** Python sequences *)

(** [range(n)] *)
Definition range (n : nat) : list Z := Z.of_nat <$> seq 0 n.

(** The position an index denotes in a sequence of length [len]: negative
    indices count from the end, anything else out of range raises. *)
Definition index (len : nat) (i : Z) : res nat :=
  if (0 <=? i) && (i <? Z.of_nat len) then Ok (Z.to_nat i)
  else if (- Z.of_nat len <=? i) && (i <? 0) then Ok (Z.to_nat (i + Z.of_nat len))
  else Raise IndexError.

(** [l[i] = v] on a list *)
Definition list_setitem {A : Type} (l : list A) (i : Z) (v : A) : res (list A) :=
  n ← index (length l) i; Ok (<[n := v]> l).

(** [t[i]] and [t[i] = v] on a sequence of three elements *)
Definition item3 {A : Type} (t : A * A * A) (i : Z) : res A :=
  let '(a, b, c) := t in
  n ← index 3 i;
  match n with
  | O => Ok a
  | 1%nat => Ok b
  | _ => Ok c
  end.

Definition setitem3 {A : Type} (t : A * A * A) (i : Z) (v : A) : res (A * A * A) :=
  let '(a, b, c) := t in
  n ← index 3 i;
  match n with
  | O => Ok (v, b, c)
  | 1%nat => Ok (a, v, c)
  | _ => Ok (a, b, v)
  end.

(** Subscripting the value [None] raises a [TypeError]. *)
Definition not_none {A : Type} (o : option A) : res A :=
  match o with
  | Some a => Ok a
  | None => Raise TypeError
  end.

(** [a < b] on tuples of three elements and on tuples of booleans. *)
Definition tuple3_ltb {A : Type} (eqb ltb : A → A → bool) (s t : A * A * A) : bool :=
  let '(a, b, c) := s in
  let '(a', b', c') := t in
  if negb (eqb a a') then ltb a a'
  else if negb (eqb b b') then ltb b b'
  else ltb c c'.

Fixpoint bools_ltb (s t : list bool) : bool :=
  match s, t with
  | [], [] => false
  | [], _ :: _ => true
  | _ :: _, [] => false
  | a :: s', b :: t' => if negb (Bool.eqb a b) then negb a && b else bools_ltb s' t'
  end.

(** ** The vacuum world *)

Module Vacuum.
Definition state : Type := Z * list bool.

Definition ltb (s t : state) : bool :=
  if negb (fst s =? fst t) then fst s <? fst t else bools_ltb (snd s) (snd t).

Definition initial_state : state := (0, [true; true]).

Definition available_actions (s : state) : res (list string) :=
  Ok ["Left"; "Suck"; "Right"]%string.

Definition do_action (s : state) (action : string) : res state :=
  let '(robot, dirty) := s in
  if String.eqb action "Left" then Ok (Z.max (robot - 1) 0, dirty)
  else if String.eqb action "Suck" then
    let new_dirty := dirty in
    new_dirty ← list_setitem new_dirty robot false;
    Ok (robot, new_dirty)
  else if String.eqb action "Right" then
    Ok (Z.min (robot + 1) (Z.of_nat (length dirty) - 1), dirty)
  else Raise (Exception "Invalid action").

Definition is_goal (s : state) : res bool := Ok (negb (existsb id (snd s))).

Definition action_cost (s : state) (action : string) : res Q := Ok 1%Q.

(** [sum(state[1])]: a dirty room counts one. *)
Fixpoint dirty_count (dirty : list bool) : Z :=
  match dirty with
  | [] => 0
  | b :: rest => Z.b2z b + dirty_count rest
  end.

Definition heuristic (s : state) : res Q := Ok (inject_Z (dirty_count (snd s))).

Definition problem : Problem state :=
  Build_Problem state ltb initial_state available_actions do_action is_goal
    action_cost heuristic.

(** The states of the world with two rooms. *)
Definition universe : list state :=
  robot ← [0; 1]; a ← [true; false]; b ← [true; false]; [(robot, [a; b])].

(** [VacuumProblem1] and [VacuumProblem2] define [action_cost] again, with
    the same body, and override [heuristic]: the number of clean rooms, and
    ten times the number of dirty rooms. *)
Definition action_cost1 (s : state) (action : string) : res Q := Ok 1%Q.

Definition heuristic1 (s : state) : res Q :=
  Ok (inject_Z (Z.of_nat (length (snd s)) - dirty_count (snd s))).

Definition problem1 : Problem state :=
  Build_Problem state ltb initial_state available_actions do_action is_goal
    action_cost1 heuristic1.

Definition action_cost2 (s : state) (action : string) : res Q := Ok 1%Q.

Definition heuristic2 (s : state) : res Q :=
  Ok (inject_Z (10 * dirty_count (snd s))).

Definition problem2 : Problem state :=
  Build_Problem state ltb initial_state available_actions do_action is_goal
    action_cost2 heuristic2.
End Vacuum.

(** ** The 8-puzzle *)

Module Puzzle.
Definition row : Type := Z * Z * Z.
Definition state : Type := row * row * row.

Definition ltb : state → state → bool :=
  tuple3_ltb (λ a b, bool_decide (a = b)) (tuple3_ltb Z.eqb Z.ltb).

Definition initial_state : state := ((7, 2, 4), (5, 0, 6), (8, 3, 1)).

Definition expected_state : state := ((0, 1, 2), (3, 4, 5), (6, 7, 8)).

(** [s[i][j]] and [s[i][j] = v] *)
Definition cell (s : state) (i j : Z) : res Z :=
  r ← item3 s i; item3 r j.

Definition set_cell (s : state) (i j : Z) (v : Z) : res state :=
  r ← item3 s i; r' ← setitem3 r j v; setitem3 s i r'.

(** The two loops return at the first match and fall off the end with
    [None]; [found] carries the pending return value. *)
Definition find_position (s : state) (num : Z) : res (option (Z * Z)) :=
  for_each (λ found i,
    for_each (λ found j,
      match found with
      | Some _ => Ok found
      | None => v ← cell s i j; Ok (if v =? num then Some (i, j) else None)
      end) (range 3) found) (range 3) None.

Definition available_actions (s : state) : res (list string) :=
  position ← find_position s 0;
  let actions := [] in
  p ← not_none position;
  let actions := if negb (fst p =? 0) then actions ++ ["down"%string] else actions in
  p ← not_none position;
  let actions := if negb (fst p =? 2) then actions ++ ["up"%string] else actions in
  p ← not_none position;
  let actions := if negb (snd p =? 0) then actions ++ ["right"%string] else actions in
  p ← not_none position;
  let actions := if negb (snd p =? 2) then actions ++ ["left"%string] else actions in
  Ok actions.

(** The assignment
    [new_state[i+di][j+dj], new_state[i][j] = state[i][j], new_state[i+di][j+dj]]
    with [(i, j) = position]. *)
Definition exchange (s new_state : state) (position : option (Z * Z)) (di dj : Z)
    : res state :=
  p ← not_none position;
  v1 ← cell s (fst p) (snd p);
  v2 ← cell new_state (fst p + di) (snd p + dj);
  new_state ← set_cell new_state (fst p + di) (snd p + dj) v1;
  set_cell new_state (fst p) (snd p) v2.

Definition do_action (s : state) (action : string) : res state :=
  position ← find_position s 0;
  let new_state := s in
  new_state ← (if String.eqb action "up" then exchange s new_state position 1 0
               else Ok new_state);
  new_state ← (if String.eqb action "down" then exchange s new_state position (-1) 0
               else Ok new_state);
  new_state ← (if String.eqb action "left" then exchange s new_state position 0 1
               else Ok new_state);
  new_state ← (if String.eqb action "right" then exchange s new_state position 0 (-1)
               else Ok new_state);
  Ok new_state.

Definition is_goal (s : state) : res bool := Ok (bool_decide (s = expected_state)).

Definition action_cost (s : state) (action : string) : res Q := Ok 1%Q.

Definition heuristic (s : state) : res Q :=
  distance ← for_each (λ distance i,
    found ← find_position s i;
    let expected := (i / 3, i mod 3) in
    found ← not_none found;
    Ok (distance + (Z.abs (fst found - fst expected) + Z.abs (snd found - snd expected))))
    (range 9) 0;
  Ok (inject_Z distance / 2)%Q.

Definition problem : Problem state :=
  Build_Problem state ltb initial_state available_actions do_action is_goal
    action_cost heuristic.

(** [PuzzleProblem1] and [PuzzleProblem2] override [heuristic] only. *)
Definition heuristic1 (s : state) : res Q :=
  position ← find_position s 0;
  p ← not_none position;
  Ok (inject_Z (fst p + snd p)).

Definition heuristic2 (s : state) : res Q :=
  let expected := expected_state in
  distance ← for_each (λ distance i,
    for_each (λ distance j,
      v ← cell s i j;
      e ← cell expected i j;
      Ok (if negb (v =? e) then distance + 1 else distance)) (range 3) distance)
    (range 3) 0;
  Ok (inject_Z distance / 2)%Q.

Definition with_heuristic (h : state → res Q) : Problem state :=
  Build_Problem state ltb initial_state available_actions do_action is_goal
    action_cost h.

Definition problem1 : Problem state := with_heuristic heuristic1.
Definition problem2 : Problem state := with_heuristic heuristic2.

(** *** The states of the puzzle

    The nine cells of a grid in reading order, and the grids whose cells are
    the tiles [0..8] in some order. *)
Definition cells (s : state) : list Z :=
  let '((a, b, c), (d, e, f), (g, h, i)) := s in [a; b; c; d; e; f; g; h; i].

Definition of_cells (l : list Z) : state :=
  match l with
  | [a; b; c; d; e; f; g; h; i] => ((a, b, c), (d, e, f), (g, h, i))
  | _ => expected_state
  end.

Definition tiles : list Z := range 9.

Definition universe : list state := of_cells <$> permutations tiles.

(** What [find_position] returns, as one expression. *)
Definition locate (s : state) (num : Z) : option (Z * Z) :=
  let '((a, b, c), (d, e, f), (g, h, i)) := s in
  if a =? num then Some (0, 0) else if b =? num then Some (0, 1)
  else if c =? num then Some (0, 2) else if d =? num then Some (1, 0)
  else if e =? num then Some (1, 1) else if f =? num then Some (1, 2)
  else if g =? num then Some (2, 0) else if h =? num then Some (2, 1)
  else if i =? num then Some (2, 2) else None.

(** The distance between the cell [(i, j)] and the home of the tile [v]. *)
Definition distance (i j v : Z) : Z := Z.abs (i - v / 3) + Z.abs (j - v mod 3).

(** The sum that [heuristic] halves, cell by cell. *)
Definition total_distance (s : state) : Z :=
  let '((a, b, c), (d, e, f), (g, h, i)) := s in
  distance 0 0 a + distance 0 1 b + distance 0 2 c +
  distance 1 0 d + distance 1 1 e + distance 1 2 f +
  distance 2 0 g + distance 2 1 h + distance 2 2 i.

(** One if the cell [v] does not hold the tile [e]. *)
Definition off (v e : Z) : Z := if v =? e then 0 else 1.

(** The count that [heuristic2] halves. *)
Definition misplaced (s : state) : Z :=
  let '((a, b, c), (d, e, f), (g, h, i)) := s in
  off a 0 + off b 1 + off c 2 + off d 3 + off e 4 + off f 5 + off g 6 + off h 7 + off i 8.

(** The sum of the coordinates of the blank, which [heuristic1] returns. *)
Definition blank_distance (s : state) : Z :=
  match locate s 0 with
  | Some (i, j) => i + j
  | None => 0
  end.

(** The distance of the tile [v] from its home, where [find_position] finds
    it. *)
Definition home_distance (s : state) (v : Z) : Z :=
  match locate s v with
  | Some (i, j) => distance i j v
  | None => 0
  end.

Definition sum (l : list Z) : Z := foldr Z.add 0 l.

(** The cells are the nine tiles. *)
Definition good (s : state) : Prop := cells s ≡ₚ tiles.

(** The offsets that [do_action] adds to the position of the blank, action by
    action, and the action with the opposite offset. *)
Definition offset (action : string) : Z * Z :=
  if String.eqb action "up" then (1, 0)
  else if String.eqb action "down" then (-1, 0)
  else if String.eqb action "left" then (0, 1)
  else if String.eqb action "right" then (0, -1)
  else (0, 0).

Definition opposite (action : string) : string :=
  if String.eqb action "up" then "down"
  else if String.eqb action "down" then "up"
  else if String.eqb action "left" then "right"
  else if String.eqb action "right" then "left"
  else action.

(** The plan the searches of the notebook return. *)
Definition plan26 : list string :=
  ["right"; "down"; "left"; "up"; "left"; "up"; "right"; "right"; "down"; "left";
   "left"; "up"; "right"; "right"; "down"; "left"; "left"; "down"; "right"; "right";
   "up"; "left"; "left"; "down"; "right"; "right"]%string.
End Puzzle.

(** ** A state graph without a goal

    Two states, one action from the first to the second, and no goal. *)
Module DeadEnd.
Definition problem : Problem Z :=
  {| state_ltb := Z.ltb;
     initial_state := 0;
     available_actions := λ s, Ok (if s =? 0 then ["go"%string] else []);
     do_action := λ s a, Ok (s + 1);
     is_goal := λ s, Ok false;
     action_cost := λ s a, Ok 1%Q;
     heuristic := λ s, Ok 0%Q |}.
End DeadEnd.

(** ** A problem that starts in a goal

    The initial state is a goal, and asking for actions or applying one
    raises. *)
Module AtGoal.
Definition problem : Problem Z :=
  {| state_ltb := Z.ltb;
     initial_state := 0;
     available_actions := λ s, Raise (Exception "available_actions was called");
     do_action := λ s a, Raise (Exception "do_action was called");
     is_goal := λ s, Ok (s =? 0);
     action_cost := λ s a, Ok 1%Q;
     heuristic := λ s, Ok (inject_Z (Z.abs s)) |}.
End AtGoal.

(** ** A problem with float costs

    From the state 0 the actions [a] and [c] lead to the states 1 and 2, from
    where [b] and [d] lead to the goal 3.  The costs are the floats [1.0] and
    [2.0**53] along [a] and [b], and [2.0**53 - 1] and [1.0] along [c] and
    [d]; the heuristic is [0.0] everywhere. *)
Module Rounding.
Definition available_actions (s : Z) : res (list string) :=
  Ok (if s =? 0 then ["a"; "c"]%string else if s =? 1 then ["b"%string]
      else if s =? 2 then ["d"%string] else []).

Definition do_action (s : Z) (action : string) : res Z :=
  if String.eqb action "a" then Ok 1
  else if String.eqb action "b" then Ok 3
  else if String.eqb action "c" then Ok 2
  else if String.eqb action "d" then Ok 3
  else Raise (Exception "Invalid action").

Definition action_cost (s : Z) (action : string) : res Q :=
  if String.eqb action "b" then Ok (inject_Z (2 ^ 53))
  else if String.eqb action "c" then Ok (inject_Z (2 ^ 53 - 1))
  else Ok 1%Q.

Definition is_goal (s : Z) : res bool := Ok (s =? 3).

Definition heuristic (s : Z) : res Q := Ok 0%Q.

Definition problem : Problem Z :=
  Build_Problem Z Z.ltb 0 available_actions do_action is_goal action_cost heuristic.

Definition universe : list Z := [0; 1; 2; 3].
End Rounding.


(** ** Points of a search and properties of problems *)

Section Specification.
Context {State : Type} `{Countable State}.
Variable P : Problem State.

(** The variables of [astar] whenever the condition of the first loop is
    tested. *)
Definition at_head (v : vars State) : Prop :=
  ∃ h0, heuristic P (initial_state P) = Ok h0 ∧ loop_reach (iteration P) (start P h0 h0) v.

(** Inside the iteration that begins with the variables [v]: the state
    [curr_state] was taken from the queue with [curr_cost] read from the
    table, the actions [done] have been handled, [rest] are still to come and
    [st] is the queue and the table at that moment. *)
Definition expanding (v : vars State) (curr_state : State) (curr_cost : Q)
    (done rest : list string) (st : queue State * gmap State (record State)) : Prop :=
  ∃ current q r,
    q_get P (v_q v) = Some (current, q) ∧
    curr_state = snd current ∧
    v_revealed v !! curr_state = Some r ∧
    curr_cost = rec_g r ∧
    is_goal P curr_state = Ok false ∧
    available_actions P curr_state = Ok (done ++ rest) ∧
    for_actions P curr_state curr_cost done (q, v_revealed v) = Ok st.

(** Every queue and table that occur during a call of [astar]. *)
Definition search_point (q : queue State) (revealed : gmap State (record State)) : Prop :=
  (∃ v, at_head v ∧ q = v_q v ∧ revealed = v_revealed v) ∨
  (∃ v curr_state curr_cost done rest,
      at_head v ∧ expanding v curr_state curr_cost done rest (q, revealed)).

(** Every state of the queue has a record, whose [f] is at most the cost
    under which the state is queued. *)
Definition queue_recorded (q : queue State) (rv : gmap State (record State)) : Prop :=
  ∀ k s, (k, s) ∈ PriorityQueue.elements q →
    ∃ r, rv !! s = Some r ∧ (rec_f r <= k)%Q.

(** The variables after [n] passes of the first loop, none of which leaves
    the loop. *)
Fixpoint passes (n : nat) (v : vars State) : res (vars State) :=
  match n with
  | O => Ok v
  | S n' =>
      v' ← passes n' v;
      c ← iteration P v';
      match c with
      | Continue v'' => Ok v''
      | Break _ => Raise (Exception "the loop has ended")
      end
  end.

(** Python's [<] orders the states: no state is below itself, the relation
    is transitive, and of two different states one is below the other.  The
    queue needs it to compare two entries of equal cost. *)
Definition ordered_states : Prop :=
  (∀ s, state_ltb P s s = false) ∧
  (∀ s t u, state_ltb P s t = true → state_ltb P t u = true → state_ltb P s u = true) ∧
  (∀ s t, s ≠ t → state_ltb P s t = true ∨ state_ltb P t s = true).

(** Two problems whose methods return the same on every argument. *)
Definition same_behaviour (P' : Problem State) : Prop :=
  initial_state P = initial_state P' ∧
  (∀ s t, state_ltb P s t = state_ltb P' s t) ∧
  (∀ s, available_actions P s = available_actions P' s) ∧
  (∀ s a, do_action P s a = do_action P' s a) ∧
  (∀ s, is_goal P s = is_goal P' s) ∧
  (∀ s a, action_cost P s a = action_cost P' s a) ∧
  (∀ s, heuristic P s = heuristic P' s).

Definition nonneg_costs : Prop :=
  ∀ s a c, action_cost P s a = Ok c → (0 <= c)%Q.

Definition nonneg_heuristic : Prop :=
  ∀ s h, heuristic P s = Ok h → (0 <= h)%Q.

(** The heuristic never exceeds the cost of a plan that leads to a goal. *)
Definition admissible : Prop :=
  ∀ s h plan t total,
    heuristic P s = Ok h → run_plan P s plan = Ok (t, total) → is_goal P t = Ok true →
    (h <= total)%Q.

(** The same on the states of a list [univ] only. *)
Definition nonneg_heuristic_on (univ : list State) : Prop :=
  ∀ s h, s ∈ univ → heuristic P s = Ok h → (0 <= h)%Q.

Definition admissible_on (univ : list State) : Prop :=
  ∀ s h plan t total,
    s ∈ univ →
    heuristic P s = Ok h → run_plan P s plan = Ok (t, total) → is_goal P t = Ok true →
    (h <= total)%Q.

Definition consistent : Prop :=
  ∀ s possible a s' c h h',
    available_actions P s = Ok possible → a ∈ possible →
    do_action P s a = Ok s' → action_cost P s a = Ok c →
    heuristic P s = Ok h → heuristic P s' = Ok h' →
    (h <= c + h')%Q.

(** [univ] lists the initial state and is closed under the available
    actions, and the methods of the problem return on its states. *)
Definition closed_universe (univ : list State) : Prop :=
  initial_state P ∈ univ ∧
  ∀ s, s ∈ univ →
    (∃ b, is_goal P s = Ok b) ∧
    (∃ h, heuristic P s = Ok h) ∧
    ∃ possible, available_actions P s = Ok possible ∧
      ∀ a, a ∈ possible →
        (∃ c, action_cost P s a = Ok c) ∧ ∃ s', do_action P s a = Ok s' ∧ s' ∈ univ.

Definition goal_reachable : Prop :=
  ∃ plan t total, run_plan P (initial_state P) plan = Ok (t, total) ∧ is_goal P t = Ok true.

(** *** Invariants of the table *)

(** Each record carries [f = g + h], and its predecessor and action lead to
    its state; only the initial state can have no predecessor. *)
Definition table_sound (revealed : gmap State (record State)) : Prop :=
  ∀ s r, revealed !! s = Some r →
    (∃ h, heuristic P s = Ok h ∧ rec_f r == rec_g r + h)%Q ∧
    match rec_pred r with
    | None => s = initial_state P
    | Some p =>
        ∃ possible c,
          available_actions P p = Ok possible ∧ rec_action r ∈ possible ∧
          do_action P p (rec_action r) = Ok s ∧ action_cost P p (rec_action r) = Ok c
    end.

(** The states passed when the predecessors are followed from [s] up to a
    record without predecessor. *)
Inductive chain (revealed : gmap State (record State)) : State → list State → Prop :=
| chain_root s r :
    revealed !! s = Some r → rec_pred r = None → chain revealed s []
| chain_step s r p l :
    revealed !! s = Some r → rec_pred r = Some p → chain revealed p l →
    chain revealed s (p :: l).

(** With costs that are not negative: the record of the initial state is
    the one written at the start, no [g] is negative, [g] does not decrease
    along a predecessor, and the predecessors of every state end. *)
Definition table_rooted (revealed : gmap State (record State)) : Prop :=
  (∃ r0, revealed !! initial_state P = Some r0 ∧ rec_pred r0 = None ∧ rec_g r0 == 0)%Q ∧
  ∀ s r, revealed !! s = Some r →
    (0 <= rec_g r)%Q ∧
    (∀ p, rec_pred r = Some p →
       ∃ rp c, revealed !! p = Some rp ∧ action_cost P p (rec_action r) = Ok c ∧
               (rec_g rp + c <= rec_g r)%Q) ∧
    ∃ l, chain revealed s l.

(** Inside an iteration the record of the current state stays the one from
    which [curr_cost] was read. *)
Definition rooted_inside (cs : State) (cc : Q) (revealed : gmap State (record State)) : Prop :=
  table_rooted revealed ∧ ∃ r, revealed !! cs = Some r ∧ (rec_g r == cc)%Q.

(** *** The measure of the first loop *)

Section Universe.
Variable univ : list State.

Definition alphabet : list string :=
  flat_map (λ s, match available_actions P s with Ok l => l | _ => [] end) univ.

(** All lists of at most [n] actions of the alphabet. *)
Fixpoint words (n : nat) : list (list string) :=
  match n with
  | O => [[]]
  | S n' => [] :: flat_map (λ a, cons a <$> words n') alphabet
  end.

(** The plan [w] reaches a state at a cost below the recorded one, or a
    state that has no record. *)
Definition improving (revealed : gmap State (record State)) (w : list string) : bool :=
  match run_plan P (initial_state P) w with
  | Ok (s, c) =>
      match revealed !! s with
      | None => true
      | Some r => negb (Qle_bool (rec_g r) c)
      end
  | _ => false
  end.

Definition potential (revealed : gmap State (record State)) : nat :=
  length (filter (λ w, improving revealed w = true) (words (length univ))).

Definition measure (q : queue State) (revealed : gmap State (record State)) : nat :=
  (potential revealed + length (PriorityQueue.elements q))%nat.

(** A walk from the initial state to [s] of cost [g] that passes no state
    twice and whose states are all recorded at no more than the cost at which
    the walk reaches them. *)
Inductive walk (revealed : gmap State (record State)) : list State → list string → State → Q → Prop :=
| walk_start r :
    revealed !! initial_state P = Some r → (rec_g r <= 0)%Q →
    walk revealed [] [] (initial_state P) 0%Q
| walk_snoc vis plan p gp a s c possible r :
    walk revealed vis plan p gp →
    available_actions P p = Ok possible → a ∈ possible →
    do_action P p a = Ok s → action_cost P p a = Ok c →
    s ∉ p :: vis →
    revealed !! s = Some r → (rec_g r <= gp + c)%Q →
    walk revealed (p :: vis) (plan ++ [a]) s (gp + c)%Q.

Definition cost_le (a b : entry State) : Prop := (fst a <= fst b)%Q.

(** The state [s] with record [r] still has an entry in the queue at its
    recorded [f]. *)
Definition pending (q : queue State) (s : State) (r : record State) : Prop :=
  ∃ k, (k, s) ∈ PriorityQueue.elements q ∧ (k <= rec_f r)%Q.

(** The successor of [s] by [a] is recorded at no more than [g + c]. *)
Definition relaxed (revealed : gmap State (record State)) (s : State) (g : Q) (a : string) : Prop :=
  ∃ s' c r', do_action P s a = Ok s' ∧ action_cost P s a = Ok c ∧
             revealed !! s' = Some r' ∧ (rec_g r' <= g + c)%Q.

Definition settled (revealed : gmap State (record State)) (s : State) (r : record State) : Prop :=
  is_goal P s = Ok false ∧
  ∀ possible a, available_actions P s = Ok possible → a ∈ possible →
    relaxed revealed s (rec_g r) a.

(** What the proof of termination and optimality keeps about a queue and a
    table. *)
Record frontier_ok (q : queue State) (revealed : gmap State (record State)) : Prop := {
  fo_univ : ∀ s, is_Some (revealed !! s) → s ∈ univ;
  fo_walk : ∀ s r, revealed !! s = Some r →
    ∃ vis plan g, walk revealed vis plan s g ∧ (g == rec_g r)%Q;
  fo_queue : ∀ k s, (k, s) ∈ PriorityQueue.elements q →
    ∃ r, revealed !! s = Some r ∧ (rec_f r <= k)%Q;
  fo_ordered : PriorityQueue.ordered cost_le q;
}.

Definition covered (q : queue State) (revealed : gmap State (record State)) (s : State) : Prop :=
  ∀ r, revealed !! s = Some r → pending q s r ∨ settled revealed s r.

(** At the head of the loop every recorded state is pending or settled. *)
Definition frontier_head (v : vars State) : Prop :=
  frontier_ok (v_q v) (v_revealed v) ∧ ∀ s, covered (v_q v) (v_revealed v) s.

(** Inside the iteration that began with [v]: the current state has a walk
    of cost [curr_cost], every other state is pending or settled, the
    actions handled so far are relaxed, and the measure is below the one at
    the head. *)
Record frontier_inside (v : vars State) (curr_state : State) (curr_cost : Q)
    (done : list string) (st : queue State * gmap State (record State)) : Prop := {
  fi_ok : frontier_ok st.1 st.2;
  fi_walk : ∃ vis plan g, walk st.2 vis plan curr_state g ∧ (g == curr_cost)%Q;
  fi_covered : ∀ s, s ≠ curr_state → covered st.1 st.2 s;
  fi_done : ∀ a, a ∈ done → relaxed st.2 curr_state curr_cost a;
  fi_measure : (measure st.1 st.2 < measure (v_q v) (v_revealed v))%nat;
}.
End Universe.
End Specification.

(** The search in the vacuum world when the condition of the first loop is
    tested for the [n]-th time after the first. *)
Definition vacuum_head (n : nat) : vars Vacuum.state :=
  let v0 := start Vacuum.problem (inject_Z 2) (inject_Z 2) in
  match passes Vacuum.problem n v0 with
  | Ok v => v
  | _ => v0
  end.

(** * Proofs *)

(** ** Outcomes and loops *)

Lemma bind_Ok {A B : Type} (m : res A) (k : A → res B) (b : B) :
  m ≫= k = Ok b → ∃ a, m = Ok a ∧ k a = Ok b.
Proof. destruct m; cbn; [eauto | discriminate..]. Qed.

Ltac bind_inv H :=
  let a := fresh "a" in
  let E := fresh "E" in
  apply bind_Ok in H; destruct H as (a & E & H).

Lemma for_each_app {A B : Type} (f : B → A → res B) (l1 l2 : list A) (acc : B) :
  for_each f (l1 ++ l2) acc = for_each f l1 acc ≫= for_each f l2.
Proof.
  revert acc. induction l1 as [|x l1 IH]; intros acc; cbn; [done|].
  destruct (f acc x); cbn; auto.
Qed.

Section WhileLemmas.
Context {S R : Type} (body : S → res (control S R)).

Lemma while_stuck (n : N) (o : res (control S R)) :
  (∀ s, o ≠ Ok (Continue s)) → N.iter n (while_step body) o = o.
Proof.
  intros Ho. induction n as [|n IH] using N.peano_ind; [done|].
  rewrite N.iter_succ, IH. destruct o as [[s|r]| |]; try done.
  by destruct (Ho s).
Qed.

Lemma while_zero (s : S) : while body 0 s = OutOfFuel.
Proof. done. Qed.

Lemma while_succ (n : N) (s : S) :
  while body (N.succ n) s =
  match body s with
  | Ok (Continue s') => while body n s'
  | Ok (Break r) => Ok r
  | Raise e => Raise e
  | OutOfFuel => OutOfFuel
  end.
Proof.
  unfold while. rewrite N.iter_succ_r. cbn.
  destruct (body s) as [[s'|r]|e|] eqn:E; [done|..]; by rewrite while_stuck.
Qed.

(** More fuel does not change the result of a loop that ended. *)
Lemma while_mono (n m : N) (s : S) (r : R) :
  while body n s = Ok r → (n ≤ m)%N → while body m s = Ok r.
Proof.
  revert m s. induction n as [|n IH] using N.peano_ind; intros m s Hw Hle.
  - by rewrite while_zero in Hw.
  - replace m with (N.succ (N.pred m)) by lia.
    rewrite while_succ in Hw |- *.
    destruct (body s) as [[s'|r']|e|]; try done.
    apply IH; [done | lia].
Qed.

Lemma while_deterministic (n m : N) (s : S) (r r' : R) :
  while body n s = Ok r → while body m s = Ok r' → r = r'.
Proof.
  intros Hn Hm. destruct (N.le_ge_cases n m) as [Hle|Hle].
  - apply (while_mono _ _ _ _ Hn) in Hle. congruence.
  - apply (while_mono _ _ _ _ Hm) in Hle. congruence.
Qed.

(** A loop that ended did so in a state it reached. *)
Lemma while_result (n : N) (s : S) (r : R) :
  while body n s = Ok r → ∃ s', loop_reach body s s' ∧ body s' = Ok (Break r).
Proof.
  revert s. induction n as [|n IH] using N.peano_ind; intros s Hw.
  - by rewrite while_zero in Hw.
  - rewrite while_succ in Hw.
    destruct (body s) as [[s'|r']|e|] eqn:E; try done.
    + destruct (IH _ Hw) as (s'' & Hreach & Hb). exists s''. split; [|done].
      clear -E Hreach. induction Hreach; [eapply reach_next; [apply reach_start|done]|].
      eapply reach_next; eauto.
    + exists s. split; [apply reach_start | congruence].
Qed.

Lemma loop_reach_invariant (Inv : S → Prop) (s0 s : S) :
  Inv s0 → (∀ s s', Inv s → body s = Ok (Continue s') → Inv s') →
  loop_reach body s0 s → Inv s.
Proof. intros H0 Hstep Hreach. induction Hreach; eauto. Qed.

Lemma loop_reach_trans (s0 s1 s2 : S) :
  loop_reach body s0 s1 → loop_reach body s1 s2 → loop_reach body s0 s2.
Proof. intros H1 H2. induction H2; [done|]. eapply reach_next; eauto. Qed.

(** A loop whose body lowers a measure ends. *)
Lemma while_terminates (Inv : S → Prop) (mu : S → nat) :
  (∀ s, Inv s →
     (∃ r, body s = Ok (Break r)) ∨
     (∃ s', body s = Ok (Continue s') ∧ Inv s' ∧ (mu s' < mu s)%nat)) →
  ∀ (fuel : N) (s : S), Inv s → (N.of_nat (mu s) < fuel)%N → ∃ r, while body fuel s = Ok r.
Proof.
  intros Hbody fuel. induction fuel as [|n IH] using N.peano_ind; intros s HI Hlt; [lia|].
  rewrite while_succ.
  destruct (Hbody s HI) as [[r ->]|(s' & -> & HI' & Hmu)]; [eauto|].
  apply IH; [done | lia].
Qed.
End WhileLemmas.

(** ** The priority queue *)

Section HeapLemmas.
Import PriorityQueue.
Context {E : Type} (ltb : E → E → bool).

Lemma elements_make (x : E) (a b : heap E) :
  elements (make x a b) ≡ₚ x :: elements a ++ elements b.
Proof.
  unfold make. destruct (rank a <? rank b)%nat; cbn; [|done].
  by rewrite (comm app).
Qed.

Lemma merge_Node (ka kb : nat) (x y : E) (l r l' r' : heap E) :
  merge ltb (Node ka x l r) (Node kb y l' r') =
  if ltb y x then make y l' (merge ltb (Node ka x l r) r')
  else make x l (merge ltb r (Node kb y l' r')).
Proof. done. Qed.

Lemma elements_merge (a b : heap E) :
  elements (merge ltb a b) ≡ₚ elements a ++ elements b.
Proof.
  revert b. induction a as [|ka x l IHl r IHr]; intros b; [done|].
  induction b as [|kb y l' IHl' r' IHr'].
  - cbn. by rewrite app_nil_r.
  - rewrite merge_Node. destruct (ltb y x).
    + rewrite elements_make, IHr'.
      change (elements (Node kb y l' r')) with (y :: elements l' ++ elements r').
      etransitivity; [|apply Permutation_middle].
      constructor. apply Permutation_app_swap_app.
    + rewrite elements_make, IHr. cbn. constructor. by rewrite <-(assoc app).
Qed.

Lemma elements_put (x : E) (h : heap E) : elements (put ltb x h) ≡ₚ x :: elements h.
Proof. unfold put. by rewrite elements_merge. Qed.

Lemma elements_get (h h' : heap E) (x : E) :
  get ltb h = Some (x, h') → elements h ≡ₚ x :: elements h'.
Proof.
  destruct h as [|k y l r]; [done|]. cbn. intros [= -> <-].
  by rewrite elements_merge.
Qed.

Lemma get_None (h : heap E) : get ltb h = None → elements h = [].
Proof. by destruct h. Qed.

Section Ordered.
Variable R : E → E → Prop.
Hypothesis R_trans : ∀ x y z, R x y → R y z → R x z.
Hypothesis ltb_true : ∀ x y, ltb y x = true → R y x.
Hypothesis ltb_false : ∀ x y, ltb y x = false → R x y.

Lemma ordered_make (x : E) (a b : heap E) :
  Forall (R x) (elements a) → Forall (R x) (elements b) → ordered R a → ordered R b →
  ordered R (make x a b).
Proof. unfold make. destruct (rank a <? rank b)%nat; cbn; auto. Qed.

Lemma ordered_merge (a b : heap E) :
  ordered R a → ordered R b → ordered R (merge ltb a b).
Proof.
  revert b. induction a as [|ka x l IHl r IHr]; intros b Ha Hb; [done|].
  induction b as [|kb y l' IHl' r' IHr']; [done|].
  rewrite merge_Node.
  destruct Ha as (Hxl & Hxr & Hl & Hr). destruct Hb as (Hyl & Hyr & Hl' & Hr').
  destruct (ltb y x) eqn:Hlt.
  - apply ordered_make; [done| |done|].
    + rewrite elements_merge. apply Forall_app. split; [|done].
      cbn. apply ltb_true in Hlt. constructor; [done|].
      apply Forall_app. split; eapply Forall_impl; eauto.
    + apply IHr'. done.
  - apply ordered_make; [done| |done|].
    + rewrite elements_merge. apply Forall_app. split; [done|].
      cbn. apply ltb_false in Hlt. constructor; [done|].
      apply Forall_app. split; eapply Forall_impl; eauto.
    + apply IHr; [done|]. cbn. done.
Qed.

Lemma ordered_put (x : E) (h : heap E) : ordered R h → ordered R (put ltb x h).
Proof. intros Hh. apply ordered_merge; [|done]. cbn. auto. Qed.

Lemma ordered_get (h h' : heap E) (x : E) :
  ordered R h → get ltb h = Some (x, h') →
  ordered R h' ∧ Forall (R x) (elements h').
Proof.
  destruct h as [|k y l r]; [done|]. cbn. intros (Hl & Hr & Hol & Hor) [= -> <-].
  split; [by apply ordered_merge|].
  rewrite elements_merge. by apply Forall_app.
Qed.
End Ordered.
End HeapLemmas.

(** ** The steps of the search *)

Section SearchLemmas.
Context {State : Type} `{Countable State}.
Variable P : Problem State.

Lemma relax_Ok cs cc q rv p q' rv' :
  relax P cs cc (q, rv) p = Ok (q', rv') →
  ∃ ns c h,
    do_action P cs p = Ok ns ∧ action_cost P cs p = Ok c ∧ heuristic P ns = Ok h ∧
    ((∃ r, rv !! ns = Some r ∧ (rec_f r <= c + cc + h)%Q ∧ q' = q ∧ rv' = rv) ∨
     ((∀ r, rv !! ns = Some r → (c + cc + h < rec_f r)%Q) ∧
      q' = q_put P ((c + cc + h)%Q, ns) q ∧
      rv' = <[ns := Rec (Some cs) p (c + cc + h)%Q (c + cc)%Q]> rv)).
Proof.
  unfold relax_with. intros Hr.
  bind_inv Hr. rename a into ns. bind_inv Hr. rename a into c.
  bind_inv Hr. rename a into h.
  exists ns, c, h. repeat split; try done.
  destruct (rv !! ns) as [r|] eqn:Hns.
  - destruct (Qle_bool (rec_f r) (c + cc + h)) eqn:Hle.
    + left. exists r. apply Qle_bool_iff in Hle. by injection Hr as <- <-.
    + right. injection Hr as <- <-. repeat split; try done.
      intros r' [= <-]. apply Qnot_le_lt. intros Hle'.
      apply Qle_bool_iff in Hle'. congruence.
  - right. injection Hr as <- <-. repeat split; done.
Qed.

Lemma iteration_Continue v v' :
  iteration P v = Ok (Continue v') →
  ∃ current q r possible q' rv',
    q_get P (v_q v) = Some (current, q) ∧
    v_revealed v !! snd current = Some r ∧
    is_goal P (snd current) = Ok false ∧
    available_actions P (snd current) = Ok possible ∧
    for_actions P (snd current) (rec_g r) possible (q, v_revealed v) = Ok (q', rv') ∧
    v' = Vars q' rv' (N.succ (v_x v)) (Some (snd current)).
Proof.
  unfold iteration_with. destruct (q_get P (v_q v)) as [[current q]|]; [|done].
  intros Hi. bind_inv Hi. rename a into r. bind_inv Hi. destruct a; [done|].
  bind_inv Hi. rename a into possible. bind_inv Hi. destruct a as [q' rv'].
  injection Hi as <-. exists current, q, r, possible, q', rv'.
  repeat split; try done.
  unfold subscript in E. by destruct (v_revealed v !! snd current) as [r'|]; simplify_eq.
Qed.

Lemma iteration_Break v v' :
  iteration P v = Ok (Break v') →
  (q_get P (v_q v) = None ∧ v' = v) ∨
  (∃ current q r,
     q_get P (v_q v) = Some (current, q) ∧
     v_revealed v !! snd current = Some r ∧
     is_goal P (snd current) = Ok true ∧
     v' = Vars q (v_revealed v) (N.succ (v_x v)) (Some (snd current))).
Proof.
  unfold iteration_with. destruct (q_get P (v_q v)) as [[current q]|].
  - intros Hi. right. bind_inv Hi. rename a into r. bind_inv Hi. destruct a.
    + injection Hi as <-. exists current, q, r. repeat split; try done.
      unfold subscript in E.
      by destruct (v_revealed v !! snd current) as [r'|]; simplify_eq.
    + bind_inv Hi. bind_inv Hi. by destruct a0.
  - intros [= <-]. by left.
Qed.

Lemma expanding_start v current q r possible :
  q_get P (v_q v) = Some (current, q) →
  v_revealed v !! snd current = Some r →
  is_goal P (snd current) = Ok false →
  available_actions P (snd current) = Ok possible →
  expanding P v (snd current) (rec_g r) [] possible (q, v_revealed v).
Proof. intros. exists current, q, r. repeat split; done. Qed.

Lemma expanding_step v cs cc done p rest st st' :
  expanding P v cs cc done (p :: rest) st → relax P cs cc st p = Ok st' →
  expanding P v cs cc (done ++ [p]) rest st'.
Proof.
  intros (current & q & r & Hget & -> & Hr & -> & Hgoal & Hav & Hfor) Hrelax.
  exists current, q, r. repeat split; try done.
  - by rewrite <-(assoc app).
  - unfold for_actions_with in *. rewrite for_each_app, Hfor. cbn. by rewrite Hrelax.
Qed.

Lemma expanding_snoc v cs cc done p rest st :
  expanding P v cs cc (done ++ [p]) rest st →
  ∃ st0, expanding P v cs cc done (p :: rest) st0 ∧ relax P cs cc st0 p = Ok st.
Proof.
  intros (current & q & r & Hget & -> & Hr & -> & Hgoal & Hav & Hfor).
  unfold for_actions_with in Hfor. rewrite for_each_app in Hfor.
  bind_inv Hfor. rename a into st0. exists st0. split.
  - exists current, q, r. repeat split; try done. by rewrite <-(assoc app) in Hav.
  - cbn in Hfor. by destruct (relax P (snd current) (rec_g r) st0 p).
Qed.

Lemma expanding_finish v cs cc possible q rv :
  expanding P v cs cc possible [] (q, rv) →
  iteration P v = Ok (Continue (Vars q rv (N.succ (v_x v)) (Some cs))).
Proof.
  intros (current & q0 & r & Hget & -> & Hr & -> & Hgoal & Hav & Hfor).
  unfold iteration_with. rewrite Hget. unfold subscript. rewrite Hr. cbn.
  rewrite Hgoal. cbn. rewrite app_nil_r in Hav. rewrite Hav. cbn. by rewrite Hfor.
Qed.

Lemma at_head_next v v' :
  at_head P v → iteration P v = Ok (Continue v') → at_head P v'.
Proof. intros (h0 & Hh & Hreach) Hi. exists h0. split; [done|]. eapply reach_next; eauto. Qed.

(** Induction over the points of a search: a property of the variables at
    the head of the loop together with a property of the points inside an
    iteration. *)
Section PointInduction.
Variable PH : vars State → Prop.
Variable PE : vars State → State → Q → list string → list string →
              queue State * gmap State (record State) → Prop.

Hypothesis H_start : ∀ h0, heuristic P (initial_state P) = Ok h0 → PH (start P h0 h0).
Hypothesis H_pop : ∀ v current q r possible,
  at_head P v → PH v →
  q_get P (v_q v) = Some (current, q) →
  v_revealed v !! snd current = Some r →
  is_goal P (snd current) = Ok false →
  available_actions P (snd current) = Ok possible →
  PE v (snd current) (rec_g r) [] possible (q, v_revealed v).
Hypothesis H_relax : ∀ v cs cc done p rest st st',
  at_head P v → PH v →
  expanding P v cs cc done (p :: rest) st → PE v cs cc done (p :: rest) st →
  relax P cs cc st p = Ok st' →
  PE v cs cc (done ++ [p]) rest st'.
Hypothesis H_next : ∀ v cs cc possible q rv,
  at_head P v → PH v →
  expanding P v cs cc possible [] (q, rv) → PE v cs cc possible [] (q, rv) →
  PH (Vars q rv (N.succ (v_x v)) (Some cs)).

Lemma expanding_ind v cs cc done rest st :
  at_head P v → PH v → expanding P v cs cc done rest st → PE v cs cc done rest st.
Proof.
  intros Hhead HPH. revert rest st.
  induction done as [|p done IH] using rev_ind; intros rest st Hexp.
  - pose proof Hexp as (current & q & r & Hget & -> & Hr & -> & Hgoal & Hav & Hfor).
    cbn in Hfor. injection Hfor as <-. by apply H_pop.
  - destruct (expanding_snoc _ _ _ _ _ _ _ Hexp) as (st0 & Hexp0 & Hrelax).
    eapply H_relax; eauto.
Qed.

Lemma at_head_ind v : at_head P v → PH v.
Proof.
  intros (h0 & Hh & Hreach).
  induction Hreach as [|v v' Hreach IH Hi]; [by apply H_start|].
  assert (at_head P v) as Hhead by (by exists h0).
  destruct (iteration_Continue _ _ Hi)
    as (current & q & r & possible & q' & rv' & Hget & Hr & Hgoal & Hav & Hfor & ->).
  assert (expanding P v (snd current) (rec_g r) possible [] (q', rv')) as Hexp.
  { exists current, q, r. rewrite app_nil_r. repeat split; done. }
  eapply H_next; eauto. by apply expanding_ind.
Qed.
End PointInduction.
End SearchLemmas.

(** ** Plans *)

Section PlanLemmas.
Context {State : Type} `{Countable State}.
Variable P : Problem State.

Lemma run_plan_cons s a rest t total :
  run_plan P s (a :: rest) = Ok (t, total) →
  ∃ possible s' c total',
    available_actions P s = Ok possible ∧ a ∈ possible ∧
    do_action P s a = Ok s' ∧ action_cost P s a = Ok c ∧
    run_plan P s' rest = Ok (t, total') ∧ total = (c + total')%Q.
Proof.
  cbn. intros Hr. bind_inv Hr. rename a0 into possible.
  case_bool_decide; [|done].
  bind_inv Hr. rename a0 into s'. bind_inv Hr. rename a0 into c.
  bind_inv Hr. destruct a0 as [t' total']. injection Hr as <- <-.
  exists possible, s', c, total'. repeat split; done.
Qed.

Lemma run_plan_step s a rest possible s' c t total :
  available_actions P s = Ok possible → a ∈ possible →
  do_action P s a = Ok s' → action_cost P s a = Ok c →
  run_plan P s' rest = Ok (t, total) →
  run_plan P s (a :: rest) = Ok (t, (c + total)%Q).
Proof.
  intros Hav Hin Hdo Hc Hrest. cbn. rewrite Hav. cbn.
  rewrite bool_decide_eq_true_2 by done. rewrite Hdo. cbn. rewrite Hc. cbn.
  by rewrite Hrest.
Qed.

Lemma run_plan_app s plan1 plan2 m c1 t c2 :
  run_plan P s plan1 = Ok (m, c1) → run_plan P m plan2 = Ok (t, c2) →
  ∃ c, run_plan P s (plan1 ++ plan2) = Ok (t, c) ∧ (c == c1 + c2)%Q.
Proof.
  revert s c1. induction plan1 as [|a plan1 IH]; intros s c1 H1 H2.
  - injection H1 as <- <-. exists c2. split; [done|]. lra.
  - apply run_plan_cons in H1
      as (possible & s' & c & total' & Hav & Hin & Hdo & Hc & Hrest & ->).
    destruct (IH _ _ Hrest H2) as (c' & Hrun & Hc').
    exists (c + c')%Q. split; [|lra].
    rewrite <-app_comm_cons. by eapply run_plan_step.
Qed.

Lemma run_plan_snoc s plan p total a possible s' c :
  run_plan P s plan = Ok (p, total) →
  available_actions P p = Ok possible → a ∈ possible →
  do_action P p a = Ok s' → action_cost P p a = Ok c →
  ∃ total', run_plan P s (plan ++ [a]) = Ok (s', total') ∧ (total' == total + c)%Q.
Proof.
  intros Hrun Hav Hin Hdo Hc.
  assert (run_plan P p [a] = Ok (s', (c + 0)%Q)) as Hone by (by eapply run_plan_step).
  destruct (run_plan_app _ _ _ _ _ _ _ Hrun Hone) as (total' & Hrun' & Heq).
  exists total'. split; [done|]. lra.
Qed.

Lemma run_plan_nonneg s plan t total :
  nonneg_costs P → run_plan P s plan = Ok (t, total) → (0 <= total)%Q.
Proof.
  intros Hnn. revert s total. induction plan as [|a plan IH]; intros s total Hrun.
  - injection Hrun as <- <-. lra.
  - apply run_plan_cons in Hrun
      as (possible & s' & c & total' & Hav & Hin & Hdo & Hc & Hrest & ->).
    apply Hnn in Hc. apply IH in Hrest. lra.
Qed.
End PlanLemmas.

(** ** The table of a search is sound *)

Section SoundLemmas.
Context {State : Type} `{Countable State}.
Variable P : Problem State.

Lemma relax_table_sound cs cc possible p q rv q' rv' :
  table_sound P rv →
  available_actions P cs = Ok possible → p ∈ possible →
  relax P cs cc (q, rv) p = Ok (q', rv') →
  table_sound P rv'.
Proof.
  intros Hs Hav Hin Hrelax.
  apply relax_Ok in Hrelax as (ns & c & h & Hdo & Hc & Hh & [(r & _ & _ & _ & ->)|(_ & _ & ->)]);
    [done|].
  intros s r. destruct (decide (s = ns)) as [->|Hne].
  - rewrite lookup_insert_eq. intros [= <-]. cbn. split.
    + exists h. split; [done|]. lra.
    + by exists possible, c.
  - rewrite lookup_insert_ne by done. apply Hs.
Qed.

Lemma start_table_sound h0 :
  heuristic P (initial_state P) = Ok h0 → table_sound P (v_revealed (start P h0 h0)).
Proof.
  intros Hh s r. cbn. intros [<- <-]%lookup_singleton_Some. cbn. split; [|done].
  exists h0. split; [done|]. lra.
Qed.

Lemma expanding_available v cs cc done rest st :
  expanding P v cs cc done rest st → available_actions P cs = Ok (done ++ rest).
Proof. by intros (current & q & r & Hget & -> & Hr & -> & Hgoal & Hav & Hfor). Qed.

Lemma table_sound_head v : at_head P v → table_sound P (v_revealed v).
Proof.
  apply (at_head_ind P (λ v, table_sound P (v_revealed v)) (λ _ _ _ _ _ st, table_sound P st.2)).
  - apply start_table_sound.
  - done.
  - intros v0 cs cc done p rest [q rv] [q' rv'] _ _ Hexp Hs Hrelax. cbn in *.
    eapply relax_table_sound; [done| |  |done].
    + by eapply expanding_available.
    + set_solver.
  - done.
Qed.

Lemma table_sound_expanding v cs cc done rest st :
  at_head P v → expanding P v cs cc done rest st → table_sound P st.2.
Proof.
  intros Hhead Hexp.
  apply (expanding_ind P (λ v, table_sound P (v_revealed v))
           (λ _ _ _ _ _ st, table_sound P st.2)) with v cs cc done rest;
    [..|done|by apply table_sound_head|done].
  - done.
  - intros v0 cs0 cc0 done0 p rest0 [q rv] [q' rv'] _ _ Hexp0 Hs Hrelax. cbn in *.
    eapply relax_table_sound; [done| |  |done].
    + by eapply expanding_available.
    + set_solver.
Qed.

Lemma table_sound_point q rv : search_point P q rv → table_sound P rv.
Proof.
  intros [(v & Hhead & -> & ->)|(v & cs & cc & done & rest & Hhead & Hexp)].
  - by apply table_sound_head.
  - by apply (table_sound_expanding _ _ _ _ _ _ Hhead Hexp).
Qed.

(** *** The end of the first loop *)

Lemma search_Ok fuel v :
  search P fuel = Ok v →
  ∃ v0, at_head P v0 ∧ iteration P v0 = Ok (Break v).
Proof.
  unfold search_with. intros Hs. bind_inv Hs. rename a into h0. bind_inv Hs.
  assert (a = h0) as -> by congruence.
  apply while_result in Hs as (v0 & Hreach & Hb).
  exists v0. split; [|done]. by exists h0.
Qed.

Lemma search_revealed fuel v :
  search P fuel = Ok v → ∃ v0, at_head P v0 ∧ v_revealed v = v_revealed v0.
Proof.
  intros (v0 & Hhead & Hb)%search_Ok. exists v0. split; [done|].
  apply iteration_Break in Hb as [[_ ->]|(current & q & r & _ & _ & _ & ->)]; done.
Qed.

Lemma search_deterministic fuel fuel' v v' :
  search P fuel = Ok v → search P fuel' = Ok v' → v = v'.
Proof.
  unfold search_with. intros Hs Hs'. bind_inv Hs. bind_inv Hs. bind_inv Hs'. bind_inv Hs'.
  rewrite E in E0, E1, E2. simplify_eq. exact (while_deterministic _ _ _ _ _ _ Hs Hs').
Qed.

Lemma search_mono fuel fuel' v :
  search P fuel = Ok v → (fuel ≤ fuel')%N → search P fuel' = Ok v.
Proof.
  unfold search_with. cbv zeta. intros Hs Hle. bind_inv Hs. bind_inv Hs. rewrite E. cbn.
  assert (a0 = a) as -> by congruence.
  by eapply while_mono.
Qed.

Lemma astar_Ok fuel rep :
  astar P fuel = Ok rep →
  ∃ v cs sol,
    search P fuel = Ok v ∧ v_curr_state v = Some cs ∧
    reconstruct fuel (v_revealed v) cs = Ok sol ∧
    rep = Report (rev sol) (v_x v) (N.of_nat (size (v_revealed v))).
Proof.
  unfold astar_with. intros Ha. bind_inv Ha. rename a into v. bind_inv Ha. rename a into cs.
  bind_inv Ha. rename a into sol. injection Ha as <-.
  exists v, cs, sol. repeat split; try done.
  destruct (v_curr_state v); cbn in *; by simplify_eq.
Qed.

Lemma astar_intro fuel v cs sol :
  search P fuel = Ok v → v_curr_state v = Some cs →
  reconstruct fuel (v_revealed v) cs = Ok sol →
  astar P fuel = Ok (Report (rev sol) (v_x v) (N.of_nat (size (v_revealed v)))).
Proof. intros Hs Hc Hr. unfold astar_with. rewrite Hs. cbn. rewrite Hc. cbn. by rewrite Hr. Qed.

(** *** Reconstruction *)

Lemma backtrack_Continue (rv : gmap State (record State)) cs sol p sol' :
  backtrack rv (cs, sol) = Ok (Continue (p, sol')) →
  ∃ r, rv !! cs = Some r ∧ rec_pred r = Some p ∧ sol' = sol ++ [rec_action r].
Proof.
  unfold backtrack, subscript. destruct (rv !! cs) as [r|]; [|done]. cbn.
  destruct (rec_pred r) eqn:Hp; [|done]. intros [= <- <-]. by exists r.
Qed.

Lemma backtrack_Break (rv : gmap State (record State)) cs sol sol' :
  backtrack rv (cs, sol) = Ok (Break sol') →
  ∃ r, rv !! cs = Some r ∧ rec_pred r = None ∧ sol' = sol.
Proof.
  unfold backtrack, subscript. destruct (rv !! cs) as [r|]; [|done]. cbn.
  destruct (rec_pred r) eqn:Hp; [done|]. intros [= <-]. by exists r.
Qed.

(** The reversed list that the second loop builds is a plan from the
    initial state to the state it started from; [good] is any property of
    states and costs that the steps of the table carry along. *)
Lemma reconstruct_plan (good : State → Q → Prop) rv s fuel sol :
  table_sound P rv →
  good (initial_state P) 0%Q →
  (∀ cs r p c total total',
     rv !! cs = Some r → rec_pred r = Some p → action_cost P p (rec_action r) = Ok c →
     good p total → (total' == total + c)%Q → good cs total') →
  reconstruct fuel rv s = Ok sol →
  ∃ total, run_plan P (initial_state P) (rev sol) = Ok (s, total) ∧ good s total.
Proof.
  intros Hsound Hgood0 Hgood Hrec.
  apply while_result in Hrec as ([cs sol0] & Hreach & Hb).
  set (Inv := λ st : State * list string,
    ∀ plan total, run_plan P (initial_state P) plan = Ok (st.1, total) → good st.1 total →
      ∃ total', run_plan P (initial_state P) (plan ++ rev st.2) = Ok (s, total') ∧ good s total').
  assert (Inv (cs, sol0)) as HI.
  { eapply (loop_reach_invariant _ Inv); [| |done].
    - intros plan total Hrun Hg. cbn. rewrite app_nil_r. by exists total.
    - intros [cs1 sol1] [p sol2] HI1 (r & Hr & Hp & ->)%backtrack_Continue plan total Hrun Hg.
      cbn in *. destruct (Hsound _ _ Hr) as [_ Hpred]. rewrite Hp in Hpred.
      destruct Hpred as (possible & c & Hav & Hin & Hdo & Hc).
      destruct (run_plan_snoc _ _ _ _ _ _ _ _ _ Hrun Hav Hin Hdo Hc) as (total' & Hrun' & Heq).
      replace (plan ++ rev (sol1 ++ [rec_action r])) with ((plan ++ [rec_action r]) ++ rev sol1)
        by (by rewrite rev_app_distr, <-(assoc app)).
      apply (HI1 _ total'); [done|]. by eapply Hgood. }
  apply backtrack_Break in Hb as (r & Hr & Hp & ->).
  destruct (Hsound _ _ Hr) as [_ Hpred]. rewrite Hp in Hpred. subst cs.
  apply (HI [] 0%Q); done.
Qed.
End SoundLemmas.

(** ** With costs that are not negative the table is rooted *)

Section RootedLemmas.
Context {State : Type} `{Countable State}.
Variable P : Problem State.
Hypothesis Hnn : nonneg_costs P.

Lemma chain_lookup (rv : gmap State (record State)) s l :
  chain rv s l → is_Some (rv !! s).
Proof. destruct 1; eauto. Qed.

(** The recorded [g] does not grow along the predecessors. *)
Lemma chain_g_le rv s r l v :
  table_rooted P rv → chain rv s l → rv !! s = Some r → v ∈ l →
  ∃ rv_v, rv !! v = Some rv_v ∧ (rec_g rv_v <= rec_g r)%Q.
Proof.
  intros [_ Hroot] Hchain. revert r.
  induction Hchain as [s r' Hr' Hp|s r' p l Hr' Hp Hchain IH]; intros r Hr Hin; [set_solver|].
  assert (r' = r) as -> by congruence.
  destruct (Hroot _ _ Hr) as (_ & Hpred & _).
  destruct (Hpred _ Hp) as (rp & c & Hrp & Hc & Hle).
  apply Hnn in Hc.
  apply elem_of_cons in Hin as [->|Hin].
  - exists rp. split; [done|]. lra.
  - destruct (IH _ Hrp Hin) as (rv_v & Hv & Hle'). exists rv_v. split; [done|]. lra.
Qed.

Lemma chain_insert_avoid (rv : gmap State (record State)) ns rn s l :
  chain rv s l → ns ≠ s → ns ∉ l → chain (<[ns := rn]> rv) s l.
Proof.
  induction 1 as [s r Hr Hp|s r p l Hr Hp Hchain IH]; intros Hne Hnin.
  - eapply chain_root; [|done]. by rewrite lookup_insert_ne.
  - eapply chain_step; [|done|].
    + by rewrite lookup_insert_ne.
    + apply IH; set_solver.
Qed.

Lemma chain_insert (rv : gmap State (record State)) ns rn ln s l :
  chain (<[ns := rn]> rv) ns ln → chain rv s l → ∃ l', chain (<[ns := rn]> rv) s l'.
Proof.
  intros Hnew. induction 1 as [s r Hr Hp|s r p l Hr Hp Hchain [l' IH]].
  - destruct (decide (s = ns)) as [->|Hne]; [eauto|].
    exists []. eapply chain_root; [|done]. by rewrite lookup_insert_ne.
  - destruct (decide (s = ns)) as [->|Hne]; [eauto|].
    exists (p :: l'). eapply chain_step; [|done|done]. by rewrite lookup_insert_ne.
Qed.

Lemma relax_table_rooted cs cc rcs p q rv q' rv' :
  table_sound P rv → table_rooted P rv →
  rv !! cs = Some rcs → (rec_g rcs <= cc)%Q →
  relax P cs cc (q, rv) p = Ok (q', rv') →
  table_rooted P rv' ∧ rv' !! cs = Some rcs.
Proof.
  intros Hsound Hroot Hcs Hcc Hrelax.
  apply relax_Ok in Hrelax
    as (ns & c & h & Hdo & Hc & Hh & [(r & _ & _ & _ & ->)|(Hlt & _ & ->)]); [done|].
  pose proof (Hnn _ _ _ Hc) as Hc0.
  destruct Hroot as [(r0 & Hr0 & Hp0 & Hg0) Hall].
  destruct (Hall _ _ Hcs) as (Hgcs & _ & (lcs & Hchain)).
  assert (∀ r, rv !! ns = Some r → (c + cc < rec_g r)%Q) as Hg.
  { intros r Hr. specialize (Hlt _ Hr).
    destruct (Hsound _ _ Hr) as [(h' & Hh' & Hf) _].
    assert (h' = h) as -> by congruence. lra. }
  assert (ns ≠ initial_state P) as Hni.
  { intros ->. specialize (Hg _ Hr0). lra. }
  assert (ns ≠ cs) as Hnc.
  { intros ->. specialize (Hg _ Hcs). lra. }
  assert (ns ∉ lcs) as Hnl.
  { intros Hin.
    destruct (chain_g_le _ _ _ _ _ (conj (ex_intro _ r0 (conj Hr0 (conj Hp0 Hg0))) Hall)
                Hchain Hcs Hin) as (rn & Hrn & Hle).
    specialize (Hg _ Hrn). lra. }
  assert (chain (<[ns := Rec (Some cs) p (c + cc + h)%Q (c + cc)%Q]> rv) ns (cs :: lcs))
    as Hnew.
  { eapply chain_step; [apply lookup_insert_eq|done|]. by apply chain_insert_avoid. }
  split; [|by rewrite lookup_insert_ne]. split.
  - exists r0. by rewrite lookup_insert_ne.
  - intros s r. destruct (decide (s = ns)) as [->|Hne].
    + rewrite lookup_insert_eq. intros [= <-]. cbn. split; [lra|]. split; [|eauto].
      intros ? [= <-]. exists rcs, c. rewrite lookup_insert_ne by done.
      split; [done|]. split; [done|]. lra.
    + rewrite lookup_insert_ne by done. intros Hr.
      destruct (Hall _ _ Hr) as (Hg0' & Hpred & (l & Hl)). split; [done|]. split.
      * intros p' Hp'. destruct (Hpred _ Hp') as (rp & c' & Hrp & Hc' & Hle).
        destruct (decide (p' = ns)) as [->|Hne'].
        -- eexists _, c'. rewrite lookup_insert_eq. split; [done|]. split; [done|].
           cbn. specialize (Hg _ Hrp). lra.
        -- exists rp, c'. by rewrite lookup_insert_ne.
      * by eapply chain_insert.
Qed.

Lemma start_table_rooted h0 : table_rooted P (v_revealed (start P h0 h0)).
Proof.
  cbn. split.
  - eexists. rewrite lookup_singleton_eq. split; [done|]. split; [done|]. cbn. lra.
  - intros s r [<- <-]%lookup_singleton_Some. cbn. split; [lra|]. split; [done|].
    exists []. eapply chain_root; [apply lookup_singleton_eq|done].
Qed.

Lemma rooted_inside_relax v cs cc done p rest st st' :
  at_head P v → expanding P v cs cc done (p :: rest) st →
  rooted_inside P cs cc st.2 → relax P cs cc st p = Ok st' → rooted_inside P cs cc st'.2.
Proof.
  intros Hhead Hexp [Hroot (r & Hr & Hle)] Hrelax.
  destruct st as [q rv], st' as [q' rv']. cbn in *.
  pose proof (table_sound_expanding _ _ _ _ _ _ _ Hhead Hexp) as Hsound.
  assert (rec_g r <= cc)%Q as Hle' by lra.
  destruct (relax_table_rooted _ _ _ _ _ _ _ _ Hsound Hroot Hr Hle' Hrelax) as [? ?].
  split; [done|]. by exists r.
Qed.

Lemma rooted_head v :
  at_head P v →
  table_rooted P (v_revealed v) ∧
  ∀ cs, v_curr_state v = Some cs → is_Some (v_revealed v !! cs).
Proof.
  apply (at_head_ind P
           (λ v, table_rooted P (v_revealed v) ∧
                 ∀ cs, v_curr_state v = Some cs → is_Some (v_revealed v !! cs))
           (λ _ cs cc _ _ st, rooted_inside P cs cc st.2)).
  - intros. split; [apply start_table_rooted|done].
  - intros v0 current q r possible _ [Hroot _] _ Hr _ _. split; [done|]. by exists r.
  - intros v0 cs cc done p rest st st' Hhead _ Hexp Hin Hrelax.
    by eapply rooted_inside_relax.
  - intros v0 cs cc possible q rv _ _ _ [? (r & Hr & _)]. split; [done|].
    cbn. intros ? [= <-]. eauto.
Qed.

Lemma table_rooted_head v : at_head P v → table_rooted P (v_revealed v).
Proof. by intros [? _]%rooted_head. Qed.

Lemma table_rooted_expanding v cs cc done rest st :
  at_head P v → expanding P v cs cc done rest st → rooted_inside P cs cc st.2.
Proof.
  intros Hhead Hexp.
  apply (expanding_ind P (λ v, table_rooted P (v_revealed v))
           (λ _ cs cc _ _ st, rooted_inside P cs cc st.2)) with v done rest;
    [..|done|by apply table_rooted_head|done].
  - intros v0 current q r possible _ Hroot _ Hr _ _. split; [done|]. by exists r.
  - intros v0 cs0 cc0 done0 p rest0 st0 st' Hhead0 _ Hexp0 Hin Hrelax.
    by eapply rooted_inside_relax.
Qed.


(** Following the predecessors ends after as many steps as the chain is long. *)
Lemma chain_reconstruct (rv : gmap State (record State)) s l sol fuel :
  chain rv s l → (N.of_nat (length l) < fuel)%N →
  ∃ sol', while (backtrack rv) fuel (s, sol) = Ok sol'.
Proof.
  intros Hchain. revert sol fuel.
  induction Hchain as [s r Hr Hp|s r p l Hr Hp Hchain IH]; intros sol fuel Hlt.
  - replace fuel with (N.succ (N.pred fuel)) by lia.
    rewrite while_succ. unfold backtrack, subscript. rewrite Hr. cbn. rewrite Hp. eauto.
  - replace fuel with (N.succ (N.pred fuel)) by lia.
    rewrite while_succ. unfold backtrack, subscript at 1. rewrite Hr. cbn. rewrite Hp.
    apply IH. cbn in Hlt. lia.
Qed.

(** The plan that is reconstructed costs no more than the recorded [g]. *)
Lemma reconstruct_cost rv s r fuel sol :
  table_sound P rv → table_rooted P rv → rv !! s = Some r →
  reconstruct fuel rv s = Ok sol →
  ∃ total, run_plan P (initial_state P) (rev sol) = Ok (s, total) ∧ (total <= rec_g r)%Q.
Proof.
  intros Hsound Hroot Hr Hrec.
  destruct (reconstruct_plan P
    (λ s total, ∃ r, rv !! s = Some r ∧ (total <= rec_g r)%Q) rv s fuel sol)
    as (total & Hrun & (r' & Hr' & Hle)); try done.
  - destruct Hroot as [(r0 & Hr0 & _ & Hg0) _]. exists r0. split; [done|]. lra.
  - intros cs r1 p c total total' Hr1 Hp Hc (rp & Hrp & Hle) Heq.
    exists r1. split; [done|].
    destruct Hroot as [_ Hall]. destruct (Hall _ _ Hr1) as (_ & Hpred & _).
    destruct (Hpred _ Hp) as (rp' & c' & Hrp' & Hc' & Hle').
    assert (rp' = rp) as -> by congruence. assert (c' = c) as -> by congruence. lra.
  - exists total. split; [done|]. assert (r' = r) as -> by congruence. done.
Qed.
End RootedLemmas.

(** ** The result does not depend on the budget or on the problem object *)

Section Extensionality.
Context {State : Type} `{Countable State}.
Variables P P' : Problem State.
Hypothesis Hsame : same_behaviour P P'.

Lemma merge_ext {E : Type} (ltb ltb' : E → E → bool) (a b : PriorityQueue.heap E) :
  (∀ x y, ltb x y = ltb' x y) → PriorityQueue.merge ltb a b = PriorityQueue.merge ltb' a b.
Proof.
  intros Hltb. revert b. induction a as [|ka x l IHl r IHr]; intros b; [done|].
  induction b as [|kb y l' IHl' r' IHr']; [done|].
  rewrite !merge_Node, Hltb, IHr', IHr. done.
Qed.

Lemma entry_ltb_ext a b : entry_ltb P a b = entry_ltb P' a b.
Proof. unfold entry_ltb. destruct Hsame as (_ & -> & _). done. Qed.

Lemma q_put_ext e q : q_put P e q = q_put P' e q.
Proof. apply merge_ext, entry_ltb_ext. Qed.

Lemma q_get_ext q : q_get P q = q_get P' q.
Proof.
  destruct q as [|k x l r]; [done|].
  unfold q_get. cbn. by rewrite (merge_ext _ _ _ _ entry_ltb_ext).
Qed.

Lemma relax_ext cs cc st p : relax P cs cc st p = relax P' cs cc st p.
Proof.
  destruct Hsame as (_ & _ & _ & Hdo & _ & Hc & Hh). destruct st as [q rv].
  unfold relax_with. rewrite Hdo. destruct (do_action P' cs p) as [ns| |]; cbn; [|done..].
  rewrite Hc. destruct (action_cost P' cs p) as [c| |]; cbn; [|done..].
  rewrite Hh. destruct (heuristic P' ns) as [h| |]; cbn; [|done..].
  by rewrite q_put_ext.
Qed.

Lemma for_each_ext {A B : Type} (f f' : B → A → res B) l acc :
  (∀ acc x, f acc x = f' acc x) → for_each f l acc = for_each f' l acc.
Proof.
  intros Hf. revert acc. induction l as [|x l IH]; intros acc; [done|].
  cbn. rewrite Hf. destruct (f' acc x); cbn; auto.
Qed.

Lemma iteration_ext v : iteration P v = iteration P' v.
Proof.
  pose proof Hsame as (_ & _ & Hav & _ & Hgoal & _ & _).
  unfold iteration_with. rewrite q_get_ext.
  destruct (q_get P' (v_q v)) as [[current q]|]; [|done].
  destruct (subscript (v_revealed v) current.2) as [r| |]; cbn; [|done..].
  rewrite Hgoal. destruct (is_goal P' current.2) as [[]| |]; cbn; [done| |done..].
  rewrite Hav. destruct (available_actions P' current.2) as [possible| |]; cbn; [|done..].
  unfold for_actions_with. by rewrite (for_each_ext _ _ _ _ (relax_ext _ _)).
Qed.

Lemma while_ext {S R : Type} (body body' : S → res (control S R)) n s :
  (∀ s, body s = body' s) → while body n s = while body' n s.
Proof.
  intros Hb. revert s. induction n as [|n IH] using N.peano_ind; intros s; [done|].
  rewrite !while_succ, Hb. destruct (body' s) as [[s'|r]| |]; auto.
Qed.

Lemma astar_ext fuel : astar P fuel = astar P' fuel.
Proof.
  pose proof Hsame as (Hinit & _ & _ & _ & _ & _ & Hh).
  unfold astar_with, search_with, start. rewrite Hinit, Hh.
  destruct (heuristic P' (initial_state P')) as [h0| |]; cbn; [|done..].
  by rewrite (while_ext _ _ _ _ iteration_ext).
Qed.
End Extensionality.

Section Determinism.
Context {State : Type} `{Countable State}.
Variable P : Problem State.

Lemma astar_mono fuel fuel' rep :
  astar P fuel = Ok rep → (fuel ≤ fuel')%N → astar P fuel' = Ok rep.
Proof.
  intros (v & cs & sol & Hs & Hc & Hr & ->)%astar_Ok Hle.
  eapply astar_intro; [by eapply search_mono|done|].
  unfold reconstruct in *. by eapply while_mono.
Qed.

Lemma astar_fuel_irrelevant fuel fuel' rep rep' :
  astar P fuel = Ok rep → astar P fuel' = Ok rep' → rep = rep'.
Proof.
  intros Ha Ha'. destruct (N.le_ge_cases fuel fuel') as [Hle|Hle].
  - apply (astar_mono _ _ _ Ha) in Hle. congruence.
  - apply (astar_mono _ _ _ Ha') in Hle. congruence.
Qed.
End Determinism.

(** ** Termination and optimality

    Over a finite universe of states and with costs that are not negative,
    every write of the table uses up one of finitely many plans, so the first
    loop ends; and as long as a goal can be reached the queue holds an entry
    that is on the way to it. *)

Section PotentialLemmas.
Context {State : Type} `{Countable State}.
Variable P : Problem State.
Variable univ : list State.

Lemma elem_of_words (n : nat) (w : list string) :
  (length w ≤ n)%nat → Forall (λ a, a ∈ alphabet P univ) w → w ∈ words P univ n.
Proof.
  revert w. induction n as [|n IH]; intros w Hlen Hall.
  - destruct w; [set_solver | cbn in Hlen; lia].
  - destruct w as [|a w]; [set_solver|].
    cbn. apply elem_of_cons. right. apply list_elem_of_In, in_flat_map.
    apply Forall_cons in Hall as [Ha Hw]. exists a. split; [by apply list_elem_of_In|].
    apply list_elem_of_In, list_elem_of_fmap. exists w. split; [done|].
    apply IH; [cbn in Hlen; lia | done].
Qed.

Lemma filter_length_lt {A : Type} (Q1 Q2 : A → Prop)
    `{∀ x, Decision (Q1 x)} `{∀ x, Decision (Q2 x)} (l : list A) (x0 : A) :
  (∀ x, x ∈ l → Q2 x → Q1 x) → x0 ∈ l → Q1 x0 → ¬ Q2 x0 →
  (length (filter Q2 l) < length (filter Q1 l))%nat.
Proof.
  intros Himp Hin Hx1 Hx2.
  assert (∀ l', (∀ x, x ∈ l' → Q2 x → Q1 x) →
                (length (filter Q2 l') ≤ length (filter Q1 l'))%nat) as Hle.
  { induction l' as [|x l' IH]; intros Himp'; [done|].
    rewrite !filter_cons. specialize (IH ltac:(set_solver)).
    destruct (decide (Q2 x)) as [Hx|Hx].
    - rewrite decide_True by (apply Himp'; set_solver). cbn. lia.
    - destruct (decide (Q1 x)); cbn; lia. }
  induction l as [|x l IH]; [set_solver|].
  rewrite !filter_cons. apply elem_of_cons in Hin as [<-|Hin].
  - destruct (decide (Q2 x0)); [done|]. destruct (decide (Q1 x0)); [|done].
    specialize (Hle l ltac:(set_solver)). cbn. lia.
  - specialize (IH ltac:(set_solver) Hin).
    destruct (decide (Q2 x)) as [Hx|Hx].
    + rewrite decide_True by (apply Himp; set_solver). cbn. lia.
    + destruct (decide (Q1 x)); cbn; lia.
Qed.

Lemma improving_true rv w :
  improving P rv w = true ↔
  ∃ s c, run_plan P (initial_state P) w = Ok (s, c) ∧
         (rv !! s = None ∨ ∃ r, rv !! s = Some r ∧ (c < rec_g r)%Q).
Proof.
  unfold improving. destruct (run_plan P (initial_state P) w) as [[s c]| |].
  - destruct (rv !! s) as [r|] eqn:Hr.
    + rewrite negb_true_iff. split.
      * intros Hle. exists s, c. split; [done|]. right. exists r. split; [done|].
        apply Qnot_le_lt. intros Hle'%Qle_bool_iff. congruence.
      * intros (? & ? & [= <- <-] & [Hn|(r' & Hr' & Hlt)]); [congruence|].
        assert (r' = r) as -> by congruence.
        destruct (Qle_bool (rec_g r) c) eqn:Hle; [|done].
        apply Qle_bool_iff in Hle. lra.
    + split; [|done]. intros _. exists s, c. auto.
  - split; [done|]. by intros (? & ? & ? & _).
  - split; [done|]. by intros (? & ? & ? & _).
Qed.

(** Writing a record that a plan of [words] reaches at exactly its [g], and
    that improves on the table, lowers the potential. *)
Lemma potential_insert_lt rv ns rn w0 c0 :
  w0 ∈ words P univ (length univ) →
  run_plan P (initial_state P) w0 = Ok (ns, c0) → (c0 == rec_g rn)%Q →
  (∀ r, rv !! ns = Some r → (rec_g rn < rec_g r)%Q) →
  (potential P univ (<[ns := rn]> rv) < potential P univ rv)%nat.
Proof.
  intros Hin Hrun Hc0 Hlt. unfold potential.
  apply (filter_length_lt _ _ _ w0); [|done| |].
  - intros w _ (s & c & Hw & Himp)%improving_true. apply improving_true.
    exists s, c. split; [done|].
    destruct (decide (s = ns)) as [->|Hne].
    + rewrite lookup_insert_eq in Himp. destruct Himp as [|(r' & [= <-] & Hlt')]; [done|].
      destruct (rv !! ns) as [r|] eqn:Hr; [|by left].
      right. exists r. split; [done|]. specialize (Hlt _ eq_refl). lra.
    + by rewrite lookup_insert_ne in Himp.
  - apply improving_true. exists ns, c0. split; [done|].
    destruct (rv !! ns) as [r|] eqn:Hr; [|by left].
    right. exists r. split; [done|]. specialize (Hlt _ eq_refl). lra.
  - intros (s & c & Hw & Himp)%improving_true.
    assert (s = ns ∧ c = c0) as [-> ->] by (split; congruence).
    rewrite lookup_insert_eq in Himp. destruct Himp as [|(r' & [= <-] & Hlt')]; [done|]. lra.
Qed.
End PotentialLemmas.

Section WalkLemmas.
Context {State : Type} `{Countable State}.
Variable P : Problem State.
Variable univ : list State.
Hypothesis Hnn : nonneg_costs P.

Lemma walk_run rv vis plan s g :
  walk P rv vis plan s g →
  ∃ c, run_plan P (initial_state P) plan = Ok (s, c) ∧ (c == g)%Q.
Proof.
  induction 1 as [|vis plan p gp a s c possible r _ (c0 & Hrun & Hc0) Hav Hin Hdo Hc _ _ _].
  - exists 0%Q. split; [done|]. lra.
  - destruct (run_plan_snoc _ _ _ _ _ _ _ _ _ Hrun Hav Hin Hdo Hc) as (total & Hrun' & Heq).
    exists total. split; [done|]. lra.
Qed.

Lemma walk_length rv vis plan s g : walk P rv vis plan s g → length plan = length vis.
Proof. induction 1; [done|]. rewrite length_app. cbn. lia. Qed.

Lemma walk_NoDup rv vis plan s g : walk P rv vis plan s g → NoDup (s :: vis).
Proof.
  induction 1; [apply NoDup_singleton|]. by apply NoDup_cons.
Qed.

(** Every state of a walk is recorded at no more than the cost of the walk. *)
Lemma walk_recorded rv vis plan s g v :
  walk P rv vis plan s g → v ∈ s :: vis →
  ∃ r, rv !! v = Some r ∧ (rec_g r <= g)%Q.
Proof.
  induction 1 as [r Hr Hle|vis plan p gp a s c possible r Hwalk IH Hav Hin Hdo Hc Hnin Hr Hle];
    intros Hv.
  - apply list_elem_of_singleton in Hv as ->. eauto.
  - apply Hnn in Hc. apply elem_of_cons in Hv as [->|Hv]; [eauto|].
    destruct (IH Hv) as (r' & Hr' & Hle'). exists r'. split; [done|]. lra.
Qed.

Lemma walk_mono rv rv' vis plan s g :
  (∀ s r, rv !! s = Some r → ∃ r', rv' !! s = Some r' ∧ (rec_g r' <= rec_g r)%Q) →
  walk P rv vis plan s g → walk P rv' vis plan s g.
Proof.
  intros Hmono.
  induction 1 as [r Hr Hle|vis plan p gp a s c possible r Hwalk IH Hav Hin Hdo Hc Hnin Hr Hle].
  - destruct (Hmono _ _ Hr) as (r' & Hr' & Hle'). eapply walk_start; [done|]. lra.
  - destruct (Hmono _ _ Hr) as (r' & Hr' & Hle').
    eapply walk_snoc; eauto. lra.
Qed.

Lemma walk_alphabet rv vis plan s g :
  (∀ s, is_Some (rv !! s) → s ∈ univ) →
  walk P rv vis plan s g → Forall (λ a, a ∈ alphabet P univ) plan.
Proof.
  intros Huniv Hwalk. pose proof Hwalk as Hrec.
  induction Hwalk as [|vis plan p gp a s c possible r Hwalk IH Hav Hin Hdo Hc Hnin Hr Hle];
    [done|].
  apply Forall_app. split; [apply IH; done|]. apply Forall_singleton.
  destruct (walk_recorded _ _ _ _ _ p Hwalk ltac:(set_solver)) as (rp & Hrp & _).
  apply list_elem_of_In, in_flat_map. exists p. split.
  - apply list_elem_of_In, Huniv. eauto.
  - rewrite Hav. by apply list_elem_of_In.
Qed.

Lemma walk_word rv vis plan s g :
  (∀ s, is_Some (rv !! s) → s ∈ univ) →
  walk P rv vis plan s g → plan ∈ words P univ (length univ).
Proof.
  intros Huniv Hwalk. apply elem_of_words; [|by eapply walk_alphabet].
  rewrite (walk_length _ _ _ _ _ Hwalk).
  assert (length (s :: vis) ≤ length univ)%nat as Hle; [|cbn in Hle; lia].
  apply submseteq_length, NoDup_submseteq; [by eapply walk_NoDup|].
  intros v Hv. destruct (walk_recorded _ _ _ _ _ v Hwalk Hv) as (r & Hr & _).
  apply Huniv. eauto.
Qed.
End WalkLemmas.

Section FrontierLemmas.
Context {State : Type} `{Countable State}.
Variable P : Problem State.
Variable univ : list State.
Hypothesis Hclosed : closed_universe P univ.
Hypothesis Hnn : nonneg_costs P.

Lemma cost_le_trans (x y z : entry State) : cost_le x y → cost_le y z → cost_le x z.
Proof. unfold cost_le. lra. Qed.

Lemma entry_ltb_true (x y : entry State) : entry_ltb P y x = true → cost_le y x.
Proof.
  unfold entry_ltb, cost_le. destruct (Qcompare_spec (fst y) (fst x)); [lra|lra|done].
Qed.

Lemma entry_ltb_false (x y : entry State) : entry_ltb P y x = false → cost_le x y.
Proof.
  unfold entry_ltb, cost_le. destruct (Qcompare_spec (fst y) (fst x)); [lra|done|lra].
Qed.

Lemma elem_of_q_put (e e' : entry State) (q : queue State) :
  e' ∈ PriorityQueue.elements (q_put P e q) ↔ e' = e ∨ e' ∈ PriorityQueue.elements q.
Proof. unfold q_put. rewrite elements_put. apply elem_of_cons. Qed.

Lemma elem_of_q_get (e e' : entry State) (q q' : queue State) :
  q_get P q = Some (e, q') →
  e' ∈ PriorityQueue.elements q ↔ e' = e ∨ e' ∈ PriorityQueue.elements q'.
Proof. intros Hget%elements_get. rewrite Hget. apply elem_of_cons. Qed.

Lemma frontier_start h0 :
  heuristic P (initial_state P) = Ok h0 → frontier_head P univ (start P h0 h0).
Proof.
  intros Hh. destruct Hclosed as [Hinit _]. unfold start. split; [split|]; cbn.
  - by intros s [r [<- _]%lookup_singleton_Some].
  - intros s r [<- <-]%lookup_singleton_Some. exists [], [], 0%Q. split; [|done].
    eapply walk_start; [apply lookup_singleton_eq|]. cbn. lra.
  - intros k s [[= -> ->]|Hin]%elem_of_q_put; [|set_solver].
    eexists. rewrite lookup_singleton_eq. split; [done|]. cbn. lra.
  - apply (ordered_put _ _ cost_le_trans entry_ltb_true entry_ltb_false). done.
  - intros s r [<- <-]%lookup_singleton_Some. left. exists h0. split; [|cbn; lra].
    apply elem_of_q_put. by left.
Qed.

Lemma frontier_pop v current q r :
  frontier_head P univ v →
  q_get P (v_q v) = Some (current, q) →
  v_revealed v !! snd current = Some r →
  frontier_inside P univ v (snd current) (rec_g r) [] (q, v_revealed v).
Proof.
  intros [[Huniv Hwalk Hqueue Hord] Hcov] Hget Hr.
  destruct (ordered_get _ _ cost_le_trans entry_ltb_true entry_ltb_false _ _ _ Hord Hget)
    as [Hord' _].
  split; cbn.
  - split; [done|done| |done].
    intros k s Hin. apply Hqueue. apply (elem_of_q_get _ _ _ _ Hget). by right.
  - by apply Hwalk.
  - intros s Hne r' Hr'. destruct (Hcov s r' Hr') as [(k & Hin & Hle)|Hset]; [|by right].
    left. exists k. split; [|done].
    apply (elem_of_q_get _ _ _ _ Hget) in Hin as [<-|Hin]; done.
  - set_solver.
  - unfold measure. apply elements_get, Permutation_length in Hget.
    rewrite Hget. cbn. lia.
Qed.

Lemma relaxed_mono rv rv' s g a :
  (∀ s r, rv !! s = Some r → ∃ r', rv' !! s = Some r' ∧ (rec_g r' <= rec_g r)%Q) →
  relaxed P rv s g a → relaxed P rv' s g a.
Proof.
  intros Hmono (s' & c & r & Hdo & Hc & Hr & Hle).
  destruct (Hmono _ _ Hr) as (r' & Hr' & Hle').
  exists s', c, r'. repeat split; try done. lra.
Qed.

Lemma frontier_relax v cs cc done p rest st st' :
  at_head P v → expanding P v cs cc done (p :: rest) st →
  frontier_inside P univ v cs cc done st →
  relax P cs cc st p = Ok st' →
  frontier_inside P univ v cs cc (done ++ [p]) st'.
Proof.
  intros Hhead Hexp [[Huniv Hwalks Hqueue Hord] (vis & plan & g & Hwalk & Hg) Hcov Hdone Hmeas]
    Hrelax.
  pose proof (table_sound_expanding _ _ _ _ _ _ _ Hhead Hexp) as Hsound.
  pose proof (table_rooted_expanding _ Hnn _ _ _ _ _ _ Hhead Hexp) as [_ (rcs & Hrcs & Hgcs)].
  pose proof (expanding_available _ _ _ _ _ _ _ Hexp) as Hav.
  destruct st as [q rv], st' as [q' rv']. cbn in *.
  apply relax_Ok in Hrelax
    as (ns & c & h & Hdo & Hc & Hh & [(r0 & Hr0 & Hle & -> & ->)|(Hlt & -> & ->)]).
  - split; cbn; [done|eauto|done| |done].
    intros a [Ha| ->%list_elem_of_singleton]%elem_of_app; [by apply Hdone|].
    exists ns, c, r0. repeat split; try done.
    destruct (Hsound _ _ Hr0) as [(h' & Hh' & Hf) _].
    assert (h' = h) as -> by congruence. lra.
  - pose proof (Hnn _ _ _ Hc) as Hc0.
    set (rn := Rec (Some cs) p (c + cc + h)%Q (c + cc)%Q).
    assert (∀ r, rv !! ns = Some r → (c + cc < rec_g r)%Q) as Hgn.
    { intros r Hr. specialize (Hlt _ Hr).
      destruct (Hsound _ _ Hr) as [(h' & Hh' & Hf) _].
      assert (h' = h) as -> by congruence. lra. }
    assert (∀ s r, rv !! s = Some r →
              ∃ r', <[ns := rn]> rv !! s = Some r' ∧ (rec_g r' <= rec_g r)%Q) as Hmono.
    { intros s r Hr. destruct (decide (s = ns)) as [->|Hne].
      - exists rn. rewrite lookup_insert_eq. split; [done|]. specialize (Hgn _ Hr). cbn. lra.
      - exists r. rewrite lookup_insert_ne by done. split; [done|]. lra. }
    assert (ns ∉ cs :: vis) as Hnin.
    { intros Hin. destruct (walk_recorded _ Hnn _ _ _ _ _ _ Hwalk Hin) as (r & Hr & Hle).
      specialize (Hgn _ Hr). lra. }
    assert (p ∈ done ++ p :: rest) as Hp by set_solver.
    assert (walk P (<[ns := rn]> rv) (cs :: vis) (plan ++ [p]) ns (g + c)%Q) as Hnew.
    { eapply walk_snoc; try done.
      - by eapply walk_mono.
      - apply lookup_insert_eq.
      - cbn. lra. }
    assert (∀ s, is_Some (<[ns := rn]> rv !! s) → s ∈ univ) as Huniv'.
    { intros s. destruct (decide (s = ns)) as [->|Hne].
      - intros _. destruct Hclosed as [_ Hcl].
        destruct (Hcl cs) as (_ & _ & possible & Hav' & Hacts); [apply Huniv; eauto|].
        assert (possible = done ++ p :: rest) as -> by congruence.
        destruct (Hacts _ Hp) as (_ & s' & Hdo' & Hs'). congruence.
      - rewrite lookup_insert_ne by done. apply Huniv. }
    split; cbn.
    + split; [done| | |].
      * intros s r. destruct (decide (s = ns)) as [->|Hne].
        -- rewrite lookup_insert_eq. intros [= <-]. exists (cs :: vis), (plan ++ [p]), (g + c)%Q.
           split; [done|]. cbn. lra.
        -- rewrite lookup_insert_ne by done. intros Hr.
           destruct (Hwalks _ _ Hr) as (vis' & plan' & g' & Hw' & Hg').
           exists vis', plan', g'. split; [by eapply walk_mono|done].
      * intros k s [[= -> ->]|Hin]%elem_of_q_put.
        -- exists rn. rewrite lookup_insert_eq. split; [done|]. cbn. lra.
        -- destruct (Hqueue _ _ Hin) as (r & Hr & Hle).
           destruct (decide (s = ns)) as [->|Hne].
           ++ exists rn. rewrite lookup_insert_eq. split; [done|].
              specialize (Hlt _ Hr). cbn. lra.
           ++ exists r. by rewrite lookup_insert_ne.
      * by apply (ordered_put _ _ cost_le_trans entry_ltb_true entry_ltb_false).
    + exists vis, plan, g. split; [by eapply walk_mono|done].
    + intros s Hne r. destruct (decide (s = ns)) as [->|Hne'].
      * rewrite lookup_insert_eq. intros [= <-]. left. exists (c + cc + h)%Q.
        split; [|cbn; lra]. apply elem_of_q_put. by left.
      * rewrite lookup_insert_ne by done. intros Hr.
        destruct (Hcov s Hne r Hr) as [(k & Hin & Hle)|[Hgoal Hset]].
        -- left. exists k. split; [|done]. apply elem_of_q_put. by right.
        -- right. split; [done|]. intros possible a Hav' Ha.
           eapply relaxed_mono; [done|]. by eapply Hset.
    + intros a [Ha| ->%list_elem_of_singleton]%elem_of_app.
      * eapply relaxed_mono; [done|]. by apply Hdone.
      * exists ns, c, rn. rewrite lookup_insert_eq. repeat split; try done. cbn. lra.
    + destruct (walk_run _ _ _ _ _ _ Hnew) as (c0 & Hrun & Hc0eq).
      assert (potential P univ (<[ns := rn]> rv) < potential P univ rv)%nat as Hpot.
      { eapply (potential_insert_lt _ _ _ _ _ (plan ++ [p]) c0); [|done| |].
        - by eapply walk_word.
        - cbn. lra.
        - intros r Hr. specialize (Hgn _ Hr). cbn. lra. }
      unfold measure in *.
      assert (length (PriorityQueue.elements (q_put P ((c + cc + h)%Q, ns) q)) =
              S (length (PriorityQueue.elements q))) as ->.
      { unfold q_put. by rewrite elements_put. }
      lia.
Qed.

Lemma frontier_next v cs cc possible q rv :
  at_head P v → expanding P v cs cc possible [] (q, rv) →
  frontier_inside P univ v cs cc possible (q, rv) →
  frontier_head P univ (Vars q rv (N.succ (v_x v)) (Some cs)).
Proof.
  intros Hhead Hexp [Hok _ Hcov Hdone _].
  pose proof (table_rooted_expanding _ Hnn _ _ _ _ _ _ Hhead Hexp) as [_ (rcs & Hrcs & Hgcs)].
  pose proof (expanding_available _ _ _ _ _ _ _ Hexp) as Hav.
  rewrite app_nil_r in Hav.
  destruct Hexp as (current & q0 & r & _ & _ & _ & _ & Hgoal & _ & _).
  cbn in *. split; [done|]. cbn. intros s.
  destruct (decide (s = cs)) as [->|Hne]; [|by apply Hcov].
  intros r' Hr'. assert (r' = rcs) as -> by congruence.
  right. split; [done|]. intros possible' a Hav' Ha.
  assert (possible' = possible) as -> by congruence.
  destruct (Hdone _ Ha) as (s' & c & r'' & Hdo & Hc & Hr'' & Hle).
  exists s', c, r''. repeat split; try done. lra.
Qed.

Lemma frontier_head_at v : at_head P v → frontier_head P univ v.
Proof.
  apply (at_head_ind P (frontier_head P univ)
           (λ v cs cc done _ st, frontier_inside P univ v cs cc done st)).
  - apply frontier_start.
  - intros v0 current q r possible _ Hfh Hget Hr _ _. by apply frontier_pop.
  - intros v0 cs cc done p rest st st' Hhead _ Hexp Hin Hrelax. by eapply frontier_relax.
  - intros v0 cs cc possible q rv Hhead _ Hexp Hin. by eapply frontier_next.
Qed.

Lemma frontier_inside_at v cs cc done rest st :
  at_head P v → expanding P v cs cc done rest st →
  frontier_inside P univ v cs cc done st.
Proof.
  intros Hhead Hexp.
  apply (expanding_ind P (frontier_head P univ)
           (λ v cs cc done _ st, frontier_inside P univ v cs cc done st)) with rest;
    [..|done|by apply frontier_head_at|done].
  - intros v0 current q r possible _ Hfh Hget Hr _ _. by apply frontier_pop.
  - intros v0 cs0 cc0 done0 p rest0 st0 st' Hhead0 _ Hexp0 Hin Hrelax.
    by eapply frontier_relax.
Qed.
End FrontierLemmas.

Section OptimalityLemmas.
Context {State : Type} `{Countable State}.
Variable P : Problem State.
Variable univ : list State.
Hypothesis Hclosed : closed_universe P univ.
Hypothesis Hnn : nonneg_costs P.

Lemma for_actions_total cs cc possible l st :
  cs ∈ univ → available_actions P cs = Ok possible → (∀ a, a ∈ l → a ∈ possible) →
  ∃ st', for_actions P cs cc l st = Ok st'.
Proof.
  intros Hcs Hav. destruct Hclosed as [_ Hcl].
  destruct (Hcl _ Hcs) as (_ & _ & possible' & Hav' & Hacts).
  assert (possible' = possible) as -> by congruence.
  revert st. induction l as [|a l IH]; intros [q rv] Hl; [by eexists|].
  destruct (Hacts a) as ((c & Hc) & ns & Hdo & Hns); [apply Hl, elem_of_cons; by left|].
  destruct (Hcl _ Hns) as (_ & (h & Hh) & _).
  unfold for_actions_with in *. cbn. unfold relax_with at 1. rewrite Hdo. cbn. rewrite Hc. cbn.
  rewrite Hh. cbn.
  match goal with |- context [if ?b then _ else _] => destruct b end; cbn;
    apply IH; intros a' Ha'; apply Hl, elem_of_cons; by right.
Qed.

(** An iteration leaves the loop or lowers the measure. *)
Lemma iteration_progress v :
  at_head P v →
  (∃ r, iteration P v = Ok (Break r)) ∨
  (∃ v', iteration P v = Ok (Continue v') ∧ at_head P v' ∧
         (measure P univ (v_q v') (v_revealed v') <
          measure P univ (v_q v) (v_revealed v))%nat).
Proof.
  intros Hhead.
  pose proof (frontier_head_at _ _ Hclosed Hnn _ Hhead) as [[Huniv _ Hqueue _] _].
  destruct (q_get P (v_q v)) as [[current q]|] eqn:Hget.
  - destruct current as [k cs].
    destruct (Hqueue k cs) as (r & Hr & _).
    { apply (elem_of_q_get _ _ _ _ _ Hget). by left. }
    assert (cs ∈ univ) as Hcs by (apply Huniv; eauto).
    destruct Hclosed as [_ Hcl].
    destruct (Hcl _ Hcs) as ((b & Hgoal) & _ & possible & Hav & _).
    destruct b.
    + left. eexists. unfold iteration_with. rewrite Hget. unfold subscript. cbn.
      rewrite Hr. cbn. rewrite Hgoal. done.
    + right.
      destruct (for_actions_total cs (rec_g r) possible possible (q, v_revealed v))
        as [[q' rv'] Hfor]; [done..|].
      assert (expanding P v cs (rec_g r) possible [] (q', rv')) as Hexp.
      { exists (k, cs), q, r. rewrite app_nil_r. repeat split; done. }
      pose proof (expanding_finish _ _ _ _ _ _ _ Hexp) as Hit.
      eexists. split; [done|]. split; [by eapply at_head_next|].
      by destruct (frontier_inside_at _ _ Hclosed Hnn _ _ _ _ _ _ Hhead Hexp).
  - left. exists v. unfold iteration_with. by rewrite Hget.
Qed.

Lemma search_terminates fuel h0 :
  heuristic P (initial_state P) = Ok h0 →
  (N.of_nat (measure P univ (v_q (start P h0 h0)) (v_revealed (start P h0 h0))) < fuel)%N →
  ∃ v, search P fuel = Ok v.
Proof.
  intros Hh Hfuel. unfold search_with. rewrite Hh. cbn.
  apply (while_terminates _ (at_head P)
           (λ v, measure P univ (v_q v) (v_revealed v))); [| |done].
  - intros v Hhead.
    destruct (iteration_progress _ Hhead) as [?|(v' & ? & ? & ?)]; [by left|].
    right. by exists v'.
  - exists h0. split; [done | apply reach_start].
Qed.

(** While a goal can be reached at cost [total], the queue holds an entry
    of no more than [total]. *)
Lemma frontier_bound v plan t total :
  admissible_on P univ → at_head P v →
  run_plan P (initial_state P) plan = Ok (t, total) → is_goal P t = Ok true →
  ∃ k s, (k, s) ∈ PriorityQueue.elements (v_q v) ∧ (k <= total)%Q.
Proof.
  intros Hadm Hhead Hrun Hgoal.
  pose proof (frontier_head_at _ _ Hclosed Hnn _ Hhead) as [[Huniv _ _ _] Hcov].
  pose proof (table_sound_head _ _ Hhead) as Hsound.
  pose proof (table_rooted_head _ Hnn _ Hhead) as [(r0 & Hr0 & _ & Hg0) _].
  assert (∀ plan s r total,
            v_revealed v !! s = Some r → run_plan P s plan = Ok (t, total) →
            ∃ k s', (k, s') ∈ PriorityQueue.elements (v_q v) ∧ (k <= rec_g r + total)%Q)
    as Hgen.
  { clear plan total Hrun. induction plan as [|a plan IH]; intros s r total Hr Hrun.
    - destruct (Hcov s r Hr) as [(k & Hin & Hle)|[Hng _]].
      + destruct (Hsound _ _ Hr) as [(h & Hh & Hf) _].
        pose proof (Hadm _ _ _ _ _ (Huniv _ (mk_is_Some _ _ Hr)) Hh Hrun Hgoal).
        exists k, s. split; [done|]. lra.
      + injection Hrun as <- <-. congruence.
    - destruct (Hcov s r Hr) as [(k & Hin & Hle)|[_ Hrel]].
      + destruct (Hsound _ _ Hr) as [(h & Hh & Hf) _].
        pose proof (Hadm _ _ _ _ _ (Huniv _ (mk_is_Some _ _ Hr)) Hh Hrun Hgoal).
        exists k, s. split; [done|]. lra.
      + apply run_plan_cons in Hrun
          as (possible & s' & c & total' & Hav & Hin & Hdo & Hc & Hrest & ->).
        destruct (Hrel _ _ Hav Hin) as (s'' & c' & r' & Hdo' & Hc' & Hr' & Hle).
        assert (s'' = s') as -> by congruence. assert (c' = c) as -> by congruence.
        destruct (IH _ _ _ Hr' Hrest) as (k & s0 & Hin0 & Hle0).
        exists k, s0. split; [done|]. lra. }
  destruct (Hgen _ _ _ _ Hr0 Hrun) as (k & s & Hin & Hle).
  exists k, s. split; [done|]. lra.
Qed.
End OptimalityLemmas.

(** A consistent heuristic that is at most zero on goals is admissible. *)
Lemma consistent_admissible {State : Type} (P : Problem State) :
  consistent P →
  (∀ s h, is_goal P s = Ok true → heuristic P s = Ok h → (h <= 0)%Q) →
  (∀ s a s', do_action P s a = Ok s' → ∃ h', heuristic P s' = Ok h') →
  admissible P.
Proof.
  intros Hcons Hgoal Hdef s h plan. revert s h.
  induction plan as [|a plan IH]; intros s h t total Hh Hrun Ht.
  - injection Hrun as <- <-. by eapply Hgoal.
  - apply run_plan_cons in Hrun
      as (possible & s' & c & total' & Hav & Hin & Hdo & Hc & Hrest & ->).
    destruct (Hdef _ _ _ Hdo) as [h' Hh'].
    pose proof (Hcons _ _ _ _ _ _ _ Hav Hin Hdo Hc Hh Hh').
    pose proof (IH _ _ _ _ Hh' Hrest Ht). lra.
Qed.

(** The search returns a cheapest plan; the heuristic is constrained on the
    universe only. *)
Lemma astar_optimal_on {State : Type} `{Countable State} (P : Problem State)
    (univ : list State) :
  closed_universe P univ → nonneg_costs P →
  nonneg_heuristic_on P univ → admissible_on P univ →
  goal_reachable P →
  ∃ rep t total,
    (∃ fuel0, ∀ fuel, (fuel0 ≤ fuel)%N → astar P fuel = Ok rep) ∧
    run_plan P (initial_state P) (solution rep) = Ok (t, total) ∧
    is_goal P t = Ok true ∧
    ∀ plan' t' total',
      run_plan P (initial_state P) plan' = Ok (t', total') → is_goal P t' = Ok true →
      (total <= total')%Q.
Proof.
  intros Hclosed Hnn Hnh Hadm (plan0 & t0 & total0 & Hrun0 & Hgoal0).
  pose proof Hclosed as [Hinit Hcl].
  destruct (Hcl _ Hinit) as (_ & (h0 & Hh0) & _).
  set (fuel1 := N.succ (N.of_nat
    (measure P univ (v_q (start P h0 h0)) (v_revealed (start P h0 h0))))).
  destruct (search_terminates P univ Hclosed Hnn fuel1 h0 Hh0) as [v Hs]; [lia|].
  destruct (search_Ok _ _ _ Hs) as (v0 & Hhead & Hbreak).
  pose proof (frontier_head_at _ _ Hclosed Hnn _ Hhead) as [[_ _ Hqueue Hord] _].
  pose proof (table_sound_head _ _ Hhead) as Hsound.
  pose proof (table_rooted_head _ Hnn _ Hhead) as Hroot.
  pose proof (frontier_head_at _ _ Hclosed Hnn _ Hhead) as [[Huniv _ _ _] _].
  apply iteration_Break in Hbreak as [[Hget ->]|(current & q & r & Hget & Hr & Hgoal & ->)].
  { destruct (frontier_bound _ _ Hclosed Hnn _ _ _ _ Hadm Hhead Hrun0 Hgoal0)
      as (k & s & Hin & _).
    apply get_None in Hget. unfold queue, entry in *. rewrite Hget in Hin.
    by apply elem_of_nil in Hin. }
  destruct current as [k cs]. cbn in *.
  destruct Hroot as [Hroot0 Hall]. destruct (Hall _ _ Hr) as (_ & _ & (l & Hl)).
  set (fuel0 := N.max fuel1 (N.succ (N.of_nat (length l)))).
  destruct (chain_reconstruct _ _ l [] fuel0 Hl) as [sol Hsol];
    [apply N.max_lt_iff; right; lia|].
  destruct (reconstruct_cost P _ _ _ _ _ Hsound (conj Hroot0 Hall) Hr Hsol)
    as (total & Hrun & Htotal).
  exists (Report (rev sol) (N.succ (v_x v0)) (N.of_nat (size (v_revealed v0)))), cs, total.
  split; [|split; [done|split; [done|]]].
  - exists fuel0. intros fuel Hfuel.
    apply (astar_intro P fuel (Vars q (v_revealed v0) (N.succ (v_x v0)) (Some cs)) cs sol).
    + eapply search_mono; [done|]. unfold fuel0 in Hfuel. lia.
    + done.
    + cbn. unfold reconstruct in *. by eapply while_mono.
  - intros plan' t' total' Hrun' Hgoal'.
    destruct (frontier_bound _ _ Hclosed Hnn _ _ _ _ Hadm Hhead Hrun' Hgoal')
      as (k' & s' & Hin & Hle).
    destruct (ordered_get _ _ cost_le_trans (entry_ltb_true P) (entry_ltb_false P)
                _ _ _ Hord Hget) as [_ Hmin].
    assert (k <= k')%Q as Hkk'.
    { apply (elem_of_q_get _ _ _ _ _ Hget) in Hin as [[= -> ->]|Hin]; [lra|].
      rewrite Forall_forall in Hmin. apply (Hmin _ Hin). }
    destruct (Hqueue k cs) as (r' & Hr' & Hf).
    { apply (elem_of_q_get _ _ _ _ _ Hget). by left. }
    assert (r' = r) as -> by congruence.
    destruct (Hsound _ _ Hr) as [(h & Hh & Hfg) _].
    pose proof (Hnh _ _ (Huniv _ (mk_is_Some _ _ Hr)) Hh). lra.
Qed.

(** ** The 8-puzzle: its states and heuristics *)

Lemma find_position_locate (s : Puzzle.state) (num : Z) :
  Puzzle.find_position s num = Ok (Puzzle.locate s num).
Proof.
  destruct s as [[[[a b] c] [[d e] f]] [[g h] i]].
  cbv -[Z.eqb].
  destruct (a =? num); [done|]. destruct (b =? num); [done|].
  destruct (c =? num); [done|]. destruct (d =? num); [done|].
  destruct (e =? num); [done|]. destruct (f =? num); [done|].
  destruct (g =? num); [done|]. destruct (h =? num); [done|].
  by destruct (i =? num).
Qed.

Lemma elem_of_universe (s : Puzzle.state) : s ∈ Puzzle.universe ↔ Puzzle.good s.
Proof.
  unfold Puzzle.universe, Puzzle.good. rewrite list_elem_of_fmap. split.
  - intros (l & -> & Hl%permutations_Permutation).
    pose proof (Permutation_length Hl) as Hlen.
    do 10 (destruct l as [|? l]; try done).
  - intros Hs. exists (Puzzle.cells s). split.
    + by destruct s as [[[[a b] c] [[d e] f]] [[g h] i]].
    + by apply permutations_Permutation.
Qed.

(** What [locate] finds is the first cell that holds the tile. *)
Lemma locate_Some (s : Puzzle.state) (v : Z) :
  v ∈ Puzzle.cells s → is_Some (Puzzle.locate s v).
Proof.
  destruct s as [[[[a b] c] [[d e] f]] [[g h] i]]. unfold Puzzle.locate. cbn.
  intros Hin.
  repeat (match goal with |- context [?x =? v] =>
    destruct (Z.eqb_spec x v); [by eexists|] end).
  repeat (apply elem_of_cons in Hin as [->|Hin]; [done|]).
  by apply elem_of_nil in Hin.
Qed.

(** Reading a proof of [NoDup] of an explicit list as disequalities. *)
Ltac nodup_facts H :=
  repeat match type of H with
  | NoDup (_ :: _) =>
      let Hn := fresh "Hn" in
      apply NoDup_cons in H as [Hn H];
      repeat (apply not_elem_of_cons in Hn as [? Hn])
  end.

Lemma good_NoDup (s : Puzzle.state) : Puzzle.good s → NoDup (Puzzle.cells s).
Proof.
  intros Hs. unfold Puzzle.good in Hs. rewrite Hs.
  unfold Puzzle.tiles, range. apply NoDup_fmap; [apply _|]. apply NoDup_seq.
Qed.

(** On a good grid every tile is found in its cell. *)
Lemma total_distance_cells (s : Puzzle.state) :
  Puzzle.good s →
  Puzzle.sum (Puzzle.home_distance s <$> Puzzle.cells s) = Puzzle.total_distance s.
Proof.
  intros Hs%good_NoDup.
  destruct s as [[[[a b] c] [[d e] f]] [[g h] i]]. cbn in Hs. nodup_facts Hs.
  unfold Puzzle.home_distance, Puzzle.locate, Puzzle.total_distance. cbn.
  rewrite !Z.eqb_refl.
  repeat match goal with
  | Hne : ?x ≠ ?y |- context [?x =? ?y] => rewrite (proj2 (Z.eqb_neq x y) Hne)
  | Hne : ?x ≠ ?y |- context [?y =? ?x] => rewrite (proj2 (Z.eqb_neq y x) (not_eq_sym Hne))
  end.
  lia.
Qed.

Lemma sum_Permutation (l k : list Z) : l ≡ₚ k → Puzzle.sum l = Puzzle.sum k.
Proof. unfold Puzzle.sum. induction 1; cbn in *; lia. Qed.

Lemma for_each_sum {A : Type} (f : Z → A → res Z) (G : A → Z) (l : list A) (acc : Z) :
  (∀ acc x, x ∈ l → f acc x = Ok (acc + G x)) →
  for_each f l acc = Ok (acc + Puzzle.sum (G <$> l)).
Proof.
  revert acc. induction l as [|x l IH]; intros acc Hf; cbn.
  - f_equal. unfold Puzzle.sum. cbn. lia.
  - rewrite Hf by apply list_elem_of_here. cbn. rewrite IH.
    + f_equal. unfold Puzzle.sum. cbn. lia.
    + intros acc' y Hy. apply Hf. by apply list_elem_of_further.
Qed.

Lemma heuristic_total_distance (s : Puzzle.state) :
  Puzzle.good s →
  Puzzle.heuristic s = Ok (inject_Z (Puzzle.total_distance s) / 2)%Q.
Proof.
  intros Hs. unfold Puzzle.heuristic.
  rewrite (for_each_sum _ (Puzzle.home_distance s)).
  - unfold mbind, res_mbind, res_bind.
    rewrite <-(total_distance_cells s Hs).
    rewrite (sum_Permutation (Puzzle.home_distance s <$> Puzzle.cells s)
               (Puzzle.home_distance s <$> range 9))
      by (unfold Puzzle.good in Hs; by rewrite Hs).
    by rewrite Z.add_0_l.
  - intros acc v Hv. rewrite find_position_locate. cbn.
    unfold Puzzle.home_distance.
    destruct (locate_Some s v) as [[i j] Hloc].
    { unfold Puzzle.good in Hs. by rewrite Hs. }
    rewrite Hloc. cbn. done.
Qed.

Lemma heuristic2_misplaced (s : Puzzle.state) :
  Puzzle.heuristic2 s = Ok (inject_Z (Puzzle.misplaced s) / 2)%Q.
Proof.
  destruct s as [[[[a b] c] [[d e] f]] [[g h] i]].
  unfold Puzzle.heuristic2, Puzzle.misplaced, Puzzle.off.
  cbv -[Z.eqb Z.add inject_Z Qdiv].
  destruct (a =? 0), (b =? 1), (c =? 2), (d =? 3), (e =? 4), (f =? 5), (g =? 6),
    (h =? 7), (i =? 8); reflexivity.
Qed.

Lemma heuristic1_blank (s : Puzzle.state) :
  0 ∈ Puzzle.cells s → Puzzle.heuristic1 s = Ok (inject_Z (Puzzle.blank_distance s)).
Proof.
  intros [[i j] Hloc]%locate_Some.
  unfold Puzzle.heuristic1, Puzzle.blank_distance.
  rewrite find_position_locate, Hloc. done.
Qed.

Lemma off_range (v e : Z) : 0 ≤ Puzzle.off v e ≤ 1.
Proof. unfold Puzzle.off. destruct (v =? e); lia. Qed.

Lemma misplaced_nonneg (s : Puzzle.state) : 0 ≤ Puzzle.misplaced s.
Proof.
  destruct s as [[[[a b] c] [[d e] f]] [[g h] i]]. unfold Puzzle.misplaced.
  pose proof (off_range a 0). pose proof (off_range b 1). pose proof (off_range c 2).
  pose proof (off_range d 3). pose proof (off_range e 4). pose proof (off_range f 5).
  pose proof (off_range g 6). pose proof (off_range h 7). pose proof (off_range i 8).
  lia.
Qed.

Lemma distance_nonneg (i j v : Z) : 0 ≤ Puzzle.distance i j v.
Proof. unfold Puzzle.distance. lia. Qed.

(** Between neighbouring cells the distance to a home changes by one. *)
Lemma distance_step (i j i' j' v : Z) :
  Z.abs (i - i') + Z.abs (j - j') ≤ 1 →
  Puzzle.distance i j v ≤ 1 + Puzzle.distance i' j' v.
Proof. unfold Puzzle.distance. lia. Qed.

Lemma total_distance_nonneg (s : Puzzle.state) : 0 ≤ Puzzle.total_distance s.
Proof.
  destruct s as [[[[a b] c] [[d e] f]] [[g h] i]]. unfold Puzzle.total_distance.
  pose proof (distance_nonneg 0 0 a). pose proof (distance_nonneg 0 1 b).
  pose proof (distance_nonneg 0 2 c). pose proof (distance_nonneg 1 0 d).
  pose proof (distance_nonneg 1 1 e). pose proof (distance_nonneg 1 2 f).
  pose proof (distance_nonneg 2 0 g). pose proof (distance_nonneg 2 1 h).
  pose proof (distance_nonneg 2 2 i). lia.
Qed.

Lemma blank_distance_nonneg (s : Puzzle.state) : 0 ≤ Puzzle.blank_distance s.
Proof.
  destruct s as [[[[a b] c] [[d e] f]] [[g h] i]].
  unfold Puzzle.blank_distance, Puzzle.locate.
  repeat (match goal with |- context [?x =? 0] => destruct (x =? 0); [lia|] end). lia.
Qed.

(** Proving that one explicit list is a rearrangement of another. *)
Ltac split_at x r :=
  lazymatch r with
  | x :: ?r2 => constr:((@nil Z, r2))
  | ?y :: ?r' =>
      let p := split_at x r' in
      lazymatch p with
      | (?r1, ?r2) => constr:((y :: r1, r2))
      end
  end.

Ltac rearranged :=
  repeat lazymatch goal with
  | |- [] ≡ₚ [] => reflexivity
  | |- ?x :: ?l ≡ₚ ?r =>
      let p := split_at x r in
      lazymatch p with
      | (?r1, ?r2) => apply (@Permutation_cons_app Z l r1 r2 x); cbn [app]
      end
  end.

(** A move on a good grid exchanges the blank with a neighbour: the grid
    stays good, the sum of the distances and the number of misplaced tiles
    change by at most two, and the blank moves by one. *)
Lemma puzzle_move (s : Puzzle.state) (possible : list string) (act : string) :
  Puzzle.good s → Puzzle.available_actions s = Ok possible → act ∈ possible →
  ∃ s', Puzzle.do_action s act = Ok s' ∧ Puzzle.good s' ∧
        Puzzle.total_distance s ≤ 2 + Puzzle.total_distance s' ∧
        Puzzle.misplaced s ≤ 2 + Puzzle.misplaced s' ∧
        Puzzle.blank_distance s ≤ 1 + Puzzle.blank_distance s'.
Proof.
  intros Hgood. pose proof (good_NoDup _ Hgood) as Hnd.
  assert (0 ∈ Puzzle.cells s) as H0.
  { unfold Puzzle.good in Hgood. rewrite Hgood. apply list_elem_of_here. }
  unfold Puzzle.good in *.
  destruct s as [[[[a b] c] [[d e] f]] [[g h] i]]. cbn in Hnd, H0, Hgood.
  nodup_facts Hnd.
  unfold Puzzle.available_actions, Puzzle.do_action. rewrite !find_position_locate.
  repeat (apply elem_of_cons in H0 as [H0|H0]; [subst|]); [..|by apply elem_of_nil in H0].
  all: unfold Puzzle.locate at 1 2;
    repeat match goal with
    | Hne : ?x ≠ ?y |- context [?x =? ?y] => rewrite (proj2 (Z.eqb_neq x y) Hne)
    | Hne : ?x ≠ ?y |- context [?y =? ?x] => rewrite (proj2 (Z.eqb_neq y x) (not_eq_sym Hne))
    end;
    cbn; intros [= <-] Hin; apply list_elem_of_In in Hin; cbn in Hin.
  all: repeat (destruct Hin as [<-|Hin]; [|]); try done.
  all: eexists; (split; [cbv; reflexivity|]).
  all: split; [rewrite <-Hgood; cbn; rearranged|].
  all: split;
    [clear; unfold Puzzle.total_distance;
     repeat match goal with
     | |- context [Puzzle.distance ?i ?j ?x] =>
         match goal with
         | |- context [Puzzle.distance ?i' ?j' x] =>
             lazymatch goal with
             | _ : Puzzle.distance i j x ≤ 1 + Puzzle.distance i' j' x |- _ => fail
             | _ => idtac
             end;
             assert (Puzzle.distance i j x ≤ 1 + Puzzle.distance i' j' x)
               by (apply distance_step; cbn; lia)
         end
     end; lia|].
  all: split;
    [clear; unfold Puzzle.misplaced;
     repeat match goal with
     | |- context [Puzzle.off ?x ?y] =>
         pose proof (off_range x y); generalize dependent (Puzzle.off x y); intros
     end; lia|].
  all: unfold Puzzle.blank_distance, Puzzle.locate;
    repeat match goal with
    | Hne : ?x ≠ ?y |- context [?x =? ?y] => rewrite (proj2 (Z.eqb_neq x y) Hne)
    | Hne : ?x ≠ ?y |- context [?y =? ?x] => rewrite (proj2 (Z.eqb_neq y x) (not_eq_sym Hne))
    end; clear; cbn; lia.
Qed.

(** ** The 8-puzzle under a heuristic that a move changes by at most one *)

(** The plans and their costs do not depend on the heuristic. *)
Lemma run_plan_with_heuristic (h : Puzzle.state → res Q) (s : Puzzle.state)
    (plan : list string) :
  run_plan (Puzzle.with_heuristic h) s plan = run_plan Puzzle.problem s plan.
Proof. reflexivity. Qed.

(** Every move costs one: the cost of a plan is its length. *)
Lemma puzzle_unit_cost (s t : Puzzle.state) (plan : list string) (total : Q) :
  run_plan Puzzle.problem s plan = Ok (t, total) →
  (total == inject_Z (Z.of_nat (length plan)))%Q.
Proof.
  revert s total. induction plan as [|a plan IH]; intros s total Hrun.
  - by injection Hrun as <- <-.
  - apply run_plan_cons in Hrun
      as (possible & s' & c & total' & _ & _ & _ & Hc & Hrest & ->).
    injection Hc as <-. rewrite (IH _ _ Hrest). cbn [length].
    rewrite Nat2Z.inj_succ, <-Z.add_1_l, inject_Z_plus. reflexivity.
Qed.

Lemma puzzle_good_initial : Puzzle.good Puzzle.initial_state.
Proof. unfold Puzzle.good. cbv. rearranged. Qed.

Lemma puzzle_available (s : Puzzle.state) :
  Puzzle.good s → ∃ possible, Puzzle.available_actions s = Ok possible.
Proof.
  intros Hs. destruct (locate_Some s 0) as [p Hloc].
  { unfold Puzzle.good in Hs. rewrite Hs. apply list_elem_of_here. }
  unfold Puzzle.available_actions. rewrite find_position_locate, Hloc.
  by eexists.
Qed.

Lemma puzzle_plan26 :
  run_plan Puzzle.problem Puzzle.initial_state Puzzle.plan26 =
  Ok (Puzzle.expected_state, 26%Q).
Proof. by vm_compute. Qed.

Lemma puzzle_nonneg_costs (h : Puzzle.state → res Q) :
  nonneg_costs (Puzzle.with_heuristic h).
Proof. intros s a c [= <-]. done. Qed.

Lemma puzzle_goal_reachable (h : Puzzle.state → res Q) :
  goal_reachable (Puzzle.with_heuristic h).
Proof.
  exists Puzzle.plan26, Puzzle.expected_state, 26%Q. split; [|done].
  rewrite run_plan_with_heuristic. apply puzzle_plan26.
Qed.

Section PuzzleHeuristic.
Variable h : Puzzle.state → res Q.
Variable q : Puzzle.state → Q.
Hypothesis Hh : ∀ s, Puzzle.good s → h s = Ok (q s).
Hypothesis Hnonneg : ∀ s, Puzzle.good s → (0 <= q s)%Q.
Hypothesis Hgoal : (q Puzzle.expected_state <= 0)%Q.
Hypothesis Hstep : ∀ s possible act s',
  Puzzle.good s → Puzzle.available_actions s = Ok possible → act ∈ possible →
  Puzzle.do_action s act = Ok s' → (q s <= 1 + q s')%Q.

Lemma puzzle_closed_universe :
  closed_universe (Puzzle.with_heuristic h) Puzzle.universe.
Proof.
  split; [apply elem_of_universe, puzzle_good_initial|].
  intros s Hs%elem_of_universe. split; [by eexists|].
  split; [exists (q s); by apply Hh|].
  destruct (puzzle_available s Hs) as [possible Hav].
  exists possible. split; [done|]. intros a Ha. split; [by eexists|].
  destruct (puzzle_move s possible a Hs Hav Ha) as (s' & Hdo & Hgood' & _).
  exists s'. split; [done|]. by apply elem_of_universe.
Qed.

Lemma puzzle_nonneg_heuristic_on :
  nonneg_heuristic_on (Puzzle.with_heuristic h) Puzzle.universe.
Proof.
  intros s h0 Hs%elem_of_universe Hh0. cbn in Hh0.
  rewrite (Hh s Hs) in Hh0. injection Hh0 as <-. by apply Hnonneg.
Qed.

Lemma puzzle_admissible_on :
  admissible_on (Puzzle.with_heuristic h) Puzzle.universe.
Proof.
  intros s h0 plan t total Hs%elem_of_universe Hh0 Hrun Ht. cbn in Hh0.
  rewrite (Hh s Hs) in Hh0. injection Hh0 as <-.
  cbn in Ht. injection Ht as Ht. apply bool_decide_eq_true in Ht. subst t.
  revert s total Hs Hrun. induction plan as [|a plan IH]; intros s total Hs Hrun.
  - injection Hrun as -> <-. done.
  - apply run_plan_cons in Hrun
      as (possible & s' & c & total' & Hav & Hin & Hdo & Hc & Hrest & ->).
    change (Puzzle.available_actions s = Ok possible) in Hav.
    change (Puzzle.do_action s a = Ok s') in Hdo. injection Hc as <-.
    destruct (puzzle_move s possible a Hs Hav Hin) as (s'' & Hdo' & Hgood' & _).
    assert (s'' = s') as -> by congruence.
    pose proof (Hstep _ _ _ _ Hs Hav Hin Hdo).
    pose proof (IH _ _ Hgood' Hrest). lra.
Qed.

(** The search returns a plan to the goal grid, and no plan to the goal grid
    is shorter. *)
Lemma puzzle_optimal :
  ∃ rep total,
    (∃ fuel0, ∀ fuel, (fuel0 ≤ fuel)%N →
       astar (Puzzle.with_heuristic h) fuel = Ok rep) ∧
    run_plan Puzzle.problem Puzzle.initial_state (solution rep) =
      Ok (Puzzle.expected_state, total) ∧
    ∀ plan' total',
      run_plan Puzzle.problem Puzzle.initial_state plan' =
        Ok (Puzzle.expected_state, total') →
      (length (solution rep) ≤ length plan')%nat.
Proof.
  destruct (astar_optimal_on (Puzzle.with_heuristic h) Puzzle.universe
              puzzle_closed_universe (puzzle_nonneg_costs h)
              puzzle_nonneg_heuristic_on puzzle_admissible_on
              (puzzle_goal_reachable h))
    as (rep & t & total & Hfuel & Hrun & Ht & Hopt).
  cbn in Ht. injection Ht as Ht. apply bool_decide_eq_true in Ht. subst t.
  exists rep, total. split; [done|]. split; [exact Hrun|].
  intros plan' total' Hrun'.
  pose proof (Hopt plan' _ _ Hrun' eq_refl) as Hle.
  rewrite (puzzle_unit_cost _ _ _ _ Hrun), (puzzle_unit_cost _ _ _ _ Hrun') in Hle.
  rewrite <-Zle_Qle in Hle. lia.
Qed.
End PuzzleHeuristic.

Lemma half_step (x y : Z) :
  x ≤ 2 + y → (inject_Z x / 2 <= 1 + inject_Z y / 2)%Q.
Proof.
  intros Hle. rewrite Zle_Qle, inject_Z_plus in Hle.
  change (inject_Z 2) with 2%Q in Hle. unfold Qdiv. change (/ 2)%Q with (1 # 2)%Q. lra.
Qed.

Lemma half_nonneg (x : Z) : 0 ≤ x → (0 <= inject_Z x / 2)%Q.
Proof.
  intros Hle. rewrite Zle_Qle in Hle. change (inject_Z 0) with 0%Q in Hle.
  unfold Qdiv. change (/ 2)%Q with (1 # 2)%Q. lra.
Qed.

(** With each of the three heuristics the search returns a plan to the goal
    grid, and no plan to the goal grid is shorter. *)
Lemma puzzle_heuristics_optimal (P : Problem Puzzle.state) :
  P ∈ [Puzzle.problem; Puzzle.problem1; Puzzle.problem2] →
  ∃ rep total,
    (∃ fuel0, ∀ fuel, (fuel0 ≤ fuel)%N → astar P fuel = Ok rep) ∧
    run_plan Puzzle.problem Puzzle.initial_state (solution rep) =
      Ok (Puzzle.expected_state, total) ∧
    ∀ plan' total',
      run_plan Puzzle.problem Puzzle.initial_state plan' =
        Ok (Puzzle.expected_state, total') →
      (length (solution rep) ≤ length plan')%nat.
Proof.
  intros HP. repeat (apply elem_of_cons in HP as [->|HP]);
    [| | |by apply elem_of_nil in HP].
  - apply (puzzle_optimal Puzzle.heuristic
             (λ s, inject_Z (Puzzle.total_distance s) / 2)%Q).
    + apply heuristic_total_distance.
    + intros s _. apply half_nonneg, total_distance_nonneg.
    + done.
    + intros s possible act s' Hs Hav Hin Hdo.
      destruct (puzzle_move s possible act Hs Hav Hin) as (s'' & Hdo' & _ & Hle & _).
      assert (s'' = s') as -> by congruence. by apply half_step.
  - apply (puzzle_optimal Puzzle.heuristic1
             (λ s, inject_Z (Puzzle.blank_distance s))).
    + intros s Hs. apply heuristic1_blank. unfold Puzzle.good in Hs. rewrite Hs.
      apply list_elem_of_here.
    + intros s _. pose proof (blank_distance_nonneg s) as Hle.
      rewrite Zle_Qle in Hle. exact Hle.
    + done.
    + intros s possible act s' Hs Hav Hin Hdo.
      destruct (puzzle_move s possible act Hs Hav Hin) as (s'' & Hdo' & _ & _ & _ & Hle).
      assert (s'' = s') as -> by congruence.
      rewrite Zle_Qle, inject_Z_plus in Hle. exact Hle.
  - apply (puzzle_optimal Puzzle.heuristic2
             (λ s, inject_Z (Puzzle.misplaced s) / 2)%Q).
    + intros s _. apply heuristic2_misplaced.
    + intros s _. apply half_nonneg, misplaced_nonneg.
    + done.
    + intros s possible act s' Hs Hav Hin Hdo.
      destruct (puzzle_move s possible act Hs Hav Hin) as (s'' & Hdo' & _ & _ & Hle & _).
      assert (s'' = s') as -> by congruence. by apply half_step.
Qed.

(** ** The addition of the problem's numbers *)

Section Arithmetic.
Context {State : Type} `{Countable State}.
Variable add : Q → Q → Q.
Variable P : Problem State.

(** A larger budget does not change what the search returns, whatever the
    addition. *)
Lemma search_with_mono fuel fuel' v :
  search_with add P fuel = Ok v → (fuel ≤ fuel')%N → search_with add P fuel' = Ok v.
Proof.
  unfold search_with. cbv zeta. intros Hs Hle. bind_inv Hs. bind_inv Hs. rewrite E. cbn.
  assert (a0 = a) as -> by congruence.
  by eapply while_mono.
Qed.

Lemma astar_with_mono fuel fuel' rep :
  astar_with add P fuel = Ok rep → (fuel ≤ fuel')%N → astar_with add P fuel' = Ok rep.
Proof.
  unfold astar_with. intros Ha Hle. bind_inv Ha. rename a into v.
  rewrite (search_with_mono _ _ _ E Hle). cbn.
  bind_inv Ha. rename a into cs. rewrite E0. cbn.
  bind_inv Ha. rename a into sol. unfold reconstruct in *.
  by rewrite (while_mono _ _ _ _ _ E1 Hle).
Qed.

Hypothesis Hexact : exact_arithmetic add.

Lemma relax_with_exact cs cc st p : relax_with add P cs cc st p = relax P cs cc st p.
Proof.
  destruct st as [q rv]. unfold relax_with.
  destruct (do_action P cs p) as [ns| |]; cbn; [|done..].
  destruct (action_cost P cs p) as [c| |]; cbn; [|done..].
  destruct (heuristic P ns) as [h| |]; cbn; [|done..].
  by rewrite !Hexact.
Qed.

Lemma iteration_with_exact v : iteration_with add P v = iteration P v.
Proof.
  unfold iteration_with. destruct (q_get P (v_q v)) as [[current q]|]; [|done].
  destruct (subscript (v_revealed v) current.2) as [r| |]; cbn; [|done..].
  destruct (is_goal P current.2) as [[]| |]; cbn; [done| |done..].
  destruct (available_actions P current.2) as [possible| |]; cbn; [|done..].
  unfold for_actions_with. by rewrite (for_each_ext _ _ _ _ (relax_with_exact _ _)).
Qed.

Lemma search_with_exact fuel : search_with add P fuel = search P fuel.
Proof.
  unfold search_with.
  destruct (heuristic P (initial_state P)) as [h0| |]; cbn; [|done..].
  by rewrite (while_ext _ _ _ _ iteration_with_exact).
Qed.

(** With an addition that does not round, the search is the one on exact
    numbers. *)
Lemma astar_with_exact fuel : astar_with add P fuel = astar P fuel.
Proof.
  unfold astar_with, search_with.
  destruct (heuristic P (initial_state P)) as [h0| |]; cbn; [|done..].
  by rewrite (while_ext _ _ _ _ iteration_with_exact).
Qed.
End Arithmetic.

Lemma exact_Qplus : exact_arithmetic Qplus.
Proof. by intros a b. Qed.

(** ** Points of a search that are reached by running it *)

Lemma passes_reach {State : Type} `{Countable State} (P : Problem State)
    (n : nat) (v0 v : vars State) :
  passes P n v0 = Ok v → loop_reach (iteration P) v0 v.
Proof.
  revert v. induction n as [|n IH]; intros v Hp.
  - injection Hp as <-. apply reach_start.
  - cbn in Hp. bind_inv Hp. rename a into v'. bind_inv Hp.
    destruct a as [v''|]; [|done]. injection Hp as <-.
    eapply reach_next; [by apply IH|done].
Qed.

Lemma vacuum_head_at : at_head Vacuum.problem (vacuum_head 3).
Proof.
  exists (inject_Z 2). split; [reflexivity|].
  apply (passes_reach Vacuum.problem 3). by vm_compute.
Qed.

Lemma vacuum_head_point :
  search_point Vacuum.problem (v_q (vacuum_head 3)) (v_revealed (vacuum_head 3)).
Proof. left. exists (vacuum_head 3). split; [apply vacuum_head_at|done]. Qed.

(** ** The problem with float costs *)

Lemma rounding_ordered_states : ordered_states Rounding.problem.
Proof.
  split; [|split]; cbn.
  - intros s. apply Z.ltb_irrefl.
  - intros s t u Hst%Z.ltb_lt Htu%Z.ltb_lt. apply Z.ltb_lt. lia.
  - intros s t Hne. rewrite !Z.ltb_lt. lia.
Qed.

Lemma rounding_closed_universe : closed_universe Rounding.problem Rounding.universe.
Proof.
  split; [apply list_elem_of_here|].
  intros s Hs. split; [by eexists|]. split; [by eexists|].
  eexists. split; [reflexivity|]. intros a Ha.
  apply list_elem_of_In in Hs. cbn in Hs.
  repeat (destruct Hs as [<-|Hs]; [|]); try done;
    apply list_elem_of_In in Ha; cbn in Ha;
    repeat (destruct Ha as [<-|Ha]; [|]); try done;
    (split; [by eexists|]; eexists; split; [reflexivity|];
     apply list_elem_of_In; cbn; tauto).
Qed.

Lemma rounding_nonneg_costs : nonneg_costs Rounding.problem.
Proof.
  intros s a c. cbn. unfold Rounding.action_cost.
  destruct (String.eqb a "b"); [intros [= <-]; by vm_compute|].
  destruct (String.eqb a "c"); intros [= <-]; by vm_compute.
Qed.

Lemma rounding_nonneg_heuristic : nonneg_heuristic Rounding.problem.
Proof. by intros s h [= <-]. Qed.

Lemma rounding_consistent : consistent Rounding.problem.
Proof.
  intros s possible a s' c h h' _ _ _ Hc [= <-] [= <-].
  pose proof (rounding_nonneg_costs _ _ _ Hc). lra.
Qed.

Lemma rounding_admissible : admissible Rounding.problem.
Proof.
  intros s h plan t total [= <-] Hrun _.
  apply (run_plan_nonneg Rounding.problem _ _ _ _ rounding_nonneg_costs Hrun).
Qed.

Lemma rounding_goal_reachable : goal_reachable Rounding.problem.
Proof.
  exists ["c"; "d"]%string. eexists _, _. split; [by vm_compute|done].
Qed.

(** * The claims of the specification *)

(** ** The example problems *)

Lemma vacuum_nonneg_costs : nonneg_costs Vacuum.problem.
Proof. intros s a c [= <-]. done. Qed.

Lemma vacuum_invalid_action (s : Vacuum.state) (a : string) (possible : list string) :
  Vacuum.available_actions s = Ok possible → a ∉ possible →
  Vacuum.do_action s a = Raise (Exception "Invalid action").
Proof.
  intros [= <-] Hnin. destruct s as [robot dirty]. unfold Vacuum.do_action.
  destruct (String.eqb_spec a "Left") as [->|_]; [set_solver|].
  destruct (String.eqb_spec a "Suck") as [->|_]; [set_solver|].
  destruct (String.eqb_spec a "Right") as [->|_]; [set_solver|]. done.
Qed.

Lemma dirty_count_nonneg (dirty : list bool) : 0 ≤ Vacuum.dirty_count dirty.
Proof. induction dirty as [|[] dirty IH]; cbn [Vacuum.dirty_count Z.b2z]; lia. Qed.

Lemma dirty_count_clean (dirty : list bool) (n : nat) :
  Vacuum.dirty_count dirty ≤ 1 + Vacuum.dirty_count (<[n := false]> dirty).
Proof.
  revert n. induction dirty as [|b dirty IH]; intros n.
  - destruct n; cbn; lia.
  - destruct n as [|n].
    + change (<[0%nat := false]> (b :: dirty)) with (false :: dirty).
      cbn [Vacuum.dirty_count]. destruct b; cbn [Z.b2z]; lia.
    + change (<[S n := false]> (b :: dirty)) with (b :: <[n := false]> dirty).
      cbn [Vacuum.dirty_count]. specialize (IH n). lia.
Qed.

Lemma dirty_count_goal (dirty : list bool) :
  existsb id dirty = false → Vacuum.dirty_count dirty = 0.
Proof.
  induction dirty as [|[] dirty IH]; cbn; [done|done|].
  intros Hd. by rewrite IH.
Qed.

Lemma vacuum_nonneg_heuristic : nonneg_heuristic Vacuum.problem.
Proof.
  intros s h [= <-]. rewrite <-(Zle_Qle 0). apply dirty_count_nonneg.
Qed.

Lemma vacuum_consistent : consistent Vacuum.problem.
Proof.
  intros [robot dirty] possible a s' c h h' _ _ Hdo [= <-] [= <-] [= <-].
  cbn in Hdo. unfold Vacuum.do_action in Hdo.
  change 1%Q with (inject_Z 1). rewrite <-inject_Z_plus, <-Zle_Qle.
  destruct (String.eqb a "Left"); [injection Hdo as <-; cbn; lia|].
  destruct (String.eqb a "Suck").
  - bind_inv Hdo. injection Hdo as <-. cbn.
    unfold list_setitem in E. bind_inv E. injection E as <-. apply dirty_count_clean.
  - destruct (String.eqb a "Right"); [injection Hdo as <-; cbn; lia|done].
Qed.

Lemma vacuum_admissible : admissible Vacuum.problem.
Proof.
  apply consistent_admissible.
  - apply vacuum_consistent.
  - intros [robot dirty] h [= Hg] [= <-]. cbn in *.
    apply negb_true_iff, dirty_count_goal in Hg. by rewrite Hg.
  - intros s a s' _. by eexists.
Qed.

Lemma vacuum_closed_universe : closed_universe Vacuum.problem Vacuum.universe.
Proof.
  split; [apply list_elem_of_here|].
  intros s Hs. split; [by eexists|]. split; [by eexists|].
  exists ["Left"; "Suck"; "Right"]%string. split; [done|].
  intros a Ha. split; [by eexists|].
  apply list_elem_of_In in Hs. cbn in Hs.
  repeat (destruct Hs as [<-|Hs]; [|]); try done;
    apply list_elem_of_In in Ha; cbn in Ha;
    repeat (destruct Ha as [<-|Ha]; [|]); try done;
    (eexists; split; [reflexivity|]; apply list_elem_of_In; cbn; tauto).
Qed.

Lemma vacuum_goal_reachable : goal_reachable Vacuum.problem.
Proof.
  exists ["Suck"; "Right"; "Suck"]%string. eexists _, _. split; [by vm_compute|done].
Qed.

(** C1 (the code departs from the claim). In a state graph without a goal
    the first loop ends with an empty queue, and [astar] then returns the
    actions that lead to the state it took from the queue last: a list of
    actions, not the absence of a path. *)
Theorem astar_dead_end :
  (∀ plan t total,
     run_plan DeadEnd.problem (initial_state DeadEnd.problem) plan = Ok (t, total) →
     is_goal DeadEnd.problem t = Ok false) ∧
  ∀ extra : N, astar DeadEnd.problem (3 + extra) = Ok (Report ["go"%string] 2 2).
Proof.
  split; [done|].
  intros extra. apply (astar_mono _ 3); [by vm_compute | lia].
Qed.

(** C3. On the vacuum world [astar] returns [Suck, Right, Suck], takes four
    states from the queue and has five states in the table. *)
Theorem astar_vacuum :
  ∀ extra : N,
    astar Vacuum.problem (4 + extra) =
    Ok (Report ["Suck"; "Right"; "Suck"]%string 4 5).
Proof. intros extra. apply (astar_mono _ 4); [by vm_compute | lia]. Qed.

(** C4. When the initial state is a goal the first loop takes it from the
    queue, leaves at the goal test with the table and the counter of one
    iteration and an empty queue, and [astar] returns the empty list.
    Nothing is assumed about [available_actions], [do_action] and
    [action_cost]: they are not called. *)
Theorem astar_initial_goal {State : Type} `{Countable State} (P : Problem State)
    (h0 : Q) (extra : N) :
  is_goal P (initial_state P) = Ok true →
  heuristic P (initial_state P) = Ok h0 →
  search P (N.succ extra) =
    Ok (Vars PriorityQueue.empty {[initial_state P := Rec None "" h0 0%Q]} 1
          (Some (initial_state P))) ∧
  astar P (N.succ extra) = Ok (Report [] 1 1).
Proof.
  intros Hgoal Hh.
  assert (search P (N.succ extra) =
    Ok (Vars PriorityQueue.empty {[initial_state P := Rec None "" h0 0%Q]} 1
          (Some (initial_state P)))) as Hs.
  { unfold search_with. rewrite Hh. cbn. rewrite while_succ. unfold iteration_with.
    change (q_get P (v_q (start P h0 h0)))
      with (Some ((h0, initial_state P), @PriorityQueue.Leaf (entry State))).
    cbv beta iota. unfold subscript, start. cbn [v_revealed snd v_x].
    rewrite lookup_singleton_eq. cbn. by rewrite Hgoal. }
  split; [done|]. unfold astar_with. rewrite Hs. cbn.
  unfold reconstruct. rewrite while_succ. unfold backtrack, subscript.
  rewrite lookup_singleton_eq. cbn. by rewrite map_size_singleton.
Qed.

Lemma astar_initial_goal_witness :
  search AtGoal.problem 1 =
    Ok (Vars PriorityQueue.empty {[0 := Rec None "" 0%Q 0%Q]} 1 (Some 0)) ∧
  astar AtGoal.problem 1 = Ok (Report [] 1 1).
Proof. apply (astar_initial_goal AtGoal.problem 0%Q 0); reflexivity. Defined.

(** C5. One step of the [for] loop, anywhere in a search, removes no key of
    the table.  It changes at most the record of the successor, and only to
    a record whose [f] and [g] are both strictly below the old ones; when the
    new [f] is not strictly below the recorded one, the table and the queue
    stay as they are; otherwise the record is written and the successor is
    put in the queue. *)
Theorem table_never_shrinks {State : Type} `{Countable State} (P : Problem State)
    v cs cc done p rest q rv q' rv' :
  at_head P v →
  expanding P v cs cc done (p :: rest) (q, rv) →
  relax P cs cc (q, rv) p = Ok (q', rv') →
  ∃ ns c h,
    do_action P cs p = Ok ns ∧ action_cost P cs p = Ok c ∧ heuristic P ns = Ok h ∧
    let g_new := (c + cc)%Q in
    let f_new := (g_new + h)%Q in
    (∀ s r, rv !! s = Some r →
       ∃ r', rv' !! s = Some r' ∧
         (r' = r ∨
          (s = ns ∧ r' = Rec (Some cs) p f_new g_new ∧
           (f_new < rec_f r)%Q ∧ (g_new < rec_g r)%Q))) ∧
    (∀ r, rv !! ns = Some r → ¬ (f_new < rec_f r)%Q → q' = q ∧ rv' = rv) ∧
    (rv !! ns = None ∨ (∃ r, rv !! ns = Some r ∧ (f_new < rec_f r)%Q) →
       q' = q_put P (f_new, ns) q ∧ rv' = <[ns := Rec (Some cs) p f_new g_new]> rv).
Proof.
  intros Hhead Hexp Hrelax.
  pose proof (table_sound_expanding _ _ _ _ _ _ _ Hhead Hexp) as Hsound. cbn in Hsound.
  apply relax_Ok in Hrelax as (ns & c & h & Hdo & Hc & Hh & Hcases).
  exists ns, c, h. split; [done|]. split; [done|]. split; [done|]. cbn zeta.
  destruct Hcases as [(r0 & Hr0 & Hle & -> & ->)|(Hlt & -> & ->)].
  - split; [eauto|]. split; [done|].
    intros [Hnone|(r & Hr & Hlt)]; [congruence|].
    assert (r = r0) as -> by congruence. lra.
  - split; [|split; [|done]].
    + intros s r Hr. destruct (decide (s = ns)) as [->|Hne].
      * eexists. rewrite lookup_insert_eq. split; [done|]. right.
        specialize (Hlt _ Hr). repeat split; [done|].
        destruct (Hsound _ _ Hr) as [(h' & Hh' & Hf) _].
        assert (h' = h) as -> by congruence. lra.
      * exists r. rewrite lookup_insert_ne by done. auto.
    + intros r Hr Hnlt. destruct Hnlt. by apply Hlt.
Qed.

Lemma table_never_shrinks_witness :
  let P := Vacuum.problem in
  let cs : Vacuum.state := (0, [true; true]) in
  let rv : gmap Vacuum.state (record Vacuum.state) :=
    {[ cs := Rec None "" (inject_Z 2) 0%Q ]} in
  let q : queue Vacuum.state := PriorityQueue.empty in
  let q' := q_put P ((1 + 0 + inject_Z 1)%Q, (0, [false; true])) q in
  let rv' := <[(0, [false; true]) := Rec (Some cs) "Suck" (1 + 0 + inject_Z 1)%Q (1 + 0)%Q]> rv in
  ∃ ns c h,
    do_action P cs "Suck" = Ok ns ∧ action_cost P cs "Suck" = Ok c ∧ heuristic P ns = Ok h ∧
    let g_new := (c + 0)%Q in
    let f_new := (g_new + h)%Q in
    (∀ s r, rv !! s = Some r →
       ∃ r', rv' !! s = Some r' ∧
         (r' = r ∨
          (s = ns ∧ r' = Rec (Some cs) "Suck" f_new g_new ∧
           (f_new < rec_f r)%Q ∧ (g_new < rec_g r)%Q))) ∧
    (∀ r, rv !! ns = Some r → ¬ (f_new < rec_f r)%Q → q' = q ∧ rv' = rv) ∧
    (rv !! ns = None ∨ (∃ r, rv !! ns = Some r ∧ (f_new < rec_f r)%Q) →
       q' = q_put P (f_new, ns) q ∧ rv' = <[ns := Rec (Some cs) "Suck" f_new g_new]> rv).
Proof.
  intros P cs rv q q' rv'.
  apply (table_never_shrinks P (start P (inject_Z 2) (inject_Z 2))
           cs 0%Q ["Left"%string] "Suck" ["Right"%string] q rv q' rv').
  - exists (inject_Z 2). split; [reflexivity | apply reach_start].
  - exists (inject_Z 2, cs), PriorityQueue.empty, (Rec None "" (inject_Z 2) 0%Q).
    repeat split; reflexivity.
  - reflexivity.
Defined.



(** The report of [astar] depends on the problem through what its methods
    return only, and not on the budget: two searches on problems that behave
    the same, each with any budget under which it ends, give the same list and
    the same two counters.  That one search run twice gives one report is not
    a theorem here: [astar] is a function. *)
Lemma astar_deterministic {State : Type} `{Countable State} (P P' : Problem State)
    (fuel fuel' : N) (rep rep' : report) :
  same_behaviour P P' →
  astar P fuel = Ok rep → astar P' fuel' = Ok rep' →
  rep = rep'.
Proof.
  intros Hsame Ha Ha'. rewrite (astar_ext _ _ Hsame) in Ha.
  by eapply astar_fuel_irrelevant.
Qed.

(** C8 (the code departs from the claim). [PuzzleProblem.do_action] does not
    check its action: a string that names no move gives the state back, and a
    move off the top row reaches, through the index [-1], the bottom row.
    [VacuumProblem.do_action] does raise ([vacuum_invalid_action]). *)
Theorem puzzle_do_action_unchecked :
  Puzzle.available_actions Puzzle.initial_state = Ok ["down"; "up"; "right"; "left"]%string ∧
  Puzzle.do_action Puzzle.initial_state "fly" = Ok Puzzle.initial_state ∧
  Puzzle.available_actions Puzzle.expected_state = Ok ["up"; "left"]%string ∧
  Puzzle.do_action Puzzle.expected_state "down" = Ok ((6, 1, 2), (3, 4, 5), (0, 7, 8)).
Proof. repeat split. Qed.

(** C10. When the first loop ends at a state [cs] that is a goal, every
    list [astar] returns can be carried out from the initial state, each
    action being available where it is applied, and it ends in [cs]; this
    needs nothing of the heuristic or the costs.  With costs that are not
    negative [astar] does return. *)
Theorem astar_solution_executable {State : Type} `{Countable State} (P : Problem State)
    (fuel : N) (v : vars State) (cs : State) :
  search P fuel = Ok v → v_curr_state v = Some cs → is_goal P cs = Ok true →
  (∀ fuel' rep, astar P fuel' = Ok rep →
     ∃ total, run_plan P (initial_state P) (solution rep) = Ok (cs, total)) ∧
  (nonneg_costs P → ∃ fuel' rep, astar P fuel' = Ok rep).
Proof.
  intros Hs Hcs Hgoal.
  destruct (search_Ok _ _ _ Hs) as (v0 & Hhead & Hbreak).
  assert (v_revealed v = v_revealed v0) as Hrv.
  { apply iteration_Break in Hbreak as [[_ ->]|(current & q & r & _ & _ & _ & ->)]; done. }
  split.
  - intros fuel' rep (v' & cs' & sol & Hs' & Hcs' & Hrec & ->)%astar_Ok.
    assert (v' = v) as -> by (by eapply search_deterministic).
    assert (cs' = cs) as -> by congruence. cbn.
    destruct (reconstruct_plan P (λ _ _, True) (v_revealed v) cs fuel' sol)
      as (total & Hrun & _); try done; [|eauto].
    rewrite Hrv. by apply table_sound_head.
  - intros Hnn.
    destruct (rooted_head _ Hnn _ Hhead) as [[_ Hall] Hcurr].
    assert (is_Some (v_revealed v !! cs)) as [r Hr].
    { apply iteration_Break in Hbreak as [[_ ->]|(current & q & r & _ & Hr & _ & ->)].
      - by apply Hcurr.
      - cbn in *. simplify_eq. eauto. }
    rewrite Hrv in Hr. destruct (Hall _ _ Hr) as (_ & _ & (l & Hl)).
    destruct (chain_reconstruct _ _ l [] (N.max fuel (N.succ (N.of_nat (length l)))) Hl)
      as [sol Hsol]; [apply N.max_lt_iff; right; lia|].
    eexists _, _. eapply astar_intro; [|done|].
    + eapply search_mono; [done | apply N.le_max_l].
    + rewrite Hrv. done.
Qed.

Lemma astar_solution_executable_witness :
  (∀ fuel' rep, astar Vacuum.problem fuel' = Ok rep →
     ∃ total, run_plan Vacuum.problem (initial_state Vacuum.problem) (solution rep) =
              Ok ((1, [false; false]), total)) ∧
  (nonneg_costs Vacuum.problem → ∃ fuel' rep, astar Vacuum.problem fuel' = Ok rep).
Proof.
  eapply (astar_solution_executable Vacuum.problem 4).
  - vm_compute. reflexivity.
  - reflexivity.
  - reflexivity.
Defined.

(** C2 (the claim needs more than it states). Over finitely many reachable
    states that Python's [<] orders, with sums that are exact, with action
    costs and a heuristic that are not negative and a heuristic that is
    admissible, and with some goal within reach: [astar] returns under every
    budget from some budget on, what it returns is a plan from the initial
    state to a goal, and no plan to any goal costs less.  The heuristic need
    not be consistent: a state whose record improves is put in the queue
    again. *)
Theorem astar_optimal {State : Type} `{Countable State} (add : Q → Q → Q)
    (P : Problem State) (univ : list State) :
  exact_arithmetic add → ordered_states P →
  closed_universe P univ → nonneg_costs P → nonneg_heuristic P → admissible P →
  goal_reachable P →
  ∃ rep t total,
    (∃ fuel0, ∀ fuel, (fuel0 ≤ fuel)%N → astar_with add P fuel = Ok rep) ∧
    run_plan P (initial_state P) (solution rep) = Ok (t, total) ∧
    is_goal P t = Ok true ∧
    ∀ plan' t' total',
      run_plan P (initial_state P) plan' = Ok (t', total') → is_goal P t' = Ok true →
      (total <= total')%Q.
Proof.
  intros Hexact _ Hclosed Hnn Hnh Hadm Hreach.
  destruct (astar_optimal_on P univ) as (rep & t & total & Hfuel & Hrest); try done.
  - intros s h _. apply Hnh.
  - intros s h plan t total _. apply Hadm.
  - exists rep, t, total. split; [|done].
    destruct Hfuel as [fuel0 Hfuel]. exists fuel0. intros fuel Hle.
    rewrite (astar_with_exact add P Hexact). by apply Hfuel.
Qed.

Lemma astar_optimal_witness :
  ∃ rep t total,
    (∃ fuel0, ∀ fuel, (fuel0 ≤ fuel)%N → astar_with Qplus Rounding.problem fuel = Ok rep) ∧
    run_plan Rounding.problem (initial_state Rounding.problem) (solution rep) =
      Ok (t, total) ∧
    is_goal Rounding.problem t = Ok true ∧
    ∀ plan' t' total',
      run_plan Rounding.problem (initial_state Rounding.problem) plan' = Ok (t', total') →
      is_goal Rounding.problem t' = Ok true →
      (total <= total')%Q.
Proof.
  apply (astar_optimal Qplus Rounding.problem Rounding.universe).
  - apply exact_Qplus.
  - apply rounding_ordered_states.
  - apply rounding_closed_universe.
  - apply rounding_nonneg_costs.
  - apply rounding_nonneg_heuristic.
  - apply rounding_admissible.
  - apply rounding_goal_reachable.
Defined.

(** C2, the counterexample. The problem with float costs has four states,
    ordered by [<], costs that are not negative and the heuristic zero, which
    is consistent and admissible.  With the addition of floats [astar]
    returns [a], [b], of cost 2^53 + 1, although [c], [d] leads to the goal at
    the cost 2^53: the sum 2^53 + 1 is rounded to 2^53, after which the record
    of the goal is not replaced.  With exact sums [astar] returns [c], [d];
    the addition of floats is not exact. *)
Lemma astar_float_not_optimal :
  ordered_states Rounding.problem ∧
  closed_universe Rounding.problem Rounding.universe ∧
  nonneg_costs Rounding.problem ∧ nonneg_heuristic Rounding.problem ∧
  consistent Rounding.problem ∧ admissible Rounding.problem ∧
  goal_reachable Rounding.problem ∧ ¬ exact_arithmetic float_add ∧
  (∀ extra : N,
     astar_with float_add Rounding.problem (4 + extra) = Ok (Report ["a"; "b"] 4 4) ∧
     astar Rounding.problem (4 + extra) = Ok (Report ["c"; "d"] 4 4)) ∧
  is_goal Rounding.problem 3 = Ok true ∧
  run_plan Rounding.problem (initial_state Rounding.problem) ["a"; "b"] =
    Ok (3, inject_Z (2 ^ 53 + 1)) ∧
  run_plan Rounding.problem (initial_state Rounding.problem) ["c"; "d"] =
    Ok (3, inject_Z (2 ^ 53)) ∧
  (inject_Z (2 ^ 53) < inject_Z (2 ^ 53 + 1))%Q.
Proof.
  split; [apply rounding_ordered_states|].
  split; [apply rounding_closed_universe|].
  split; [apply rounding_nonneg_costs|].
  split; [apply rounding_nonneg_heuristic|].
  split; [apply rounding_consistent|].
  split; [apply rounding_admissible|].
  split; [apply rounding_goal_reachable|].
  split.
  { intros Hexact. specialize (Hexact (inject_Z (2 ^ 53)) 1%Q).
    vm_compute in Hexact. discriminate Hexact. }
  split.
  { assert (astar_with float_add Rounding.problem 4 = Ok (Report ["a"; "b"] 4 4)) as Hf
      by (by vm_compute).
    assert (astar Rounding.problem 4 = Ok (Report ["c"; "d"] 4 4)) as He
      by (by vm_compute).
    intros extra. split.
    - apply (astar_with_mono _ _ _ _ _ Hf). lia.
    - apply (astar_mono _ _ _ _ He). lia. }
  split; [done|]. split; [by vm_compute|]. split; [by vm_compute|]. by vm_compute.
Qed.

(** The run of the notebook with [PuzzleProblem]: 23567 states are taken from
    the queue and 34058 are recorded. *)
Lemma astar_puzzle_run :
  astar Puzzle.problem 23567 = Ok (Report Puzzle.plan26 23567 34058).
Proof. by vm_compute. Qed.

(** C9. On the 8-puzzle instance of the notebook, where every move costs one,
    [astar] with the heuristic of [PuzzleProblem] (half the sum of the
    distances of all tiles, blank included) returns a plan of 26 actions that
    leads from the initial grid to the goal grid; with the heuristics of
    [PuzzleProblem1] (the distance of the blank) and [PuzzleProblem2] (half
    the number of misplaced tiles) it returns, given enough fuel, plans of 26
    actions too, which lead to the goal grid as well. *)
Theorem astar_puzzle :
  length Puzzle.plan26 = 26%nat ∧
  run_plan Puzzle.problem Puzzle.initial_state Puzzle.plan26 =
    Ok (Puzzle.expected_state, 26%Q) ∧
  is_goal Puzzle.problem Puzzle.expected_state = Ok true ∧
  action_cost Puzzle.problem = (λ _ _, Ok 1%Q) ∧
  (∀ extra : N,
     astar Puzzle.problem (23567 + extra) = Ok (Report Puzzle.plan26 23567 34058)) ∧
  ∃ (rep1 rep2 : report) (total1 total2 : Q) (fuel0 : N),
    (∀ extra : N,
       astar Puzzle.problem1 (fuel0 + extra) = Ok rep1 ∧
       astar Puzzle.problem2 (fuel0 + extra) = Ok rep2) ∧
    length (solution rep1) = 26%nat ∧ length (solution rep2) = 26%nat ∧
    run_plan Puzzle.problem1 Puzzle.initial_state (solution rep1) =
      Ok (Puzzle.expected_state, total1) ∧
    run_plan Puzzle.problem2 Puzzle.initial_state (solution rep2) =
      Ok (Puzzle.expected_state, total2).
Proof.
  split; [done|]. split; [apply puzzle_plan26|]. split; [done|]. split; [done|].
  split.
  { intros extra. apply (astar_mono _ _ _ _ astar_puzzle_run). lia. }
  destruct (puzzle_heuristics_optimal Puzzle.problem)
    as (rep0 & total0 & (f0 & Hf0) & Hrun0 & Hopt0); [apply list_elem_of_here|].
  destruct (puzzle_heuristics_optimal Puzzle.problem1)
    as (rep1 & total1 & (f1 & Hf1) & Hrun1 & Hopt1);
    [apply list_elem_of_further, list_elem_of_here|].
  destruct (puzzle_heuristics_optimal Puzzle.problem2)
    as (rep2 & total2 & (f2 & Hf2) & Hrun2 & Hopt2);
    [do 2 apply list_elem_of_further; apply list_elem_of_here|].
  assert (rep0 = Report Puzzle.plan26 23567 34058) as ->.
  { apply (astar_fuel_irrelevant Puzzle.problem f0 23567); [|apply astar_puzzle_run].
    apply Hf0. lia. }
  cbn [solution] in Hopt0.
  pose proof (Hopt0 _ _ Hrun1) as Hlow1. pose proof (Hopt0 _ _ Hrun2) as Hlow2.
  pose proof (Hopt1 _ _ puzzle_plan26) as Hup1.
  pose proof (Hopt2 _ _ puzzle_plan26) as Hup2.
  change (length Puzzle.plan26) with 26%nat in *.
  exists rep1, rep2, total1, total2, (N.max f1 f2).
  split; [|split; [lia|split; [lia|split; [exact Hrun1|exact Hrun2]]]].
  intros extra. split; [apply Hf1|apply Hf2]; lia.
Qed.

(** * Further properties of the code *)

(** ** The vacuum world *)

Lemma dirty_count_insert (dirty : list bool) (n : nat) (b : bool) :
  dirty !! n = Some b →
  Vacuum.dirty_count (<[n := false]> dirty) = Vacuum.dirty_count dirty - Z.b2z b.
Proof.
  revert n. induction dirty as [|c dirty IH]; intros n Hn; [done|].
  destruct n as [|n].
  - injection Hn as ->.
    change (<[0%nat := false]> (b :: dirty)) with (false :: dirty).
    cbn [Vacuum.dirty_count Z.b2z]. lia.
  - change (<[S n := false]> (c :: dirty)) with (c :: <[n := false]> dirty).
    cbn [Vacuum.dirty_count]. rewrite (IH n Hn). lia.
Qed.

Lemma dirty_count_le_length (dirty : list bool) :
  Vacuum.dirty_count dirty ≤ Z.of_nat (length dirty).
Proof. induction dirty as [|[] dirty IH]; cbn [Vacuum.dirty_count Z.b2z length]; lia. Qed.

Lemma dirty_count_zero (dirty : list bool) :
  Vacuum.dirty_count dirty = 0 → existsb id dirty = false.
Proof.
  induction dirty as [|[] dirty IH]; cbn [Vacuum.dirty_count Z.b2z existsb id orb].
  - done.
  - pose proof (dirty_count_nonneg dirty). lia.
  - intros Hd. apply IH. lia.
Qed.

Lemma index_inside (len : nat) (i : Z) :
  0 ≤ i < Z.of_nat len → index len i = Ok (Z.to_nat i).
Proof.
  intros Hi. unfold index.
  destruct (Z.leb_spec 0 i); [|lia]. destruct (Z.ltb_spec i (Z.of_nat len)); [done|lia].
Qed.

Lemma index_negative (len : nat) (i : Z) :
  - Z.of_nat len ≤ i < 0 → index len i = Ok (Z.to_nat (i + Z.of_nat len)).
Proof.
  intros Hi. unfold index.
  destruct (Z.leb_spec 0 i); [lia|]. cbn [andb].
  destruct (Z.leb_spec (- Z.of_nat len) i); [|lia]. destruct (Z.ltb_spec i 0); [done|lia].
Qed.

Lemma index_outside (len : nat) (i : Z) :
  i < - Z.of_nat len ∨ Z.of_nat len ≤ i → index len i = Raise IndexError.
Proof.
  intros Hi. unfold index.
  destruct (Z.leb_spec 0 i), (Z.ltb_spec i (Z.of_nat len)),
    (Z.leb_spec (- Z.of_nat len) i), (Z.ltb_spec i 0); cbn [andb]; try done; lia.
Qed.

(** X1. While the robot is in one of the rooms, each of the three actions
    returns a state: the robot is in a room again, at most one room away, the
    number of rooms is unchanged and no room has become dirty. *)
Theorem vacuum_robot_stays_inside (robot : Z) (dirty : list bool) (a : string) :
  0 ≤ robot < Z.of_nat (length dirty) →
  a ∈ ["Left"; "Suck"; "Right"]%string →
  ∃ robot' dirty',
    Vacuum.do_action (robot, dirty) a = Ok (robot', dirty') ∧
    0 ≤ robot' < Z.of_nat (length dirty') ∧
    length dirty' = length dirty ∧
    Z.abs (robot' - robot) ≤ 1 ∧
    Vacuum.dirty_count dirty' ≤ Vacuum.dirty_count dirty.
Proof.
  intros Hr Ha. unfold Vacuum.do_action.
  repeat (apply elem_of_cons in Ha as [->|Ha]); [| | |by apply elem_of_nil in Ha].
  - eexists _, _. split; [reflexivity|]. lia.
  - change (String.eqb "Suck" "Left") with false.
    change (String.eqb "Suck" "Suck") with true. cbv iota.
    unfold list_setitem. rewrite (index_inside _ _ Hr). cbn [mbind res_mbind res_bind].
    eexists _, _. split; [reflexivity|]. rewrite length_insert.
    destruct (lookup_lt_is_Some_2 dirty (Z.to_nat robot)) as [b Hb]; [lia|].
    rewrite (dirty_count_insert _ _ _ Hb). destruct b; cbn [Z.b2z]; lia.
  - eexists _, _. split; [reflexivity|]. lia.
Qed.

Lemma vacuum_robot_stays_inside_witness :
  ∃ robot' dirty',
    Vacuum.do_action (1, [true; true]) "Right" = Ok (robot', dirty') ∧
    0 ≤ robot' < Z.of_nat (length dirty') ∧
    length dirty' = length [true; true] ∧
    Z.abs (robot' - 1) ≤ 1 ∧
    Vacuum.dirty_count dirty' ≤ Vacuum.dirty_count [true; true].
Proof.
  apply (vacuum_robot_stays_inside 1 [true; true] "Right").
  - cbn. lia.
  - do 2 apply list_elem_of_further. apply list_elem_of_here.
Defined.

(** X2. In a room, [Suck] cleans the room of the robot and nothing else: the
    robot stays, the other rooms are as they were, the count of dirty rooms
    drops by one exactly when the room was dirty, and a second [Suck] changes
    nothing. *)
Theorem vacuum_suck (robot : Z) (dirty : list bool) (b : bool) :
  0 ≤ robot → dirty !! Z.to_nat robot = Some b →
  ∃ dirty',
    Vacuum.do_action (robot, dirty) "Suck" = Ok (robot, dirty') ∧
    dirty' !! Z.to_nat robot = Some false ∧
    (∀ n, n ≠ Z.to_nat robot → dirty' !! n = dirty !! n) ∧
    Vacuum.dirty_count dirty' = Vacuum.dirty_count dirty - Z.b2z b ∧
    Vacuum.do_action (robot, dirty') "Suck" = Ok (robot, dirty').
Proof.
  intros Hr Hb. pose proof (lookup_lt_Some _ _ _ Hb) as Hlt.
  assert (0 ≤ robot < Z.of_nat (length dirty)) as Hin by lia.
  exists (<[Z.to_nat robot := false]> dirty).
  assert (∀ d, length d = length dirty →
            Vacuum.do_action (robot, d) "Suck" = Ok (robot, <[Z.to_nat robot := false]> d))
    as Hsuck.
  { intros d Hd. unfold Vacuum.do_action.
    change (String.eqb "Suck" "Left") with false.
    change (String.eqb "Suck" "Suck") with true. cbv iota.
    unfold list_setitem. rewrite Hd, (index_inside _ _ Hin). done. }
  split; [by apply Hsuck|]. split; [by apply list_lookup_insert_eq|].
  split; [intros n Hn; by apply list_lookup_insert_ne|].
  split; [by apply dirty_count_insert|].
  rewrite Hsuck by apply length_insert. by rewrite list_insert_insert_eq.
Qed.

Lemma vacuum_suck_witness :
  ∃ dirty',
    Vacuum.do_action (1, [false; true]) "Suck" = Ok (1, dirty') ∧
    dirty' !! Z.to_nat 1 = Some false ∧
    (∀ n, n ≠ Z.to_nat 1 → dirty' !! n = [false; true] !! n) ∧
    Vacuum.dirty_count dirty' = Vacuum.dirty_count [false; true] - Z.b2z true ∧
    Vacuum.do_action (1, dirty') "Suck" = Ok (1, dirty').
Proof. apply (vacuum_suck 1 [false; true] true); [lia|reflexivity]. Defined.

(** X3. [Suck] follows the indexing of Python lists: with the robot at a
    negative position not below minus the number of rooms it cleans the room
    counted from the end, and further out on either side it raises
    [IndexError]. *)
Theorem vacuum_suck_outside (robot : Z) (dirty : list bool) :
  ¬ 0 ≤ robot < Z.of_nat (length dirty) →
  Vacuum.do_action (robot, dirty) "Suck" =
    if (- Z.of_nat (length dirty) <=? robot) && (robot <? 0)
    then Ok (robot, <[Z.to_nat (robot + Z.of_nat (length dirty)) := false]> dirty)
    else Raise IndexError.
Proof.
  intros Hr. unfold Vacuum.do_action.
  change (String.eqb "Suck" "Left") with false.
  change (String.eqb "Suck" "Suck") with true. cbv iota. unfold list_setitem.
  destruct (Z.leb_spec (- Z.of_nat (length dirty)) robot), (Z.ltb_spec robot 0);
    cbn [andb].
  - by rewrite index_negative by lia.
  - by rewrite index_outside by lia.
  - by rewrite index_outside by lia.
  - by rewrite index_outside by lia.
Qed.

Lemma vacuum_suck_outside_witness :
  Vacuum.do_action (-1, [true; true]) "Suck" = Ok (-1, [true; false]) ∧
  Vacuum.do_action (2, [true; true]) "Suck" = Raise IndexError.
Proof.
  split.
  - apply (vacuum_suck_outside (-1) [true; true]). cbn. lia.
  - apply (vacuum_suck_outside 2 [true; true]). cbn. lia.
Defined.

(** X4. [do_action] raises [Exception('Invalid action')] exactly for the
    actions that [available_actions] does not list. *)
Theorem vacuum_invalid_action_iff (s : Vacuum.state) (a : string) :
  Vacuum.do_action s a = Raise (Exception "Invalid action") ↔
  ∃ possible, Vacuum.available_actions s = Ok possible ∧ a ∉ possible.
Proof.
  split.
  - intros Hdo. exists ["Left"; "Suck"; "Right"]%string. split; [done|].
    intros Ha. destruct s as [robot dirty]. unfold Vacuum.do_action in Hdo.
    repeat (apply elem_of_cons in Ha as [->|Ha]); [| | |by apply elem_of_nil in Ha].
    + done.
    + change (String.eqb "Suck" "Left") with false in Hdo.
      change (String.eqb "Suck" "Suck") with true in Hdo. cbv iota in Hdo.
      unfold list_setitem, index in Hdo.
      destruct ((0 <=? robot) && (robot <? Z.of_nat (length dirty))); [done|].
      by destruct ((- Z.of_nat (length dirty) <=? robot) && (robot <? 0)).
    + done.
  - intros (possible & Hav & Hnin). by eapply vacuum_invalid_action.
Qed.

(** X5. The heuristic of [VacuumProblem] is zero on the goal states and on
    no other state. *)
Theorem vacuum_goal_iff_heuristic_zero (s : Vacuum.state) :
  Vacuum.is_goal s = Ok true ↔ Vacuum.heuristic s = Ok 0%Q.
Proof.
  destruct s as [robot dirty]. unfold Vacuum.is_goal, Vacuum.heuristic. cbn [snd].
  split.
  - intros [= Hg]. apply negb_true_iff in Hg. by rewrite (dirty_count_goal _ Hg).
  - intros [= Hh]. by rewrite (dirty_count_zero _ Hh).
Qed.

(** X6. The heuristic of [VacuumProblem], the number of dirty rooms, is not
    negative, consistent (no action lowers it by more than its cost) and
    admissible, whatever the number of rooms. *)
Theorem vacuum_heuristic_consistent :
  nonneg_heuristic Vacuum.problem ∧ consistent Vacuum.problem ∧
  admissible Vacuum.problem.
Proof.
  split; [apply vacuum_nonneg_heuristic|].
  split; [apply vacuum_consistent|apply vacuum_admissible].
Qed.

(** X7. The heuristic of [VacuumProblem1] counts the clean rooms: on a goal
    state it equals the number of rooms, so that it is not admissible; on the
    instance of the notebook [astar] still returns the plan of three actions,
    after 7 states taken from the queue and 8 recorded. *)
Theorem vacuum1_heuristic_not_admissible :
  (∀ s h h', Vacuum.heuristic s = Ok h → Vacuum.heuristic1 s = Ok h' →
     (h + h' == inject_Z (Z.of_nat (length (snd s))))%Q) ∧
  (∀ s, Vacuum.is_goal s = Ok true →
     Vacuum.heuristic1 s = Ok (inject_Z (Z.of_nat (length (snd s))))) ∧
  ¬ admissible Vacuum.problem1 ∧
  ∀ extra : N,
    astar Vacuum.problem1 (7 + extra) = Ok (Report ["Suck"; "Right"; "Suck"] 7 8).
Proof.
  split; [|split; [|split]].
  - intros [robot dirty] h h' [= <-] [= <-]. cbn [snd].
    rewrite <-inject_Z_plus. by replace (_ + _) with (Z.of_nat (length dirty)) by lia.
  - intros [robot dirty] [= Hg]. unfold Vacuum.heuristic1. cbn [snd] in *.
    apply negb_true_iff in Hg. rewrite (dirty_count_goal _ Hg). by rewrite Z.sub_0_r.
  - intros Hadm.
    pose proof (Hadm (0, [false; false]) 2%Q [] (0, [false; false]) 0%Q
                  eq_refl eq_refl eq_refl) as Hle.
    by apply Hle.
  - intros extra.
    assert (astar Vacuum.problem1 7 = Ok (Report ["Suck"; "Right"; "Suck"] 7 8)) as Hrun
      by (by vm_compute).
    apply (astar_mono _ _ _ _ Hrun). lia.
Qed.

(** X8. The heuristic of [VacuumProblem2] is ten times the one of
    [VacuumProblem]: zero on the goal states only, but neither admissible nor
    consistent; on the instance of the notebook [astar] returns the plan of
    three actions after 4 states taken from the queue and 5 recorded. *)
Theorem vacuum2_heuristic_not_admissible :
  (∀ s h, Vacuum.heuristic s = Ok h → ∃ h', Vacuum.heuristic2 s = Ok h' ∧ (h' == 10 * h)%Q) ∧
  (∀ s, Vacuum.is_goal s = Ok true ↔ Vacuum.heuristic2 s = Ok 0%Q) ∧
  ¬ admissible Vacuum.problem2 ∧ ¬ consistent Vacuum.problem2 ∧
  ∀ extra : N,
    astar Vacuum.problem2 (4 + extra) = Ok (Report ["Suck"; "Right"; "Suck"] 4 5).
Proof.
  split; [|split; [|split; [|split]]].
  - intros [robot dirty] h [= <-]. eexists. split; [reflexivity|]. cbn [snd].
    by rewrite inject_Z_mult.
  - intros [robot dirty]. unfold Vacuum.is_goal, Vacuum.heuristic2. cbn [snd]. split.
    + intros [= Hg]. apply negb_true_iff in Hg. by rewrite (dirty_count_goal _ Hg).
    + intros [= Hh]. rewrite (dirty_count_zero dirty); [done|lia].
  - intros Hadm.
    pose proof (Hadm (0, [true; false]) 10%Q ["Suck"%string] (0, [false; false]) 1%Q
                  eq_refl eq_refl eq_refl) as Hle.
    by apply Hle.
  - intros Hcons.
    pose proof (Hcons (0, [true; false]) ["Left"; "Suck"; "Right"]%string "Suck"%string
                  (0, [false; false]) 1%Q 10%Q 0%Q eq_refl) as Hle.
    apply Hle; try done. apply list_elem_of_further, list_elem_of_here.
  - intros extra.
    assert (astar Vacuum.problem2 4 = Ok (Report ["Suck"; "Right"; "Suck"] 4 5)) as Hrun
      by (by vm_compute).
    apply (astar_mono _ _ _ _ Hrun). lia.
Qed.

(** ** The 8-puzzle *)

(** The cases of [locate]: the first cell, in reading order, that holds the
    number. *)
Ltac locate_cases num :=
  repeat match goal with
  | |- context [?x =? num] => destruct (Z.eqb_spec x num)
  end.

Ltac in_range3 x H :=
  let Hx := fresh in
  assert (x = 0 ∨ x = 1 ∨ x = 2) as Hx by lia; clear H;
  destruct Hx as [->|[->| ->]].

(** X9. [find_position] never raises. What it returns is a position of the
    grid that holds the number, and the first such position in reading order;
    it returns [None] exactly when no cell holds the number. *)
Theorem find_position_first (s : Puzzle.state) (num : Z) :
  (∀ i j, Puzzle.find_position s num = Ok (Some (i, j)) →
     0 ≤ i < 3 ∧ 0 ≤ j < 3 ∧ Puzzle.cell s i j = Ok num ∧
     ∀ i' j', 0 ≤ i' < 3 → 0 ≤ j' < 3 → 3 * i' + j' < 3 * i + j →
       Puzzle.cell s i' j' ≠ Ok num) ∧
  (Puzzle.find_position s num = Ok None ↔ num ∉ Puzzle.cells s) ∧
  ∃ r, Puzzle.find_position s num = Ok r.
Proof.
  rewrite find_position_locate.
  destruct s as [[[[a b] c] [[d e] f]] [[g h] i]]. unfold Puzzle.locate.
  locate_cases num.
  all: split; [|split; [|by eexists]].
  all: try (intros i0 j0 [= <- <-]; split; [lia|]; split; [lia|]; split; [by subst|];
            intros i' j' Hi Hj Hlt; in_range3 i' Hi; in_range3 j' Hj; try lia;
            cbv; congruence).
  all: try done.
  all: rewrite list_elem_of_In; cbn; split; try done; intros Hn; try tauto.
  all: destruct Hn; tauto.
Qed.

Lemma locate_None (s : Puzzle.state) (v : Z) :
  v ∉ Puzzle.cells s → Puzzle.locate s v = None.
Proof.
  destruct s as [[[[a b] c] [[d e] f]] [[g h] i]]. unfold Puzzle.locate.
  rewrite list_elem_of_In. cbn. intros Hn.
  locate_cases v; try done; exfalso; tauto.
Qed.

(** A loop raises when the body raises on one element and returns on the
    ones before it. *)
Lemma for_each_raise {A B : Type} (f : B → A → res B) (ok : A → Prop)
    `{∀ x, Decision (ok x)} (e : exn) (l : list A) (acc : B) :
  (∀ acc x, x ∈ l → ok x → ∃ acc', f acc x = Ok acc') →
  (∀ acc x, x ∈ l → ¬ ok x → f acc x = Raise e) →
  (∃ x, x ∈ l ∧ ¬ ok x) →
  for_each f l acc = Raise e.
Proof.
  revert acc. induction l as [|x l IH]; intros acc Hok Hbad (y & Hy & Hny).
  - by apply elem_of_nil in Hy.
  - cbn [for_each]. destruct (decide (ok x)) as [Hx|Hx].
    + destruct (Hok acc x) as [acc' ->]; [apply list_elem_of_here|done|].
      cbn [mbind res_mbind res_bind]. apply IH.
      * intros acc0 z Hz. apply Hok. by apply list_elem_of_further.
      * intros acc0 z Hz. apply Hbad. by apply list_elem_of_further.
      * exists y. split; [|done]. apply elem_of_cons in Hy as [->|Hy]; done.
    + rewrite (Hbad acc x); [done|apply list_elem_of_here|done].
Qed.

(** Nine cells that hold every tile hold each tile once. *)
Lemma good_complete (s : Puzzle.state) :
  (∀ v, v ∈ Puzzle.tiles → v ∈ Puzzle.cells s) → Puzzle.good s.
Proof.
  intros Hall. unfold Puzzle.good. symmetry.
  apply submseteq_length_Permutation.
  - apply NoDup_submseteq; [|done].
    unfold Puzzle.tiles, range. apply NoDup_fmap; [apply _|apply NoDup_seq].
  - by destruct s as [[[[a b] c] [[d e] f]] [[g h] i]].
Qed.

Lemma bad_missing (s : Puzzle.state) :
  ¬ Puzzle.good s → ∃ v, v ∈ Puzzle.tiles ∧ v ∉ Puzzle.cells s.
Proof.
  intros Hbad.
  destruct (decide (Forall (λ v, v ∈ Puzzle.cells s) Puzzle.tiles)) as [Hall|Hex].
  - exfalso. apply Hbad, good_complete. by apply Forall_forall.
  - apply not_Forall_Exists in Hex; [|apply _].
    apply Exists_exists in Hex as (v & Hv & Hn). by exists v.
Qed.

(** X10. On a grid without a blank, [available_actions] and two of the
    heuristics raise [TypeError], and so does [do_action] for each of the
    four moves: the position they subscript is [None]. *)
Theorem puzzle_without_blank (s : Puzzle.state) :
  0 ∉ Puzzle.cells s →
  Puzzle.find_position s 0 = Ok None ∧
  Puzzle.available_actions s = Raise TypeError ∧
  Puzzle.heuristic s = Raise TypeError ∧
  Puzzle.heuristic1 s = Raise TypeError ∧
  ∀ a, a ∈ ["up"; "down"; "left"; "right"]%string →
    Puzzle.do_action s a = Raise TypeError.
Proof.
  intros Hloc%locate_None.
  split; [by rewrite find_position_locate, Hloc|].
  split; [unfold Puzzle.available_actions; by rewrite find_position_locate, Hloc|].
  split.
  { unfold Puzzle.heuristic.
    change (range 9) with (0 :: (Z.succ <$> range 8)). cbn [for_each].
    by rewrite find_position_locate, Hloc. }
  split; [unfold Puzzle.heuristic1; by rewrite find_position_locate, Hloc|].
  intros a Ha. unfold Puzzle.do_action. rewrite find_position_locate, Hloc.
  repeat (apply elem_of_cons in Ha as [->|Ha]); [| | | |by apply elem_of_nil in Ha];
    reflexivity.
Qed.

Lemma puzzle_without_blank_witness :
  Puzzle.find_position ((1, 1, 1), (1, 1, 1), (1, 1, 1)) 0 = Ok None ∧
  Puzzle.available_actions ((1, 1, 1), (1, 1, 1), (1, 1, 1)) = Raise TypeError ∧
  Puzzle.heuristic ((1, 1, 1), (1, 1, 1), (1, 1, 1)) = Raise TypeError ∧
  Puzzle.heuristic1 ((1, 1, 1), (1, 1, 1), (1, 1, 1)) = Raise TypeError ∧
  ∀ a, a ∈ ["up"; "down"; "left"; "right"]%string →
    Puzzle.do_action ((1, 1, 1), (1, 1, 1), (1, 1, 1)) a = Raise TypeError.
Proof.
  apply (puzzle_without_blank ((1, 1, 1), (1, 1, 1), (1, 1, 1))).
  rewrite list_elem_of_In. cbn. intros Hin. repeat (destruct Hin as [Hin|Hin]; [done|]).
  done.
Defined.

Lemma heuristic_missing (s : Puzzle.state) :
  ¬ Puzzle.good s → Puzzle.heuristic s = Raise TypeError.
Proof.
  intros Hbad%bad_missing. unfold Puzzle.heuristic.
  rewrite (for_each_raise _ (λ v, v ∈ Puzzle.cells s) TypeError); [done| | |done].
  - intros acc v _ [p Hp]%locate_Some. rewrite find_position_locate, Hp. by eexists.
  - intros acc v _ Hv%locate_None. by rewrite find_position_locate, Hv.
Qed.

Lemma heuristic_returns_good (s : Puzzle.state) (h : Q) :
  Puzzle.heuristic s = Ok h → Puzzle.good s.
Proof.
  intros Hh. destruct (decide (Forall (λ v, v ∈ Puzzle.cells s) Puzzle.tiles)) as [Hall|Hex].
  - apply good_complete. by apply Forall_forall.
  - exfalso. assert (¬ Puzzle.good s) as Hbad.
    { intros Hg. apply Hex, Forall_forall. intros v Hv. unfold Puzzle.good in Hg.
      by rewrite Hg. }
    by rewrite (heuristic_missing s Hbad) in Hh.
Qed.

(** X11. The heuristic of [PuzzleProblem] returns exactly on the grids that
    hold each of the tiles 0..8 once, where it is half the sum, over the
    cells, of the distance between the cell and the home of its tile; on every
    other grid it raises [TypeError]. *)
Theorem puzzle_heuristic_defined (s : Puzzle.state) :
  (Puzzle.good s →
   Puzzle.heuristic s = Ok (inject_Z (Puzzle.total_distance s) / 2)%Q) ∧
  (¬ Puzzle.good s → Puzzle.heuristic s = Raise TypeError).
Proof. split; [apply heuristic_total_distance|apply heuristic_missing]. Qed.

(** What [find_position] returns is a position of the grid, and the cell
    there holds the number. *)
Lemma find_position_Some (s : Puzzle.state) (num i j : Z) :
  Puzzle.find_position s num = Ok (Some (i, j)) →
  (i = 0 ∨ i = 1 ∨ i = 2) ∧ (j = 0 ∨ j = 1 ∨ j = 2) ∧ Puzzle.cell s i j = Ok num.
Proof.
  rewrite find_position_locate. intros [= Hloc].
  destruct s as [[[[a b] c] [[d e] f]] [[g h] k]]. unfold Puzzle.locate in Hloc.
  repeat match type of Hloc with
  | context [?x =? num] => destruct (Z.eqb_spec x num)
  end; injection Hloc as <- <- || discriminate Hloc; subst; (split; [lia|split; [lia|done]]).
Qed.

(** X12. On a grid with a blank [available_actions] returns between two and
    four different moves: [down] unless the blank is in the first row, [up]
    unless it is in the last row, [right] unless it is in the first column,
    [left] unless it is in the last column. *)
Theorem puzzle_available_actions (s : Puzzle.state) (i j : Z) :
  Puzzle.find_position s 0 = Ok (Some (i, j)) →
  ∃ possible,
    Puzzle.available_actions s = Ok possible ∧
    ("down"%string ∈ possible ↔ i ≠ 0) ∧ ("up"%string ∈ possible ↔ i ≠ 2) ∧
    ("right"%string ∈ possible ↔ j ≠ 0) ∧ ("left"%string ∈ possible ↔ j ≠ 2) ∧
    (∀ a, a ∈ possible → a ∈ ["down"; "up"; "right"; "left"]%string) ∧
    NoDup possible ∧ (2 ≤ length possible ≤ 4)%nat.
Proof.
  intros Hpos. destruct (find_position_Some s 0 i j Hpos) as (Hi & Hj & _).
  unfold Puzzle.available_actions. rewrite Hpos.
  destruct Hi as [->|[->| ->]], Hj as [->|[->| ->]]; cbn.
  all: eexists; split; [reflexivity|].
  all: repeat split; try lia; try done.
  all: try match goal with
    | |- _ ≠ _ → _ ∈ _ =>
        intros Hne; try (by destruct Hne);
        repeat (apply list_elem_of_here || apply list_elem_of_further)
    | |- _ ∈ _ → _ ≠ _ =>
        intros Hin _; apply list_elem_of_In in Hin; cbn in Hin; intuition discriminate
    | |- ∀ a, a ∈ _ → a ∈ _ =>
        intros a Hin; apply list_elem_of_In in Hin; cbn in Hin;
        repeat (destruct Hin as [<-|Hin];
                [repeat (apply list_elem_of_here || apply list_elem_of_further)|]);
        done
    | |- NoDup _ =>
        repeat (apply NoDup_cons_2;
                [rewrite list_elem_of_In; cbn; intuition discriminate|]);
        apply NoDup_nil_2
    end.
  all: cbn; lia.
Qed.

Lemma puzzle_available_actions_witness :
  ∃ possible,
    Puzzle.available_actions Puzzle.initial_state = Ok possible ∧
    ("down"%string ∈ possible ↔ 1 ≠ 0) ∧ ("up"%string ∈ possible ↔ 1 ≠ 2) ∧
    ("right"%string ∈ possible ↔ 1 ≠ 0) ∧ ("left"%string ∈ possible ↔ 1 ≠ 2) ∧
    (∀ a, a ∈ possible → a ∈ ["down"; "up"; "right"; "left"]%string) ∧
    NoDup possible ∧ (2 ≤ length possible ≤ 4)%nat.
Proof. apply (puzzle_available_actions Puzzle.initial_state 1 1). reflexivity. Defined.

(** X13. [do_action] accepts every string: for one that is none of the four
    moves it returns the grid as it is, whether or not the grid has a blank. *)
Theorem puzzle_unknown_action (s : Puzzle.state) (a : string) :
  a ∉ ["up"; "down"; "left"; "right"]%string → Puzzle.do_action s a = Ok s.
Proof.
  intros Ha. unfold Puzzle.do_action. rewrite find_position_locate.
  cbn [mbind res_mbind res_bind].
  destruct (String.eqb_spec a "up") as [->|_];
    [exfalso; apply Ha, list_elem_of_here|].
  destruct (String.eqb_spec a "down") as [->|_];
    [exfalso; apply Ha, list_elem_of_further, list_elem_of_here|].
  destruct (String.eqb_spec a "left") as [->|_];
    [exfalso; apply Ha; do 2 apply list_elem_of_further; apply list_elem_of_here|].
  destruct (String.eqb_spec a "right") as [->|_];
    [exfalso; apply Ha; do 3 apply list_elem_of_further; apply list_elem_of_here|].
  done.
Qed.

Lemma puzzle_unknown_action_witness :
  Puzzle.do_action ((1, 1, 1), (1, 1, 1), (1, 1, 1)) "jump" =
  Ok ((1, 1, 1), (1, 1, 1), (1, 1, 1)).
Proof.
  apply (puzzle_unknown_action ((1, 1, 1), (1, 1, 1), (1, 1, 1)) "jump").
  rewrite list_elem_of_In. cbn. intros Hin.
  repeat (destruct Hin as [Hin|Hin]; [done|]). done.
Defined.

(** The tests of [locate] that the known differences decide. *)
Ltac decide_tests :=
  repeat match goal with
  | Hne : ?x ≠ ?y |- context [?x =? ?y] => rewrite (proj2 (Z.eqb_neq x y) Hne)
  | Hne : ?x ≠ ?y |- context [?y =? ?x] =>
      rewrite (proj2 (Z.eqb_neq y x) (not_eq_sym Hne))
  end.

(** X14. An available move exchanges the blank with the cell next to it in
    the direction of the move's offset ([up]: the row below, [down]: the row
    above, [left]: the column to the right, [right]: the column to the left);
    that cell is on the grid and every other cell keeps its tile. *)
Theorem puzzle_move_exchanges (s s' : Puzzle.state) (possible : list string)
    (act : string) (i j : Z) :
  Puzzle.find_position s 0 = Ok (Some (i, j)) →
  Puzzle.available_actions s = Ok possible → act ∈ possible →
  Puzzle.do_action s act = Ok s' →
  let i' := i + fst (Puzzle.offset act) in
  let j' := j + snd (Puzzle.offset act) in
  0 ≤ i' < 3 ∧ 0 ≤ j' < 3 ∧ Z.abs (i' - i) + Z.abs (j' - j) = 1 ∧
  Puzzle.cell s' i' j' = Ok 0 ∧
  Puzzle.cell s' i j = Puzzle.cell s i' j' ∧
  ∀ k l, 0 ≤ k < 3 → 0 ≤ l < 3 → (k, l) ≠ (i, j) → (k, l) ≠ (i', j') →
    Puzzle.cell s' k l = Puzzle.cell s k l.
Proof.
  intros Hpos Hav Hin Hdo.
  destruct (find_position_Some s 0 i j Hpos) as (Hi & Hj & Hcell).
  unfold Puzzle.available_actions in Hav. rewrite Hpos in Hav.
  unfold Puzzle.do_action in Hdo. rewrite Hpos in Hdo.
  destruct s as [[[[a b] c] [[d e] f]] [[g h] m]].
  destruct Hi as [->|[->| ->]], Hj as [->|[->| ->]];
    cbv in Hcell; injection Hcell as ->;
    cbn in Hav; injection Hav as <-;
    apply list_elem_of_In in Hin; cbn in Hin;
    repeat (destruct Hin as [<-|Hin]; [|]); try done;
    cbv in Hdo; injection Hdo as <-; clear;
    (split; [cbv; split; congruence|]); (split; [cbv; split; congruence|]);
    (split; [reflexivity|]); (split; [reflexivity|]); (split; [reflexivity|]);
    intros k l Hk Hl Hne1 Hne2; in_range3 k Hk; in_range3 l Hl;
    try reflexivity; exfalso; (by apply Hne1) || (by apply Hne2).
Qed.

Lemma puzzle_move_exchanges_witness :
  let i' := 1 + fst (Puzzle.offset "up") in
  let j' := 1 + snd (Puzzle.offset "up") in
  0 ≤ i' < 3 ∧ 0 ≤ j' < 3 ∧ Z.abs (i' - 1) + Z.abs (j' - 1) = 1 ∧
  Puzzle.cell ((7, 2, 4), (5, 3, 6), (8, 0, 1)) i' j' = Ok 0 ∧
  Puzzle.cell ((7, 2, 4), (5, 3, 6), (8, 0, 1)) 1 1 = Puzzle.cell Puzzle.initial_state i' j' ∧
  ∀ k l, 0 ≤ k < 3 → 0 ≤ l < 3 → (k, l) ≠ (1, 1) → (k, l) ≠ (i', j') →
    Puzzle.cell ((7, 2, 4), (5, 3, 6), (8, 0, 1)) k l = Puzzle.cell Puzzle.initial_state k l.
Proof.
  apply (puzzle_move_exchanges Puzzle.initial_state ((7, 2, 4), (5, 3, 6), (8, 0, 1))
           ["down"; "up"; "right"; "left"]%string "up" 1 1); try reflexivity.
  apply list_elem_of_further, list_elem_of_here.
Defined.

(** X15. On a grid that holds each tile once, an available move can be
    taken back: it changes the grid, the opposite move is available in the
    grid it returns, and leads back to the grid it started from. *)
Theorem puzzle_move_back (s s' : Puzzle.state) (possible : list string) (act : string) :
  Puzzle.good s → Puzzle.available_actions s = Ok possible → act ∈ possible →
  Puzzle.do_action s act = Ok s' →
  s' ≠ s ∧ Puzzle.good s' ∧
  ∃ possible',
    Puzzle.available_actions s' = Ok possible' ∧
    Puzzle.opposite act ∈ possible' ∧
    Puzzle.do_action s' (Puzzle.opposite act) = Ok s.
Proof.
  intros Hgood Hav Hin Hdo.
  destruct (puzzle_move s possible act Hgood Hav Hin) as (s'' & Hdo' & Hgood' & _).
  assert (s'' = s') as -> by congruence. clear Hdo'.
  split; [|split; [done|]]; clear Hgood'.
  all: pose proof (good_NoDup _ Hgood) as Hnd.
  all: assert (0 ∈ Puzzle.cells s) as H0
    by (unfold Puzzle.good in Hgood; rewrite Hgood; apply list_elem_of_here).
  all: clear Hgood; destruct s as [[[[a b] c] [[d e] f]] [[g h] i]]; cbn in Hnd, H0.
  all: nodup_facts Hnd.
  all: unfold Puzzle.available_actions, Puzzle.do_action in Hav, Hdo;
    rewrite !find_position_locate in Hav, Hdo.
  all: repeat (apply elem_of_cons in H0 as [H0|H0]; [subst|]);
    [..|by apply elem_of_nil in H0].
  all: unfold Puzzle.locate in Hav, Hdo;
    repeat match goal with
    | Hne : ?x ≠ ?y, H : context [?x =? ?y] |- _ =>
        rewrite (proj2 (Z.eqb_neq x y) Hne) in H
    | Hne : ?x ≠ ?y, H : context [?y =? ?x] |- _ =>
        rewrite (proj2 (Z.eqb_neq y x) (not_eq_sym Hne)) in H
    end;
    cbn in Hav; injection Hav as <-; apply list_elem_of_In in Hin; cbn in Hin.
  all: repeat (destruct Hin as [<-|Hin]; [|]); try done.
  all: cbv in Hdo; injection Hdo as <-.
  all: try (intros [= ? ?]; congruence).
  all: unfold Puzzle.available_actions, Puzzle.do_action;
    rewrite !find_position_locate; unfold Puzzle.locate; decide_tests.
  all: eexists; split; [reflexivity|]; split; [|reflexivity].
  all: cbn; repeat (apply list_elem_of_here || apply list_elem_of_further).
Qed.

Lemma puzzle_move_back_witness :
  ((7, 2, 4), (5, 3, 6), (8, 0, 1)) ≠ Puzzle.initial_state ∧
  Puzzle.good ((7, 2, 4), (5, 3, 6), (8, 0, 1)) ∧
  ∃ possible',
    Puzzle.available_actions ((7, 2, 4), (5, 3, 6), (8, 0, 1)) = Ok possible' ∧
    Puzzle.opposite "up" ∈ possible' ∧
    Puzzle.do_action ((7, 2, 4), (5, 3, 6), (8, 0, 1)) (Puzzle.opposite "up") =
      Ok Puzzle.initial_state.
Proof.
  apply (puzzle_move_back Puzzle.initial_state ((7, 2, 4), (5, 3, 6), (8, 0, 1))
           ["down"; "up"; "right"; "left"]%string "up").
  - apply puzzle_good_initial.
  - reflexivity.
  - apply list_elem_of_further, list_elem_of_here.
  - reflexivity.
Defined.

(** X16. A move towards the last row or the last column that
    [available_actions] leaves out is not refused with an error of its own:
    with the blank in the last row [up] raises [IndexError], and so does
    [left] with the blank in the last column. *)
Theorem puzzle_border_index_error (s : Puzzle.state) (i j : Z) :
  Puzzle.find_position s 0 = Ok (Some (i, j)) →
  (i = 2 → Puzzle.do_action s "up" = Raise IndexError) ∧
  (j = 2 → Puzzle.do_action s "left" = Raise IndexError).
Proof.
  intros Hpos. destruct (find_position_Some s 0 i j Hpos) as (Hi & Hj & Hcell).
  unfold Puzzle.do_action. rewrite Hpos.
  destruct s as [[[[a b] c] [[d e] f]] [[g h] m]].
  destruct Hi as [->|[->| ->]], Hj as [->|[->| ->]];
    cbv in Hcell; injection Hcell as ->; clear.
  all: split; intros Hb; try discriminate Hb; reflexivity.
Qed.

Lemma puzzle_border_index_error_witness :
  (2 = 2 → Puzzle.do_action ((1, 2, 3), (4, 5, 6), (7, 8, 0)) "up" = Raise IndexError) ∧
  (2 = 2 → Puzzle.do_action ((1, 2, 3), (4, 5, 6), (7, 8, 0)) "left" = Raise IndexError).
Proof.
  apply (puzzle_border_index_error ((1, 2, 3), (4, 5, 6), (7, 8, 0)) 2 2). reflexivity.
Defined.

(** X17. A move towards the first row or the first column that
    [available_actions] leaves out returns a grid: the negative index counts
    from the end, so that [down] with the blank in the first row exchanges it
    with the cell of the last row in its column, and [right] with the blank in
    the first column exchanges it with the cell of the last column in its
    row. *)
Theorem puzzle_border_wraps (s : Puzzle.state) (i j : Z) :
  Puzzle.find_position s 0 = Ok (Some (i, j)) →
  (i = 0 → ∃ s', Puzzle.do_action s "down" = Ok s' ∧
     Puzzle.cell s' 2 j = Ok 0 ∧ Puzzle.cell s' 0 j = Puzzle.cell s 2 j) ∧
  (j = 0 → ∃ s', Puzzle.do_action s "right" = Ok s' ∧
     Puzzle.cell s' i 2 = Ok 0 ∧ Puzzle.cell s' i 0 = Puzzle.cell s i 2).
Proof.
  intros Hpos. destruct (find_position_Some s 0 i j Hpos) as (Hi & Hj & Hcell).
  unfold Puzzle.do_action. rewrite Hpos.
  destruct s as [[[[a b] c] [[d e] f]] [[g h] m]].
  destruct Hi as [->|[->| ->]], Hj as [->|[->| ->]];
    cbv in Hcell; injection Hcell as ->; clear.
  all: split; intros Hb; try discriminate Hb.
  all: eexists; split; [reflexivity|]; split; reflexivity.
Qed.

Lemma puzzle_border_wraps_witness :
  (0 = 0 → ∃ s', Puzzle.do_action Puzzle.expected_state "down" = Ok s' ∧
     Puzzle.cell s' 2 0 = Ok 0 ∧
     Puzzle.cell s' 0 0 = Puzzle.cell Puzzle.expected_state 2 0) ∧
  (0 = 0 → ∃ s', Puzzle.do_action Puzzle.expected_state "right" = Ok s' ∧
     Puzzle.cell s' 0 2 = Ok 0 ∧
     Puzzle.cell s' 0 0 = Puzzle.cell Puzzle.expected_state 0 2).
Proof. apply (puzzle_border_wraps Puzzle.expected_state 0 0). reflexivity. Defined.

Lemma half_zero (x : Z) : (inject_Z x / 2 == 0)%Q ↔ x = 0.
Proof.
  unfold Qdiv. change (/ 2)%Q with (1 # 2)%Q. split.
  - intros Hq. apply inject_Z_injective. change (inject_Z 0) with 0%Q. lra.
  - intros ->. done.
Qed.

Lemma distance_zero (i j v : Z) :
  0 ≤ j < 3 → Puzzle.distance i j v = 0 ↔ v = 3 * i + j.
Proof.
  unfold Puzzle.distance. intros Hj.
  pose proof (Z.div_mod v 3 ltac:(lia)). pose proof (Z.mod_pos_bound v 3 ltac:(lia)).
  generalize dependent (v / 3). generalize dependent (v mod 3).
  intros; split; intros; lia.
Qed.

Lemma total_distance_zero (s : Puzzle.state) :
  Puzzle.total_distance s = 0 ↔ s = Puzzle.expected_state.
Proof.
  destruct s as [[[[a b] c] [[d e] f]] [[g h] i]]. unfold Puzzle.total_distance.
  pose proof (distance_nonneg 0 0 a). pose proof (distance_nonneg 0 1 b).
  pose proof (distance_nonneg 0 2 c). pose proof (distance_nonneg 1 0 d).
  pose proof (distance_nonneg 1 1 e). pose proof (distance_nonneg 1 2 f).
  pose proof (distance_nonneg 2 0 g). pose proof (distance_nonneg 2 1 h).
  pose proof (distance_nonneg 2 2 i).
  split.
  - intros Hsum.
    rewrite (proj1 (distance_zero 0 0 a ltac:(lia)) ltac:(lia)).
    rewrite (proj1 (distance_zero 0 1 b ltac:(lia)) ltac:(lia)).
    rewrite (proj1 (distance_zero 0 2 c ltac:(lia)) ltac:(lia)).
    rewrite (proj1 (distance_zero 1 0 d ltac:(lia)) ltac:(lia)).
    rewrite (proj1 (distance_zero 1 1 e ltac:(lia)) ltac:(lia)).
    rewrite (proj1 (distance_zero 1 2 f ltac:(lia)) ltac:(lia)).
    rewrite (proj1 (distance_zero 2 0 g ltac:(lia)) ltac:(lia)).
    rewrite (proj1 (distance_zero 2 1 h ltac:(lia)) ltac:(lia)).
    rewrite (proj1 (distance_zero 2 2 i ltac:(lia)) ltac:(lia)).
    reflexivity.
  - intros [= -> -> -> -> -> -> -> -> ->]. reflexivity.
Qed.

Lemma misplaced_zero (s : Puzzle.state) :
  Puzzle.misplaced s = 0 ↔ s = Puzzle.expected_state.
Proof.
  destruct s as [[[[a b] c] [[d e] f]] [[g h] i]].
  unfold Puzzle.misplaced, Puzzle.off, Puzzle.expected_state.
  destruct (Z.eqb_spec a 0), (Z.eqb_spec b 1), (Z.eqb_spec c 2), (Z.eqb_spec d 3),
    (Z.eqb_spec e 4), (Z.eqb_spec f 5), (Z.eqb_spec g 6), (Z.eqb_spec h 7),
    (Z.eqb_spec i 8); subst; split; try done; intros [= ]; congruence.
Qed.

(** X18. The heuristics of [PuzzleProblem] and [PuzzleProblem2] are zero on
    the goal grid and on no other grid; the one of [PuzzleProblem1] is zero
    whenever the blank is in the first cell, on grids other than the goal too. *)
Theorem puzzle_heuristics_zero (s : Puzzle.state) :
  Puzzle.good s →
  ∃ h h1 h2,
    Puzzle.heuristic s = Ok h ∧ Puzzle.heuristic1 s = Ok h1 ∧
    Puzzle.heuristic2 s = Ok h2 ∧
    ((h == 0)%Q ↔ Puzzle.is_goal s = Ok true) ∧
    ((h2 == 0)%Q ↔ Puzzle.is_goal s = Ok true) ∧
    ((h1 == 0)%Q ↔ Puzzle.find_position s 0 = Ok (Some (0, 0))).
Proof.
  intros Hgood.
  assert (0 ∈ Puzzle.cells s) as H0
    by (unfold Puzzle.good in Hgood; rewrite Hgood; apply list_elem_of_here).
  eexists _, _, _.
  split; [by apply heuristic_total_distance|].
  split; [by apply heuristic1_blank|].
  split; [apply heuristic2_misplaced|].
  assert (Puzzle.is_goal s = Ok true ↔ s = Puzzle.expected_state) as Hg.
  { unfold Puzzle.is_goal. split.
    - intros [= Hb]. by apply bool_decide_eq_true in Hb.
    - intros ->. done. }
  split; [by rewrite half_zero, total_distance_zero|].
  split; [by rewrite half_zero, misplaced_zero|].
  rewrite find_position_locate. unfold Puzzle.blank_distance.
  destruct (locate_Some s 0 H0) as [[i j] Hloc]. rewrite Hloc.
  assert (Puzzle.find_position s 0 = Ok (Some (i, j))) as Hpos
    by (by rewrite find_position_locate, Hloc).
  destruct (find_position_Some s 0 i j Hpos) as (Hi & Hj & _).
  change 0%Q with (inject_Z 0). split.
  - intros Hq. apply (proj1 (inject_Z_injective _ _)) in Hq.
    assert (i = 0 ∧ j = 0) as [-> ->] by lia. done.
  - intros [= -> ->]. done.
Qed.

Lemma puzzle_heuristics_zero_witness :
  ∃ h h1 h2,
    Puzzle.heuristic ((1, 0, 2), (3, 4, 5), (6, 7, 8)) = Ok h ∧
    Puzzle.heuristic1 ((1, 0, 2), (3, 4, 5), (6, 7, 8)) = Ok h1 ∧
    Puzzle.heuristic2 ((1, 0, 2), (3, 4, 5), (6, 7, 8)) = Ok h2 ∧
    ((h == 0)%Q ↔ Puzzle.is_goal ((1, 0, 2), (3, 4, 5), (6, 7, 8)) = Ok true) ∧
    ((h2 == 0)%Q ↔ Puzzle.is_goal ((1, 0, 2), (3, 4, 5), (6, 7, 8)) = Ok true) ∧
    ((h1 == 0)%Q ↔
     Puzzle.find_position ((1, 0, 2), (3, 4, 5), (6, 7, 8)) 0 = Ok (Some (0, 0))).
Proof.
  apply (puzzle_heuristics_zero ((1, 0, 2), (3, 4, 5), (6, 7, 8))).
  unfold Puzzle.good. cbv. rearranged.
Defined.

(** A misplaced tile is at least one step from its home. *)
Lemma off_le_distance (i j v e : Z) :
  0 ≤ j < 3 → e = 3 * i + j → Puzzle.off v e ≤ Puzzle.distance i j v.
Proof.
  intros Hj ->. unfold Puzzle.off. destruct (Z.eqb_spec v (3 * i + j)) as [_|Hne].
  - apply distance_nonneg.
  - pose proof (distance_nonneg i j v). pose proof (distance_zero i j v Hj). lia.
Qed.

Lemma misplaced_le_total_distance (s : Puzzle.state) :
  Puzzle.misplaced s ≤ Puzzle.total_distance s.
Proof.
  destruct s as [[[[a b] c] [[d e] f]] [[g h] i]].
  unfold Puzzle.misplaced, Puzzle.total_distance.
  pose proof (off_le_distance 0 0 a 0 ltac:(lia) ltac:(lia)).
  pose proof (off_le_distance 0 1 b 1 ltac:(lia) ltac:(lia)).
  pose proof (off_le_distance 0 2 c 2 ltac:(lia) ltac:(lia)).
  pose proof (off_le_distance 1 0 d 3 ltac:(lia) ltac:(lia)).
  pose proof (off_le_distance 1 1 e 4 ltac:(lia) ltac:(lia)).
  pose proof (off_le_distance 1 2 f 5 ltac:(lia) ltac:(lia)).
  pose proof (off_le_distance 2 0 g 6 ltac:(lia) ltac:(lia)).
  pose proof (off_le_distance 2 1 h 7 ltac:(lia) ltac:(lia)).
  pose proof (off_le_distance 2 2 i 8 ltac:(lia) ltac:(lia)).
  lia.
Qed.

(** On a grid that holds each tile once the rows of the homes add up to the
    rows of the cells, and so do the columns. *)
Lemma homes_balance (s : Puzzle.state) :
  Puzzle.good s →
  Puzzle.sum ((λ v, v / 3) <$> Puzzle.cells s) = 9 ∧
  Puzzle.sum ((λ v, v mod 3) <$> Puzzle.cells s) = 9.
Proof.
  intros Hgood. unfold Puzzle.good in Hgood. split.
  - by rewrite (sum_Permutation _ ((λ v, v / 3) <$> Puzzle.tiles)) by (by rewrite Hgood).
  - by rewrite (sum_Permutation _ ((λ v, v mod 3) <$> Puzzle.tiles)) by (by rewrite Hgood).
Qed.

Lemma abs_bounds (x : Z) : - Z.abs x ≤ x ≤ Z.abs x.
Proof. lia. Qed.

Lemma blank_le_total_distance (s : Puzzle.state) :
  Puzzle.good s → 2 * Puzzle.blank_distance s ≤ Puzzle.total_distance s.
Proof.
  intros Hgood. destruct (homes_balance s Hgood) as [Hrow Hcol].
  assert (0 ∈ Puzzle.cells s) as H0
    by (unfold Puzzle.good in Hgood; rewrite Hgood; apply list_elem_of_here).
  destruct (locate_Some s 0 H0) as [[i0 j0] Hloc].
  unfold Puzzle.blank_distance. rewrite Hloc. clear Hgood H0.
  destruct s as [[[[a b] c] [[d e] f]] [[g h] i]].
  unfold Puzzle.total_distance, Puzzle.distance. unfold Puzzle.sum in Hrow, Hcol.
  cbn in Hrow, Hcol. unfold Puzzle.locate in Hloc.
  repeat match type of Hloc with
  | context [?x =? 0] => destruct (Z.eqb_spec x 0); [subst x|]
  end; injection Hloc as <- <- || discriminate Hloc.
  all: change (0 / 3) with 0 in *; change (0 mod 3) with 0 in *.
  all: repeat match goal with
    | |- context [Z.abs ?x] =>
        pose proof (abs_bounds x); generalize dependent (Z.abs x); intros
    end.
  all: repeat match goal with
    | H : context [?x / 3] |- _ => generalize dependent (x / 3); intros
    | H : context [?x mod 3] |- _ => generalize dependent (x mod 3); intros
    end.
  all: lia.
Qed.

(** X19. On a grid that holds each tile once, the heuristic of
    [PuzzleProblem] is at least the one of [PuzzleProblem1] and at least the
    one of [PuzzleProblem2]. *)
Theorem puzzle_heuristic_dominates (s : Puzzle.state) :
  Puzzle.good s →
  ∃ h h1 h2,
    Puzzle.heuristic s = Ok h ∧ Puzzle.heuristic1 s = Ok h1 ∧
    Puzzle.heuristic2 s = Ok h2 ∧ (h1 <= h)%Q ∧ (h2 <= h)%Q.
Proof.
  intros Hgood.
  assert (0 ∈ Puzzle.cells s) as H0
    by (unfold Puzzle.good in Hgood; rewrite Hgood; apply list_elem_of_here).
  eexists _, _, _.
  split; [by apply heuristic_total_distance|].
  split; [by apply heuristic1_blank|].
  split; [apply heuristic2_misplaced|].
  pose proof (blank_le_total_distance s Hgood) as Hb.
  pose proof (misplaced_le_total_distance s) as Hm.
  rewrite Zle_Qle in Hb, Hm. rewrite inject_Z_mult in Hb.
  change (inject_Z 2) with 2%Q in Hb.
  unfold Qdiv. change (/ 2)%Q with (1 # 2)%Q. split; lra.
Qed.

Lemma puzzle_heuristic_dominates_witness :
  ∃ h h1 h2,
    Puzzle.heuristic Puzzle.initial_state = Ok h ∧
    Puzzle.heuristic1 Puzzle.initial_state = Ok h1 ∧
    Puzzle.heuristic2 Puzzle.initial_state = Ok h2 ∧ (h1 <= h)%Q ∧ (h2 <= h)%Q.
Proof. apply (puzzle_heuristic_dominates Puzzle.initial_state), puzzle_good_initial. Defined.

(** X20. The heuristic of [PuzzleProblem] is consistent and admissible; no
    condition on the grid is needed, since the heuristic returns on the grids
    that hold each tile once only. *)
Theorem puzzle_heuristic_admissible :
  consistent Puzzle.problem ∧ admissible Puzzle.problem ∧
  nonneg_heuristic Puzzle.problem.
Proof.
  assert (∀ s possible act s',
            Puzzle.good s → Puzzle.available_actions s = Ok possible → act ∈ possible →
            Puzzle.do_action s act = Ok s' →
            (inject_Z (Puzzle.total_distance s) / 2 <=
             1 + inject_Z (Puzzle.total_distance s') / 2)%Q) as Hstep.
  { intros s possible act s' Hs Hav Hin Hdo.
    destruct (puzzle_move s possible act Hs Hav Hin) as (s'' & Hdo' & _ & Hle & _).
    assert (s'' = s') as -> by congruence. by apply half_step. }
  split; [|split].
  - intros s possible a s' c h h' Hav Hin Hdo [= <-] Hh Hh'.
    pose proof (heuristic_returns_good s h Hh) as Hgood.
    pose proof (heuristic_returns_good s' h' Hh') as Hgood'.
    change (Puzzle.heuristic s = Ok h) in Hh. change (Puzzle.heuristic s' = Ok h') in Hh'.
    rewrite (heuristic_total_distance s Hgood) in Hh. injection Hh as <-.
    rewrite (heuristic_total_distance s' Hgood') in Hh'. injection Hh' as <-.
    by eapply Hstep.
  - intros s h plan t total Hh Hrun Ht.
    pose proof (heuristic_returns_good s h Hh) as Hgood.
    eapply (puzzle_admissible_on Puzzle.heuristic
              (λ s, inject_Z (Puzzle.total_distance s) / 2)%Q); try done.
    + apply heuristic_total_distance.
    + by apply elem_of_universe.
  - intros s h Hh. pose proof (heuristic_returns_good s h Hh) as Hgood.
    change (Puzzle.heuristic s = Ok h) in Hh.
    rewrite (heuristic_total_distance s Hgood) in Hh. injection Hh as <-.
    apply half_nonneg, total_distance_nonneg.
Qed.

(** X21. On the grids that hold each tile once, each of the three heuristics
    is admissible, and consistent: an available move lowers it by at most
    one, the cost of the move. *)
Theorem puzzle_heuristics_consistent (P : Problem Puzzle.state) :
  P ∈ [Puzzle.problem; Puzzle.problem1; Puzzle.problem2] →
  admissible_on P Puzzle.universe ∧
  ∀ s possible a s' c h h',
    Puzzle.good s →
    available_actions P s = Ok possible → a ∈ possible →
    do_action P s a = Ok s' → action_cost P s a = Ok c →
    heuristic P s = Ok h → heuristic P s' = Ok h' →
    (h <= c + h')%Q.
Proof.
  intros HP.
  assert (∀ h q,
    (∀ s, Puzzle.good s → h s = Ok (q s)) →
    (q Puzzle.expected_state <= 0)%Q →
    (∀ s possible act s',
       Puzzle.good s → Puzzle.available_actions s = Ok possible → act ∈ possible →
       Puzzle.do_action s act = Ok s' → (q s <= 1 + q s')%Q) →
    admissible_on (Puzzle.with_heuristic h) Puzzle.universe ∧
    ∀ s possible a s' c h0 h',
      Puzzle.good s →
      Puzzle.available_actions s = Ok possible → a ∈ possible →
      Puzzle.do_action s a = Ok s' → Puzzle.action_cost s a = Ok c →
      h s = Ok h0 → h s' = Ok h' → (h0 <= c + h')%Q) as Hall.
  { intros h q Hh Hgoal Hstep. split; [by apply (puzzle_admissible_on h q)|].
    intros s possible a s' c h0 h' Hs Hav Hin Hdo [= <-] Hh0 Hh'.
    destruct (puzzle_move s possible a Hs Hav Hin) as (s'' & Hdo' & Hs' & _).
    assert (s'' = s') as -> by congruence.
    rewrite (Hh s Hs) in Hh0. injection Hh0 as <-.
    rewrite (Hh s' Hs') in Hh'. injection Hh' as <-. by eapply Hstep. }
  repeat (apply elem_of_cons in HP as [->|HP]); [| | |by apply elem_of_nil in HP].
  - apply (Hall Puzzle.heuristic (λ s, inject_Z (Puzzle.total_distance s) / 2)%Q).
    + apply heuristic_total_distance.
    + done.
    + intros s possible act s' Hs Hav Hin Hdo.
      destruct (puzzle_move s possible act Hs Hav Hin) as (s'' & Hdo' & _ & Hle & _).
      assert (s'' = s') as -> by congruence. by apply half_step.
  - apply (Hall Puzzle.heuristic1 (λ s, inject_Z (Puzzle.blank_distance s))).
    + intros s Hs. apply heuristic1_blank. unfold Puzzle.good in Hs. rewrite Hs.
      apply list_elem_of_here.
    + done.
    + intros s possible act s' Hs Hav Hin Hdo.
      destruct (puzzle_move s possible act Hs Hav Hin) as (s'' & Hdo' & _ & _ & _ & Hle).
      assert (s'' = s') as -> by congruence.
      rewrite Zle_Qle, inject_Z_plus in Hle. exact Hle.
  - apply (Hall Puzzle.heuristic2 (λ s, inject_Z (Puzzle.misplaced s) / 2)%Q).
    + intros s _. apply heuristic2_misplaced.
    + done.
    + intros s possible act s' Hs Hav Hin Hdo.
      destruct (puzzle_move s possible act Hs Hav Hin) as (s'' & Hdo' & _ & _ & Hle & _).
      assert (s'' = s') as -> by congruence. by apply half_step.
Qed.

Lemma puzzle_heuristics_consistent_witness :
  admissible_on Puzzle.problem1 Puzzle.universe ∧
  ∀ s possible a s' c h h',
    Puzzle.good s →
    available_actions Puzzle.problem1 s = Ok possible → a ∈ possible →
    do_action Puzzle.problem1 s a = Ok s' → action_cost Puzzle.problem1 s a = Ok c →
    heuristic Puzzle.problem1 s = Ok h → heuristic Puzzle.problem1 s' = Ok h' →
    (h <= c + h')%Q.
Proof.
  apply (puzzle_heuristics_consistent Puzzle.problem1).
  apply list_elem_of_further, list_elem_of_here.
Defined.

(** X22. Every plan that can be run on a grid that holds each tile once
    ends on such a grid, and its cost is the number of its actions, whatever
    the heuristic. *)
Theorem puzzle_plan_cost (h : Puzzle.state → res Q) (s t : Puzzle.state)
    (plan : list string) (total : Q) :
  Puzzle.good s →
  run_plan (Puzzle.with_heuristic h) s plan = Ok (t, total) →
  Puzzle.good t ∧ (total == inject_Z (Z.of_nat (length plan)))%Q.
Proof.
  intros Hgood Hrun. split; [|by eapply puzzle_unit_cost].
  revert s total Hgood Hrun. induction plan as [|a plan IH]; intros s total Hgood Hrun.
  - by injection Hrun as <- <-.
  - apply run_plan_cons in Hrun
      as (possible & s' & c & total' & Hav & Hin & Hdo & _ & Hrest & _).
    change (Puzzle.available_actions s = Ok possible) in Hav.
    change (Puzzle.do_action s a = Ok s') in Hdo.
    destruct (puzzle_move s possible a Hgood Hav Hin) as (s'' & Hdo' & Hgood' & _).
    assert (s'' = s') as -> by congruence. by eapply IH.
Qed.

Lemma puzzle_plan_cost_witness :
  Puzzle.good Puzzle.expected_state ∧
  (26%Q == inject_Z (Z.of_nat (length Puzzle.plan26)))%Q.
Proof.
  apply (puzzle_plan_cost Puzzle.heuristic Puzzle.initial_state Puzzle.expected_state
           Puzzle.plan26 26%Q).
  - apply puzzle_good_initial.
  - apply puzzle_plan26.
Defined.

(** ** The search *)

Section SearchExtras.
Context {State : Type} `{Countable State}.
Variable P : Problem State.

Lemma queue_recorded_relax cs cc q rv p q' rv' :
  queue_recorded q rv → relax P cs cc (q, rv) p = Ok (q', rv') → queue_recorded q' rv'.
Proof.
  intros Hinv (ns & c & h & _ & _ & _ & Hcase)%relax_Ok.
  destruct Hcase as [(r & _ & _ & -> & ->)|(Hlt & -> & ->)]; [done|].
  intros k s [[= -> ->]|Hin]%elem_of_q_put.
  - eexists. split; [apply lookup_insert_eq|]. cbn. lra.
  - destruct (Hinv k s Hin) as (r & Hr & Hle).
    destruct (decide (s = ns)) as [->|Hne].
    + eexists. split; [apply lookup_insert_eq|]. cbn.
      pose proof (Hlt r Hr). lra.
    + exists r. by rewrite lookup_insert_ne.
Qed.

Lemma queue_recorded_point q rv : search_point P q rv → queue_recorded q rv.
Proof.
  assert (∀ v, at_head P v → queue_recorded (v_q v) (v_revealed v)) as Hhead.
  { apply (at_head_ind P (λ v, queue_recorded (v_q v) (v_revealed v))
             (λ _ _ _ _ _ st, queue_recorded st.1 st.2)).
    - intros h0 _ k s [[= -> ->]|Hin]%elem_of_q_put; [|by apply elem_of_nil in Hin].
      eexists. split; [apply lookup_singleton_eq|]. cbn. lra.
    - intros v current q0 r possible _ Hinv Hget _ _ _ k s Hin. apply Hinv.
      apply (elem_of_q_get P _ _ _ _ Hget). by right.
    - intros v cs cc done p rest [q0 rv0] [q1 rv1] _ _ _ Hinv Hrelax.
      by eapply queue_recorded_relax.
    - intros v cs cc possible q0 rv0 _ _ _ Hinv. exact Hinv. }
  intros [(v & Hv & -> & ->)|(v & cs & cc & done & rest & Hv & Hexp)]; [by apply Hhead|].
  apply (expanding_ind P (λ v, queue_recorded (v_q v) (v_revealed v))
           (λ _ _ _ _ _ st, queue_recorded st.1 st.2)) in Hexp; [done| | |done|by apply Hhead].
  - intros v0 current q0 r possible _ Hinv Hget _ _ _ k s Hin. apply Hinv.
    apply (elem_of_q_get P _ _ _ _ Hget). by right.
  - intros v0 cs0 cc0 done0 p rest0 [q0 rv0] [q1 rv1] _ _ _ Hinv Hrelax.
    by eapply queue_recorded_relax.
Qed.

(** Before the first state is taken from the queue, the queue is not empty. *)
Lemma head_started v :
  at_head P v → v_curr_state v = None → ∃ e q, q_get P (v_q v) = Some (e, q).
Proof.
  apply (at_head_ind P
           (λ v, v_curr_state v = None → ∃ e q, q_get P (v_q v) = Some (e, q))
           (λ _ _ _ _ _ _, True)); try done.
  intros h0 _ _. by eexists _, _.
Qed.

Lemma search_current fuel v :
  nonneg_costs P → search P fuel = Ok v →
  ∃ cs r, v_curr_state v = Some cs ∧ v_revealed v !! cs = Some r ∧
          table_sound P (v_revealed v) ∧ table_rooted P (v_revealed v).
Proof.
  intros Hnn Hs. destruct (search_Ok _ _ _ Hs) as (v0 & Hhead & Hbreak).
  pose proof (table_sound_head _ _ Hhead) as Hsound.
  destruct (rooted_head _ Hnn _ Hhead) as [Hroot Hcurr].
  apply iteration_Break in Hbreak as [[Hget ->]|(current & q & r & _ & Hr & _ & ->)].
  - destruct (v_curr_state v0) as [cs|] eqn:Hcs.
    + destruct (Hcurr cs eq_refl) as [r Hr]. by exists cs, r.
    + destruct (head_started _ Hhead Hcs) as (e & q & Hget'). congruence.
  - by exists (snd current), r.
Qed.
End SearchExtras.

(** X23. At every point of a search each record of the table is coherent:
    its [f] is its [g] plus the heuristic of its state, and either it has no
    predecessor and belongs to the initial state, or its action is available
    in its predecessor and leads from there to its state. *)
Theorem revealed_records_sound {State : Type} `{Countable State} (P : Problem State)
    (q : queue State) (rv : gmap State (record State)) (s : State) (r : record State) :
  search_point P q rv → rv !! s = Some r →
  (∃ h, heuristic P s = Ok h ∧ rec_f r == rec_g r + h)%Q ∧
  match rec_pred r with
  | None => s = initial_state P
  | Some p =>
      ∃ possible c,
        available_actions P p = Ok possible ∧ rec_action r ∈ possible ∧
        do_action P p (rec_action r) = Ok s ∧ action_cost P p (rec_action r) = Ok c
  end.
Proof. intros Hpoint Hr. by apply (table_sound_point P q rv Hpoint). Qed.

Lemma revealed_records_sound_witness :
  let s : Vacuum.state := (1, [false; false]) in
  let r : record Vacuum.state := Rec (Some (1, [false; true])) "Suck" 3%Q 3%Q in
  (∃ h, heuristic Vacuum.problem s = Ok h ∧ rec_f r == rec_g r + h)%Q ∧
  match rec_pred r with
  | None => s = initial_state Vacuum.problem
  | Some p =>
      ∃ possible c,
        available_actions Vacuum.problem p = Ok possible ∧ rec_action r ∈ possible ∧
        do_action Vacuum.problem p (rec_action r) = Ok s ∧
        action_cost Vacuum.problem p (rec_action r) = Ok c
  end.
Proof.
  apply (revealed_records_sound Vacuum.problem
           (v_q (vacuum_head 3)) (v_revealed (vacuum_head 3))).
  - apply vacuum_head_point.
  - by vm_compute.
Defined.

(** X24. At every point of a search each state in the queue has a record in
    the table, whose [f] is at most the cost under which the state is queued:
    the lookup [revealed[current[1]]] of a state taken from the queue does not
    raise [KeyError]. *)
Theorem queue_entries_recorded {State : Type} `{Countable State} (P : Problem State)
    (q : queue State) (rv : gmap State (record State)) :
  search_point P q rv →
  (∀ k s, (k, s) ∈ PriorityQueue.elements q →
     ∃ r, rv !! s = Some r ∧ (rec_f r <= k)%Q) ∧
  ∀ current q', q_get P q = Some (current, q') →
    ∃ r, subscript rv (snd current) = Ok r.
Proof.
  intros Hinv%queue_recorded_point. split; [exact Hinv|].
  intros [k s] q' Hget. destruct (Hinv k s) as (r & Hr & _).
  - apply (elem_of_q_get P _ _ _ _ Hget). by left.
  - exists r. unfold subscript. cbn. by rewrite Hr.
Qed.

Lemma queue_entries_recorded_witness :
  let q := v_q (vacuum_head 3) in
  let rv := v_revealed (vacuum_head 3) in
  PriorityQueue.elements q = [(3%Q, (1, [false; false])); (3%Q, (1, [true; true]))] ∧
  size rv = 5%nat ∧
  (∀ k s, (k, s) ∈ PriorityQueue.elements q →
     ∃ r, rv !! s = Some r ∧ (rec_f r <= k)%Q) ∧
  ∀ current q', q_get Vacuum.problem q = Some (current, q') →
    ∃ r, subscript rv (snd current) = Ok r.
Proof.
  intros q rv. split; [by vm_compute|]. split; [by vm_compute|].
  apply (queue_entries_recorded Vacuum.problem). apply vacuum_head_point.
Defined.

(** X25. With sums that are exact and action costs that are not negative,
    the list [astar] returns leads from the initial state to the state that
    was taken from the queue last, goal or not, each action being available
    where it is applied, and its cost is at most the [g] recorded for that
    state. *)
Theorem astar_plan_cost {State : Type} `{Countable State} (add : Q → Q → Q)
    (P : Problem State) (fuel : N) (rep : report) :
  exact_arithmetic add → nonneg_costs P → astar_with add P fuel = Ok rep →
  ∃ v cs r total,
    search_with add P fuel = Ok v ∧ v_curr_state v = Some cs ∧
    v_revealed v !! cs = Some r ∧
    run_plan P (initial_state P) (solution rep) = Ok (cs, total) ∧
    (total <= rec_g r)%Q.
Proof.
  intros Hexact Hnn Ha. rewrite (astar_with_exact add P Hexact) in Ha.
  apply astar_Ok in Ha as (v & cs & sol & Hs & Hcs & Hrec & ->).
  destruct (search_current P fuel v Hnn Hs) as (cs' & r & Hcs' & Hr & Hsound & Hroot).
  assert (cs' = cs) as -> by congruence.
  destruct (reconstruct_cost P _ _ _ _ _ Hsound Hroot Hr Hrec) as (total & Hrun & Hle).
  exists v, cs, r, total. by rewrite (search_with_exact add P Hexact).
Qed.

Lemma astar_plan_cost_witness :
  ∃ v cs r total,
    search_with Qplus Vacuum.problem 4 = Ok v ∧ v_curr_state v = Some cs ∧
    v_revealed v !! cs = Some r ∧
    run_plan Vacuum.problem (initial_state Vacuum.problem)
      (solution (Report ["Suck"; "Right"; "Suck"] 4 5)) = Ok (cs, total) ∧
    (total <= rec_g r)%Q.
Proof.
  apply (astar_plan_cost Qplus Vacuum.problem 4 (Report ["Suck"; "Right"; "Suck"] 4 5)).
  - apply exact_Qplus.
  - apply vacuum_nonneg_costs.
  - by vm_compute.
Defined.

(** X26. Over finitely many states that Python's [<] orders, that are closed
    under the available actions and on which the methods of the problem
    return, with sums that are exact and costs that are not negative, [astar]
    returns under every large enough budget, whether or not a goal can be
    reached: the first loop ends when the queue is empty at the latest, and
    the second loop ends at the initial state. *)
Theorem astar_terminates {State : Type} `{Countable State} (add : Q → Q → Q)
    (P : Problem State) (univ : list State) :
  exact_arithmetic add → ordered_states P →
  closed_universe P univ → nonneg_costs P →
  ∃ rep fuel0, ∀ fuel, (fuel0 ≤ fuel)%N → astar_with add P fuel = Ok rep.
Proof.
  intros Hexact _ Hclosed Hnn. pose proof Hclosed as [Hinit Hcl].
  destruct (Hcl _ Hinit) as (_ & (h0 & Hh0) & _).
  set (fuel1 := N.succ (N.of_nat
    (measure P univ (v_q (start P h0 h0)) (v_revealed (start P h0 h0))))).
  destruct (search_terminates P univ Hclosed Hnn fuel1 h0 Hh0) as [v Hs]; [lia|].
  destruct (search_current P fuel1 v Hnn Hs) as (cs & r & Hcs & Hr & _ & Hroot).
  destruct Hroot as [_ Hall]. destruct (Hall _ _ Hr) as (_ & _ & (l & Hl)).
  set (fuel0 := N.max fuel1 (N.succ (N.of_nat (length l)))).
  destruct (chain_reconstruct _ _ l [] fuel0 Hl) as [sol Hsol];
    [apply N.max_lt_iff; right; lia|].
  exists (Report (rev sol) (v_x v) (N.of_nat (size (v_revealed v)))), fuel0.
  intros fuel Hfuel. rewrite (astar_with_exact add P Hexact).
  apply (astar_mono P fuel0); [|done].
  apply (astar_intro P fuel0 v cs sol); [|done|done].
  eapply search_mono; [done | apply N.le_max_l].
Qed.

Lemma dead_end_closed_universe : closed_universe DeadEnd.problem [0; 1].
Proof.
  split; [apply list_elem_of_here|].
  intros s Hs. split; [by eexists|]. split; [by eexists|].
  eexists. split; [reflexivity|]. intros a Ha. split; [by eexists|].
  eexists. split; [reflexivity|].
  apply elem_of_cons in Hs as [->|Hs]; [apply list_elem_of_further, list_elem_of_here|].
  apply list_elem_of_singleton in Hs as ->. by apply elem_of_nil in Ha.
Qed.

Lemma dead_end_ordered_states : ordered_states DeadEnd.problem.
Proof.
  split; [|split]; cbn.
  - intros s. apply Z.ltb_irrefl.
  - intros s t u Hst%Z.ltb_lt Htu%Z.ltb_lt. apply Z.ltb_lt. lia.
  - intros s t Hne. rewrite !Z.ltb_lt. lia.
Qed.

Lemma astar_terminates_witness :
  ∃ rep fuel0, ∀ fuel, (fuel0 ≤ fuel)%N → astar_with Qplus DeadEnd.problem fuel = Ok rep.
Proof.
  apply (astar_terminates Qplus DeadEnd.problem [0; 1]).
  - apply exact_Qplus.
  - apply dead_end_ordered_states.
  - apply dead_end_closed_universe.
  - intros s a c [= <-]. done.
Defined.
